(** * process_data.py: label codec, tiler and dataset partitioner

    A shallow embedding of [src/model_training/process_data.py].

    Arrays are nested lists.  A batch of per-pixel values has the three
    leading axes the code indexes with [[:, :, :, ...]] (batch, row,
    column); the last axis of an RGB batch is a triple of channels and
    the last axis of a one-hot batch is a list of [nb_labels] channels.
    Channel values and label indices are integers ([Z]): the arrays the
    code handles hold 8-bit pixel values and small class indices, stored
    as integers or as integer-valued floats, for which numpy's [==] is
    exact equality. *)

From Stdlib Require Import List ZArith QArith Lia Bool Arith String Ascii.
From Stdlib Require Import DecimalString DecimalNat Sorted Qround Qabs SpecFloat.
Import ListNotations.

Close Scope Q_scope.
Open Scope nat_scope.
Set Implicit Arguments.

(* ================================================================== *)
(** ** Arrays with three leading axes *)

Module Batch.

Definition t (A : Type) : Type := list (list (list A)).

(** An elementwise operation on the leading axes. *)
Definition map {A B} (f : A -> B) (b : t A) : t B :=
  List.map (List.map (List.map f)) b.

(** [np.zeros(shape)]: the array of the same leading shape filled with
    one value. *)
Definition full {A B} (z : B) (b : t A) : t B := map (fun _ => z) b.

Fixpoint zip_with1 {A B C} (f : A -> B -> C) (xs : list A) (ys : list B)
  : list C :=
  match xs, ys with
  | x :: xs', y :: ys' => f x y :: zip_with1 f xs' ys'
  | _, _ => []
  end.

Definition zip_with {A B C} (f : A -> B -> C) (x : t A) (y : t B) : t C :=
  zip_with1 (zip_with1 (zip_with1 f)) x y.

(** [a[mask] = v] for a boolean mask of the shape of [a]'s leading axes:
    the masked elements are replaced by [upd] of the old element. *)
Definition assign_where {A} (mask : t bool) (upd : A -> A) (a : t A) : t A :=
  zip_with (fun (m : bool) x => if m then upd x else x) mask a.

(** Every element satisfies [P]. *)
Definition all {A} (P : A -> Prop) (b : t A) : Prop :=
  Forall (Forall (Forall P)) b.

(** Elementwise [option] results collected into one: the whole
    operation fails when one element does. *)
Fixpoint sequence1 {A} (l : list (option A)) : option (list A) :=
  match l with
  | [] => Some []
  | None :: _ => None
  | Some x :: l' =>
      match sequence1 l' with
      | Some xs => Some (x :: xs)
      | None => None
      end
  end.

Definition traverse1 {A B} (f : A -> option B) (l : list A) : option (list B) :=
  sequence1 (List.map f l).

Definition traverse {A B} (f : A -> option B) (b : t A) : option (t B) :=
  traverse1 (traverse1 (traverse1 f)) b.

End Batch.

(* ================================================================== *)
(** ** Configuration constants *)

Definition RGB : Type := (Z * Z * Z)%type.

Definition chan0 (p : RGB) : Z := fst (fst p).
Definition chan1 (p : RGB) : Z := snd (fst p).
Definition chan2 (p : RGB) : Z := snd p.

(** [(p[0] == key[0]) & (p[1] == key[1]) & (p[2] == key[2])] *)
Definition rgb_eqb (p key : RGB) : bool :=
  (chan0 p =? chan0 key)%Z && (chan1 p =? chan1 key)%Z
  && (chan2 p =? chan2 key)%Z.

Definition INPUT : string := "input".
Definition OUTPUT : string := "output".
Definition TRAIN : string := "train".
Definition VALIDATION : string := "validation".
Definition BOGUS_CLASS : string := "bogus_class".

Definition train_ratio : Q := 3 # 4.
Definition tile_size : nat := 200.
Definition tile_stride : nat := 100.
Definition seed : nat := 1.

(** Impervious, Building, Low vegetation, Tree, Car, Clutter. *)
Definition label_keys : list RGB :=
  [ (255, 255, 255);
    (0, 0, 255);
    (0, 255, 255);
    (0, 255, 0);
    (255, 255, 0);
    (255, 0, 0) ]%Z.

Definition nb_labels : nat := List.length label_keys.

(** Python's [enumerate]. *)
Definition enumerate {A} (l : list A) : list (nat * A) :=
  combine (seq 0 (List.length l)) l.

(* ================================================================== *)
(** ** Label codec *)

Section Codec.

(** The codec functions read the module-level table; the section
    states them over any table [keys] and the file instantiates them
    at [label_keys] below. *)
Variable keys : list RGB.

Definition key_mask (key : RGB) (rgb_batch : Batch.t RGB) : Batch.t bool :=
  Batch.map (fun p => rgb_eqb p key) rgb_batch.

Definition rgb_to_label_batch_with (rgb_batch : Batch.t RGB) : Batch.t Z :=
  fold_left
    (fun label_batch (lk : nat * RGB) =>
       let (label, key) := lk in
       let mask := key_mask key rgb_batch in
       Batch.assign_where mask (fun _ => Z.of_nat label) label_batch)
    (enumerate keys)
    (Batch.full 0%Z rgb_batch).

Definition label_mask (label : nat) (label_batch : Batch.t Z) : Batch.t bool :=
  Batch.map (fun l => (l =? Z.of_nat label)%Z) label_batch.

(** [v[label] = 1.] on the channel axis. *)
Fixpoint set_channel (label : nat) (x : Z) (v : list Z) : list Z :=
  match v, label with
  | [], _ => []
  | _ :: v', O => x :: v'
  | y :: v', S n => y :: set_channel n x v'
  end.

Definition label_to_one_hot_batch_with (label_batch : Batch.t Z)
  : Batch.t (list Z) :=
  let nb := List.length keys in
  fold_left
    (fun one_hot_batch label =>
       Batch.assign_where (label_mask label label_batch)
                          (set_channel label 1%Z) one_hot_batch)
    (seq 0 nb)
    (Batch.full (repeat 0%Z nb) label_batch).

Definition rgb_to_one_hot_batch_with (rgb_batch : Batch.t RGB) :=
  label_to_one_hot_batch_with (rgb_to_label_batch_with rgb_batch).

Definition label_to_rgb_batch_with (label_batch : Batch.t Z) : Batch.t RGB :=
  fold_left
    (fun rgb_batch (lk : nat * RGB) =>
       let (label, key) := lk in
       let mask := label_mask label label_batch in
       Batch.assign_where mask (fun _ => key) rgb_batch)
    (enumerate keys)
    (Batch.full (0, 0, 0)%Z label_batch).

End Codec.

(** [np.argmax] along one axis: the index of the first occurrence of the
    maximum; numpy refuses an empty axis. *)
Fixpoint argmax_from (best_i : nat) (best : Z) (i : nat) (v : list Z) : nat :=
  match v with
  | [] => best_i
  | x :: v' =>
      if (best <? x)%Z then argmax_from i x (S i) v'
      else argmax_from best_i best (S i) v'
  end.

Definition argmax (v : list Z) : option nat :=
  match v with
  | [] => None
  | x :: v' => Some (argmax_from 0 x 1 v')
  end.

Definition rgb_to_label_batch := rgb_to_label_batch_with label_keys.
Definition label_to_one_hot_batch := label_to_one_hot_batch_with label_keys.
Definition rgb_to_one_hot_batch := rgb_to_one_hot_batch_with label_keys.
Definition label_to_rgb_batch := label_to_rgb_batch_with label_keys.

(** [np.argmax(one_hot_batch, axis=3)].  The channel axis of a batch is
    read off its pixels; a batch without a pixel is taken to have a
    channel axis that is not empty, as every array the code makes
    has. *)
Definition one_hot_to_label_batch (one_hot_batch : Batch.t (list Z))
  : option (Batch.t Z) :=
  Batch.traverse (fun v => option_map Z.of_nat (argmax v)) one_hot_batch.

Definition one_hot_to_rgb_batch (one_hot_batch : Batch.t (list Z))
  : option (Batch.t RGB) :=
  option_map label_to_rgb_batch (one_hot_to_label_batch one_hot_batch).

(* ================================================================== *)
(** ** Exceptions and results *)

Inductive exn : Type :=
| ValueError            (* range() arg 3 must not be zero *)
| FileExistsError
| PermissionError
| FileNotFoundError
| OverflowError
| OSError (errno : nat).

Inductive result (A : Type) : Type :=
| Ok (a : A)
| Raise (e : exn).

Arguments Ok {A} a.
Arguments Raise {A} e.

(* ================================================================== *)
(** ** Tiler *)

(** An image is an array rows x cols x channels; the channel axis is
    kept whole by every slice of the code, so a pixel is one value. *)
Definition Image (A : Type) : Type := list (list A).

Definition n_rows {A} (im : Image A) : nat := List.length im.

Definition n_cols {A} (im : Image A) : nat :=
  match im with
  | [] => 0
  | r :: _ => List.length r
  end.

(** Rectangular, as every numpy array is. *)
Definition rect {A} (im : Image A) : Prop :=
  Forall (fun r => List.length r = n_cols im) im.

(** [range(0, stop, step)] for a non-negative step; the values are
    [0, step, 2*step, ...] below [stop], and a zero step is refused. *)
Definition range_step (stop step : nat) : result (list nat) :=
  match step with
  | O => Raise ValueError
  | S _ => Ok (List.map (fun i => i * step) (seq 0 ((stop + step - 1) / step)))
  end.

(** [l[a : a + n]] for non-negative bounds. *)
Definition slice {A} (a n : nat) (l : list A) : list A := firstn n (skipn a l).

(** [im[row:row+size, col:col+size, :]] *)
Definition crop {A} (im : Image A) (row col size : nat) : Image A :=
  List.map (slice col size) (slice row size im).

(** The pixel at row [a] and column [b]: [im[a, b]]. *)
Definition pixel_at {A} (im : Image A) (a b : nat) : option A :=
  match nth_error im a with
  | Some row => nth_error row b
  | None => None
  end.

Definition tile_image {A} (im : Image A) (size stride : nat)
  : result (list (Image A)) :=
  let rows := n_rows im in
  let cols := n_cols im in
  match range_step rows stride, range_step cols stride with
  | Ok row_range, Ok col_range =>
      Ok (flat_map
            (fun row =>
               flat_map
                 (fun col =>
                    if (row + size <=? rows) && (col + size <=? cols)
                    then [crop im row col size]
                    else [])
                 col_range)
            row_range)
  | Raise e, _ => Raise e
  | _, Raise e => Raise e
  end.

(** The offsets at which the two loops of [tile_image] append a tile, in
    the order they do. *)
Definition tile_offsets (rows cols size stride : nat) : list (nat * nat) :=
  flat_map
    (fun i =>
       flat_map
         (fun j =>
            if (i * stride + size <=? rows) && (j * stride + size <=? cols)
            then [(i * stride, j * stride)]
            else [])
         (seq 0 ((cols + stride - 1) / stride)))
    (seq 0 ((rows + stride - 1) / stride)).

(** Row-major order on offsets. *)
Definition row_major_lt (p q : nat * nat) : Prop :=
  fst p < fst q \/ (fst p = fst q /\ snd p < snd q).

(** The tiling as section 4.2 of the specification words it: row offsets
    [0, stride, 2*stride, ...] while [row + size <= rows], and for each
    of them the column offsets likewise. *)
Definition count_offsets (extent size stride : nat) : nat :=
  if extent <? size then 0 else (extent - size) / stride + 1.

Definition spec_offsets (rows cols size stride : nat) : list (nat * nat) :=
  flat_map
    (fun i => List.map (fun j => (i * stride, j * stride))
                       (seq 0 (count_offsets cols size stride)))
    (seq 0 (count_offsets rows size stride)).

(* ================================================================== *)
(** ** Paths and file names *)

Definition startswith_slash (s : string) : bool :=
  match s with
  | String c _ => Ascii.eqb c "/"
  | EmptyString => false
  end.

Fixpoint endswith_slash (s : string) : bool :=
  match s with
  | EmptyString => false
  | String c EmptyString => Ascii.eqb c "/"
  | String _ s' => endswith_slash s'
  end.

(** [os.path.join(a, b)] on POSIX. *)
Definition join (a b : string) : string :=
  if startswith_slash b then b
  else if (String.length a =? 0) || endswith_slash a then (a ++ b)%string
  else (a ++ "/" ++ b)%string.

(** [s.endswith(suffix)] *)
Fixpoint prefixb (p l : list ascii) : bool :=
  match p, l with
  | [], _ => true
  | c :: p', d :: l' => Ascii.eqb c d && prefixb p' l'
  | _ :: _, [] => false
  end.

Definition endswith (s suffix : string) : bool :=
  prefixb (rev (list_ascii_of_string suffix)) (rev (list_ascii_of_string s)).

(** ['{}.png'.format(n)] *)
Definition format_png (n : nat) : string :=
  (NilEmpty.string_of_uint (Nat.to_uint n) ++ ".png")%string.

Definition data_path : string := "/opt/data/".
Definition raw_data_path : string :=
  join data_path "raw_data/ISPRS_semantic_labeling_Vaihingen".
Definition raw_input_path : string := join raw_data_path "top".
Definition raw_output_path : string := join raw_data_path "gts_for_participants".
Definition proc_data_path : string := join data_path "processed_data/vaihingen".
Definition results_path : string := join data_path "results".
Definition model_path : string := join results_path "models".
Definition eval_path : string := join results_path "eval".

(** [join(a, b, c, ...)] *)
Definition join_all (a : string) (rest : list string) : string :=
  fold_left join rest a.

Definition is_slash (c : ascii) : bool := Ascii.eqb c "/".

Fixpoint drop_while {A} (f : A -> bool) (l : list A) : list A :=
  match l with
  | [] => []
  | x :: l' => if f x then drop_while f l' else l
  end.

Fixpoint take_while {A} (f : A -> bool) (l : list A) : list A :=
  match l with
  | [] => []
  | x :: l' => if f x then x :: take_while f l' else []
  end.

(** [os.path.dirname(p)] on POSIX: what stands before the last slash,
    without its trailing slashes unless it consists of slashes only. *)
Definition dirname (p : string) : string :=
  let head :=
    drop_while (fun c => negb (is_slash c)) (rev (list_ascii_of_string p)) in
  if forallb is_slash head then string_of_list_ascii (rev head)
  else string_of_list_ascii (rev (drop_while is_slash head)).

(** [os.path.basename(p)]: what stands after the last slash. *)
Definition basename (p : string) : string :=
  string_of_list_ascii
    (rev (take_while (fun c => negb (is_slash c))
                     (rev (list_ascii_of_string p)))).

(* ================================================================== *)
(** ** The file system and the monad of the partitioner

    The partitioner reads a listing and images from disk, creates
    directories and writes tiles.  An exception leaves the writes made
    before it in place, so a computation returns its result together
    with the world it reached. *)

Record World : Type := mkWorld {
  (** what the operating system answers to a request to create a
      directory that does not exist yet: [None] when it grants it *)
  mkdir_refusal : string -> option exn;
  (** the directories that exist: those in which the program can write
      a file *)
  dirs : list string;
  (** [listdir]: the names in a directory, in the order the operating
      system lists them *)
  listing : string -> option (list string);
  (** the image files, the latest write first *)
  files : list (string * Image RGB)
}.

Definition M (A : Type) : Type := World -> result A * World.

Definition ret {A} (a : A) : M A := fun w => (Ok a, w).

Definition raise {A} (e : exn) : M A := fun w => (Raise e, w).

Definition bind {A B} (c : M A) (k : A -> M B) : M B :=
  fun w =>
    match c w with
    | (Ok a, w') => k a w'
    | (Raise e, w') => (Raise e, w')
    end.

Notation "x <- c ;; k" := (bind c (fun x => k))
  (at level 61, c at next level, right associativity).
Notation "c ;; k" := (bind c (fun _ => k))
  (at level 61, right associativity).

(** A pure computation that may raise. *)
Definition lift {A} (r : result A) : M A := fun w => (r, w).

(** [try: c  except: pass] with a bare [except]. *)
Definition try_except_pass (c : M unit) : M unit :=
  fun w =>
    match c w with
    | (Ok _, w') => (Ok tt, w')
    | (Raise _, w') => (Ok tt, w')
    end.

(** A [for] loop whose body updates the local variables [s]. *)
Fixpoint for_each {A S} (l : list A) (body : S -> A -> M S) (s : S) : M S :=
  match l with
  | [] => ret s
  | x :: l' => s' <- body s x ;; for_each l' body s'
  end.

Definition existsb_string (p : string) (l : list string) : bool :=
  existsb (String.eqb p) l.

(** [os.makedirs(path)]: refuses a directory that exists. *)
Definition makedirs (path : string) : M unit :=
  fun w =>
    if existsb_string path (dirs w) then (Raise FileExistsError, w)
    else match mkdir_refusal w path with
         | Some e => (Raise e, w)
         | None => (Ok tt, mkWorld (mkdir_refusal w) (path :: dirs w)
                                   (listing w) (files w))
         end.

Definition listdir (path : string) : M (list string) :=
  fun w =>
    match listing w path with
    | Some names => (Ok names, w)
    | None => (Raise FileNotFoundError, w)
    end.

Fixpoint lookup_file (path : string) (fs : list (string * Image RGB))
  : option (Image RGB) :=
  match fs with
  | [] => None
  | (p, im) :: fs' => if String.eqb path p then Some im else lookup_file path fs'
  end.

Definition load_image (file_path : string) : M (Image RGB) :=
  fun w =>
    match lookup_file file_path (files w) with
    | Some im => (Ok im, w)
    | None => (Raise FileNotFoundError, w)
    end.

(** A name enters the listing of its directory once; where it enters
    is the operating system's choice, here the end. *)
Definition add_name (name : string) (names : list string) : list string :=
  if existsb_string name names then names else names ++ [name].

(** The file system after [im] was written to [file_path]: the file
    holds [im], and the directory lists it, where it has a listing. *)
Definition write_file (file_path : string) (im : Image RGB) (w : World)
  : World :=
  mkWorld (mkdir_refusal w) (dirs w)
          (fun path =>
             if String.eqb path (dirname file_path)
             then option_map (add_name (basename file_path)) (listing w path)
             else listing w path)
          ((file_path, im) :: files w).

(** The current directory, which a relative file name is created in,
    and the root are always there. *)
Definition always_there (path : string) : bool :=
  forallb is_slash (list_ascii_of_string path).

(** The tiles written are 8-bit RGB arrays of [tile_size] rows and
    columns, which [np.squeeze] and [astype(np.uint8)] leave as they
    are.  The file is created in its directory, which has to exist:
    otherwise the write raises [FileNotFoundError]. *)
Definition save_image (file_path : string) (im : Image RGB) : M unit :=
  fun w =>
    if always_there (dirname file_path)
       || existsb_string (dirname file_path) (dirs w)
    then (Ok tt, write_file file_path im w)
    else (Raise FileNotFoundError, w).

Definition _makedirs (path : string) : M unit :=
  try_except_pass (makedirs path).

(** The two calls the module makes when it is loaded. *)
Definition module_init : M unit :=
  _makedirs model_path ;;
  _makedirs eval_path.

(* ================================================================== *)
(** ** Dataset partitioner *)

(** [int(x)] of a number: truncation towards zero. *)
Definition py_int (x : Q) : Z := Z.quot (Qnum x) (Zpos (Qden x)).

(** The bound of a slice, as Python clips it to the length [n]. *)
Definition clip_index (n : nat) (k : Z) : nat :=
  if (k <? 0)%Z then Z.to_nat (Z.max 0 (Z.of_nat n + k))
  else Nat.min (Z.to_nat k) n.

(** [l[0:k]] and [l[k:]] *)
Definition slice_to {A} (k : Z) (l : list A) : list A :=
  firstn (clip_index (List.length l) k) l.

Definition slice_from {A} (k : Z) (l : list A) : list A :=
  skipn (clip_index (List.length l) k) l.

(** The split of [process_data], over the ratio it reads from the
    module constant [train_ratio].  The ratio is a rational and the
    product is the exact one: this is the product of the code for the
    configured 0.75, a binary fraction whose product with a file count
    is exact in floating point, but not for every ratio; the product
    as the code rounds it is [nb_train_files_binary64] below. *)
Definition split_file_names (ratio : Q) (file_names : list string)
  : list string * list string :=
  let nb_files := List.length file_names in
  let nb_train_files := py_int (Qmult (inject_Z (Z.of_nat nb_files)) ratio) in
  let train_file_names := slice_to nb_train_files file_names in
  let validation_file_names := slice_from nb_train_files file_names in
  (train_file_names, validation_file_names).

(** *** Line 123 in floating point

    [nb_files * train_ratio] converts the count to binary64 and
    multiplies there, rounding to the nearest value, ties to even;
    [int] truncates the product towards zero.  The definitions below
    take the ratio as any binary64 value. *)

(** [float(z)] of an int; an int beyond the range raises. *)
Definition float_of_int (z : Z) : result spec_float :=
  match binary_normalize 53 1024 z 0 false with
  | S754_infinity _ => Raise OverflowError
  | x => Ok x
  end.

(** [int(x)] of a float. *)
Definition int_of_float (x : spec_float) : result Z :=
  match x with
  | S754_nan => Raise ValueError
  | S754_infinity _ => Raise OverflowError
  | S754_zero _ => Ok 0%Z
  | S754_finite s m e => Ok (cond_Zopp s (Z.shiftl (Zpos m) e))
  end.

(** [int(nb_files * train_ratio)] *)
Definition nb_train_files_binary64 (ratio : spec_float) (nb_files : nat)
  : result Z :=
  match float_of_int (Z.of_nat nb_files) with
  | Ok x => int_of_float (SFmul 53 1024 x ratio)
  | Raise e => Raise e
  end.

Definition split_file_names_binary64 (ratio : spec_float)
  (file_names : list string) : result (list string * list string) :=
  match nb_train_files_binary64 ratio (List.length file_names) with
  | Ok nb_train_files =>
      Ok (slice_to nb_train_files file_names,
          slice_from nb_train_files file_names)
  | Raise e => Raise e
  end.

(** The binary64 value of the literal [0.75]. *)
Definition train_ratio_binary64 : spec_float :=
  S754_finite false 6755399441055744 (-53).

(** The number a float stands for. *)
Definition Q_of_float (x : spec_float) : Q :=
  match x with
  | S754_finite s m e =>
      Qmult (inject_Z (cond_Zopp s (Zpos m))) (Qpower (2 # 1) e)
  | _ => 0%Q
  end.

Definition proc_input_path (partition_name : string) : string :=
  join_all proc_data_path [partition_name; INPUT; BOGUS_CLASS].

Definition proc_output_path (partition_name : string) : string :=
  join_all proc_data_path [partition_name; OUTPUT; BOGUS_CLASS].

(** The body of the inner loop: one tile pair. *)
Definition save_pair (partition_name : string) (proc_file_index : nat)
  (pair : Image RGB * Image RGB) : M nat :=
  let (input_tile, output_tile) := pair in
  let proc_file_name := format_png proc_file_index in
  save_image (join (proc_input_path partition_name) proc_file_name) input_tile ;;
  save_image (join (proc_output_path partition_name) proc_file_name) output_tile ;;
  ret (proc_file_index + 1).

(** The body of the outer loop: one file pair. *)
Definition process_file (partition_name : string) (proc_file_index : nat)
  (file_name : string) : M nat :=
  output_im <- load_image (join raw_output_path file_name) ;;
  input_im <- load_image (join raw_input_path file_name) ;;
  input_tiles <- lift (tile_image input_im tile_size tile_stride) ;;
  output_tiles <- lift (tile_image output_im tile_size tile_stride) ;;
  for_each (combine input_tiles output_tiles) (save_pair partition_name)
           proc_file_index.

Definition _process_data (file_names : list string) (partition_name : string)
  : M unit :=
  _makedirs (proc_input_path partition_name) ;;
  _makedirs (proc_output_path partition_name) ;;
  _ <- for_each file_names (process_file partition_name) 0 ;;
  ret tt.

Definition process_data : M unit :=
  names <- listdir raw_output_path ;;
  let file_names := filter (fun file_name => endswith file_name ".tif") names in
  let (train_file_names, validation_file_names) :=
    split_file_names train_ratio file_names in
  _process_data train_file_names TRAIN ;;
  _process_data validation_file_names VALIDATION.

(* ================================================================== *)
(** ** Batch pipeline adapter *)

(** What [make_data_generator] asks of the image library: the options
    of the [ImageDataGenerator], the samples it is fitted on, and the
    arguments of [flow_from_directory]. *)
Record Generator : Type := mkGenerator {
  horizontal_flip : bool;
  vertical_flip : bool;
  featurewise_center : bool;
  featurewise_std_normalization : bool;
  fit_samples : option (Batch.t RGB);
  directory : string;
  target_size : nat * nat;
  batch_size : nat;
  shuffle : bool;
  flow_seed : nat
}.

Section Adapter.

(** The image library: the [n]-th batch a generator yields. *)
Variable next_batch : Generator -> nat -> Batch.t RGB.

(** [make_data_generator] with [scale=False], the only way
    [get_samples_for_fit] calls it. *)
Definition make_data_generator_unscaled (path : string) (batch_size : nat)
  (shuffle augment : bool) : Generator :=
  mkGenerator augment augment false false None
              path (tile_size, tile_size) batch_size shuffle seed.

Definition get_samples_for_fit : Batch.t RGB :=
  let path := join_all proc_data_path [TRAIN; INPUT] in
  next_batch (make_data_generator_unscaled path 32 true false) 0.

Definition make_data_generator (path : string) (batch_size : nat)
  (shuffle augment scale : bool) : Generator :=
  if scale then
    mkGenerator augment augment true true (Some get_samples_for_fit)
                path (tile_size, tile_size) batch_size shuffle seed
  else make_data_generator_unscaled path batch_size shuffle augment.

(** The zip of the two generators, as the sequence of its pairs. *)
Definition make_input_output_generator (base_path : string)
  (batch_size : nat) : nat -> Batch.t RGB * Batch.t (list Z) :=
  let input_path := join base_path INPUT in
  let input_gen := make_data_generator input_path batch_size true true true in
  let output_path := join base_path OUTPUT in
  let _output_gen :=
    make_data_generator input_path batch_size true true false in
  let output_gen := fun n => rgb_to_one_hot_batch (next_batch _output_gen n) in
  fun n => (next_batch input_gen n, output_gen n).

Definition make_input_output_generators (batch_size : nat) :=
  let train_gen :=
    make_input_output_generator (join proc_data_path TRAIN) batch_size in
  let validation_gen :=
    make_input_output_generator (join proc_data_path VALIDATION) batch_size in
  (train_gen, validation_gen).

End Adapter.

(* ================================================================== *)
(** ** The loops of the codec, at one pixel *)

Section CodecPixel.

Variable keys : list RGB.

(** What the loop of [rgb_to_label_batch] leaves at one pixel. *)
Definition rgb_to_label_pixel (p : RGB) : Z :=
  fold_left (fun v (lk : nat * RGB) =>
               if rgb_eqb p (snd lk) then Z.of_nat (fst lk) else v)
            (enumerate keys) 0%Z.

(** What the loop of [label_to_rgb_batch] leaves at one pixel. *)
Definition label_to_rgb_pixel (l : Z) : RGB :=
  fold_left (fun v (lk : nat * RGB) =>
               if (l =? Z.of_nat (fst lk))%Z then snd lk else v)
            (enumerate keys) (0, 0, 0)%Z.

(** What the loop of [label_to_one_hot_batch] leaves at one pixel. *)
Definition label_to_one_hot_pixel (l : Z) : list Z :=
  fold_left (fun v label =>
               if (l =? Z.of_nat label)%Z then set_channel label 1%Z v else v)
            (seq 0 (List.length keys)) (repeat 0%Z (List.length keys)).

End CodecPixel.

(* ================================================================== *)
(** ** The specification's wording of the codec, per pixel *)

(** Section 4.1: scan the table in order and take the index of the first
    key that equals the pixel. *)
Fixpoint first_match_from (i : nat) (keys : list RGB) (p : RGB) : option nat :=
  match keys with
  | [] => None
  | key :: keys' =>
      if rgb_eqb p key then Some i else first_match_from (S i) keys' p
  end.

(** ... and index 0 for a pixel that matches no key. *)
Definition first_key_index (keys : list RGB) (p : RGB) : Z :=
  match first_match_from 0 keys p with
  | Some i => Z.of_nat i
  | None => 0%Z
  end.

(** Section 4.1: a vector of length [nb] with a 1 at the index and 0
    elsewhere. *)
Definition one_hot (nb : nat) (l : Z) : list Z :=
  List.map (fun i => if (l =? Z.of_nat i)%Z then 1%Z else 0%Z) (seq 0 nb).

(** The label indices the table covers. *)
Definition valid_label (l : Z) : Prop := (0 <= l < Z.of_nat nb_labels)%Z.

(** Section 4.1: [i] is the channel of the maximum of [v], the lowest
    such channel when several hold the maximum. *)
Definition is_first_max (v : list Z) (i : nat) : Prop :=
  exists m,
    nth_error v i = Some m
    /\ (forall j y, nth_error v j = Some y -> (y <= m)%Z)
    /\ (forall j y, j < i -> nth_error v j = Some y -> (y < m)%Z).

(* ================================================================== *)
(** ** What a run of the partitioner writes *)

(** The file system after the files [ws] were written one after the
    other. *)
Definition write_all (ws : list (string * Image RGB)) (w : World) : World :=
  fold_left (fun w' pw => write_file (fst pw) (snd pw) w') ws w.

(** The directory exists, or the operating system grants its
    creation. *)
Definition can_make (w : World) (path : string) : Prop :=
  existsb_string path (dirs w) = true \/ mkdir_refusal w path = None.

(** The tiles [tile_image] returns for the configured size and stride. *)
Definition tiles_of {A} (im : Image A) : list (Image A) :=
  List.map (fun rc => crop im (fst rc) (snd rc) tile_size)
           (tile_offsets (n_rows im) (n_cols im) tile_size tile_stride).

(** The images of a file pair are on disk. *)
Definition loads (fs : list (string * Image RGB)) (file_name : string) : Prop :=
  exists input_im output_im,
    lookup_file (join raw_output_path file_name) fs = Some output_im
    /\ lookup_file (join raw_input_path file_name) fs = Some input_im.

(** The tile pairs of one file, on the files [fs]: the [zip] of the two
    tile lists. *)
Definition file_pairs (fs : list (string * Image RGB)) (file_name : string)
  : list (Image RGB * Image RGB) :=
  match lookup_file (join raw_output_path file_name) fs,
        lookup_file (join raw_input_path file_name) fs with
  | Some output_im, Some input_im =>
      combine (tiles_of input_im) (tiles_of output_im)
  | _, _ => []
  end.

(** The two files pair number [n] of a partition is written to. *)
Definition pair_writes (partition_name : string) (n : nat)
  (pair : Image RGB * Image RGB) : list (string * Image RGB) :=
  [ (join (proc_input_path partition_name) (format_png n), fst pair);
    (join (proc_output_path partition_name) (format_png n), snd pair) ].

(** The files written for the pairs [ps], numbered from [k], in the
    order they are written. *)
Fixpoint writes_from (partition_name : string) (k : nat)
  (ps : list (Image RGB * Image RGB)) : list (string * Image RGB) :=
  match ps with
  | [] => []
  | p :: ps' =>
      pair_writes partition_name k p ++ writes_from partition_name (S k) ps'
  end.

Definition same_shape {A B} (a : Image A) (b : Image B) : Prop :=
  n_rows a = n_rows b /\ n_cols a = n_cols b.

(* ================================================================== *)
(** ** Concrete inputs *)

(** An image of one colour. *)
Definition plain (rows cols : nat) (p : RGB) : Image RGB :=
  repeat (repeat p cols) rows.

(** A raw data set of one file whose imagery is 200 x 200 and whose
    label image is 200 x 300, with the tile directories of the train
    partition in place. *)
Definition mismatched_world : World :=
  mkWorld (fun _ => None) [proc_input_path TRAIN; proc_output_path TRAIN]
    (fun _ => None)
    [ (join raw_output_path "a.tif", plain 200 300 (255, 0, 0)%Z);
      (join raw_input_path "a.tif", plain 200 200 (10, 20, 30)%Z) ].

(** A raw data set of one file whose two images are 200 x 200. *)
Definition matched_world : World :=
  mkWorld (fun _ => None) [] (fun _ => None)
    [ (join raw_output_path "a.tif", plain 200 200 (255, 0, 0)%Z);
      (join raw_input_path "a.tif", plain 200 200 (10, 20, 30)%Z) ].

(** The same data set with the tile directories of the train partition
    in place. *)
Definition prepared_world : World :=
  mkWorld (fun _ => None) [proc_input_path TRAIN; proc_output_path TRAIN]
    (fun _ => None) (files matched_world).

(** An image whose pixels hold their own position. *)
Definition coded (rows cols : nat) : Image RGB :=
  List.map (fun a => List.map (fun b => (Z.of_nat a, Z.of_nat b, 0%Z))
                              (seq 0 cols))
           (seq 0 rows).

(** A raw data set of one file whose imagery is 200 x 300 and whose
    label image is 300 x 200. *)
Definition skewed_world : World :=
  mkWorld (fun _ => None) [] (fun _ => None)
    [ (join raw_output_path "a.tif", coded 300 200);
      (join raw_input_path "a.tif", coded 200 300) ].


(** A file system on which no directory can be created. *)
Definition read_only_world : World :=
  mkWorld (fun _ => Some PermissionError) [] (fun _ => None) [].

(** The binary64 values of the literals [0.7] and [0.58]. *)
Definition ratio_0_7 : spec_float := S754_finite false 6305039478318694 (-53).
Definition ratio_0_58 : spec_float := S754_finite false 5224175567749775 (-53).

(** An image library that yields one red pixel (the key of Clutter)
    from a directory named [output] and one pixel that is no key from
    any other directory. *)
Definition demo_next_batch (g : Generator) (n : nat) : Batch.t RGB :=
  if endswith (directory g) OUTPUT then [[[(255, 0, 0)%Z]]]
  else [[[(10, 20, 30)%Z]]].

(** A raw data set whose label directory lists one image pair and a
    file that is no image. *)
Definition listed_world : World :=
  mkWorld (fun _ => None) []
          (fun path => if String.eqb path raw_output_path
                       then Some ["a.tif"; "notes.txt"]%string else None)
          (files matched_world).

(* ================================================================== *)
(** ** Further notions for the codec and the tiler *)

(** The pixel is one of the keys of the table. *)
Definition is_key (keys : list RGB) (p : RGB) : bool := existsb (rgb_eqb p) keys.

(** A label index as the decoders read it: itself when the table covers
    it, class 0 otherwise. *)
Definition clamp_label (l : Z) : Z :=
  if ((0 <=? l) && (l <? Z.of_nat nb_labels))%Z then l else 0%Z.

(** A vector of [nb] channels that holds a 1 at channel [i] and 0
    elsewhere. *)
Definition one_hot_at (nb i : nat) (v : list Z) : Prop :=
  i < nb
  /\ forall j, nth_error v j
               = if j <? nb then Some (if j =? i then 1%Z else 0%Z) else None.

(** The window of a tile at offset [rc] holds the pixel [(a, b)]. *)
Definition in_window (size : nat) (rc : nat * nat) (a b : nat) : Prop :=
  fst rc <= a < fst rc + size /\ snd rc <= b < snd rc + size.

(* ================================================================== *)
(** * Proofs *)

(** ** Arrays *)

Module BatchFacts.
Import Batch.

Lemma zip_with1_map {A B C D} (f : B -> C -> D) (g : A -> B) (h : A -> C) l :
  zip_with1 f (List.map g l) (List.map h l) = List.map (fun x => f (g x) (h x)) l.
Proof.
  induction l as [|x l IH]; simpl; [reflexivity | now rewrite IH].
Qed.

Lemma map_map3 {A B C} (f : A -> B) (g : B -> C) (b : t A) :
  map g (map f b) = map (fun x => g (f x)) b.
Proof.
  unfold map. rewrite List.map_map.
  apply List.map_ext; intro plane. rewrite List.map_map.
  apply List.map_ext; intro row. apply List.map_map.
Qed.

Lemma map_ext3 {A B} (f g : A -> B) (b : t A) :
  (forall x, f x = g x) -> map f b = map g b.
Proof.
  intro H. unfold map.
  apply List.map_ext; intro plane.
  apply List.map_ext; intro row.
  now apply List.map_ext.
Qed.

Lemma zip_with_map {A B C D} (f : B -> C -> D) (g : A -> B) (h : A -> C) b :
  zip_with f (map g b) (map h b) = map (fun x => f (g x) (h x)) b.
Proof.
  unfold zip_with, map.
  rewrite zip_with1_map. apply List.map_ext; intro plane.
  rewrite zip_with1_map. apply List.map_ext; intro row.
  apply zip_with1_map.
Qed.

Lemma assign_where_map {A B} (m : A -> bool) (upd : B -> B) (g : A -> B) b :
  assign_where (map m b) upd (map g b)
  = map (fun x => if m x then upd (g x) else g x) b.
Proof. unfold assign_where. apply zip_with_map. Qed.

(** A loop of masked assignments is a loop per element. *)
Lemma fold_assign_where {A B X} (m : X -> A -> bool) (upd : X -> B -> B)
  (steps : list X) (g : A -> B) (b : t A) :
  fold_left (fun acc x => assign_where (map (m x) b) (upd x) acc)
            steps (map g b)
  = map (fun a => fold_left (fun v x => if m x a then upd x v else v)
                            steps (g a)) b.
Proof.
  revert g. induction steps as [|x steps IH]; intro g; simpl.
  - reflexivity.
  - rewrite assign_where_map. apply (IH (fun a => if m x a then upd x (g a) else g a)).
Qed.

Lemma map_id_on {A} (P : A -> Prop) (f : A -> A) (b : t A) :
  (forall x, P x -> f x = x) -> all P b -> map f b = b.
Proof.
  intros Hf Hall. unfold map, all in *.
  induction Hall as [|plane b' Hp _ IH]; simpl; [reflexivity|].
  f_equal; [|exact IH].
  induction Hp as [|row plane' Hr _ IHp]; simpl; [reflexivity|].
  f_equal; [|exact IHp].
  induction Hr as [|x row' Hx _ IHr]; simpl; [reflexivity|].
  f_equal; [now apply Hf | exact IHr].
Qed.

Lemma traverse1_map_some {A B} (P : A -> Prop) (f : B -> option A)
  (g : A -> B) (l : list A) :
  (forall x, P x -> f (g x) = Some x) -> Forall P l ->
  traverse1 f (List.map g l) = Some l.
Proof.
  intros Hf Hl. unfold traverse1.
  induction Hl as [|x l' Hx _ IH]; simpl; [reflexivity|].
  rewrite (Hf x Hx), IH. reflexivity.
Qed.

Lemma traverse_map_some {A B} (P : A -> Prop) (f : B -> option A)
  (g : A -> B) (b : t A) :
  (forall x, P x -> f (g x) = Some x) -> all P b ->
  traverse f (map g b) = Some b.
Proof.
  intros Hf Hall. unfold traverse, map, all in *.
  apply traverse1_map_some with (P := Forall (Forall P)); [|exact Hall].
  intros plane Hplane.
  apply traverse1_map_some with (P := Forall P); [|exact Hplane].
  intros row Hrow.
  now apply traverse1_map_some with (P := P).
Qed.

End BatchFacts.

Lemma fold_left_ext {A B} (f g : A -> B -> A) (l : list B) (a : A) :
  (forall x y, f x y = g x y) -> fold_left f l a = fold_left g l a.
Proof.
  intro H. revert a. induction l as [|y l IH]; intro a; simpl.
  - reflexivity.
  - rewrite H. apply IH.
Qed.

(** ** Label codec, per pixel *)

Lemma rgb_eqb_eq (p key : RGB) : rgb_eqb p key = true <-> p = key.
Proof.
  destruct p as [[r g] b], key as [[r' g'] b'].
  unfold rgb_eqb, chan0, chan1, chan2; simpl.
  rewrite !andb_true_iff, !Z.eqb_eq.
  split; [intros [[-> ->] ->]; reflexivity | intro H; inversion H; auto].
Qed.

Lemma rgb_eqb_refl (p : RGB) : rgb_eqb p p = true.
Proof. now apply rgb_eqb_eq. Qed.

Lemma rgb_eqb_neq (p key : RGB) : rgb_eqb p key = false <-> p <> key.
Proof.
  rewrite <- rgb_eqb_eq. destruct (rgb_eqb p key); split; congruence.
Qed.

Section CodecFacts.

Variable keys : list RGB.

Lemma rgb_to_label_batch_pointwise (rgb_batch : Batch.t RGB) :
  rgb_to_label_batch_with keys rgb_batch
  = Batch.map (rgb_to_label_pixel keys) rgb_batch.
Proof.
  unfold rgb_to_label_batch_with, Batch.full, rgb_to_label_pixel.
  rewrite <- (BatchFacts.fold_assign_where
                (fun (lk : nat * RGB) p => rgb_eqb p (snd lk))
                (fun (lk : nat * RGB) (_ : Z) => Z.of_nat (fst lk))).
  apply fold_left_ext. intros acc [label key]. reflexivity.
Qed.

Lemma label_to_rgb_batch_pointwise (label_batch : Batch.t Z) :
  label_to_rgb_batch_with keys label_batch
  = Batch.map (label_to_rgb_pixel keys) label_batch.
Proof.
  unfold label_to_rgb_batch_with, Batch.full, label_to_rgb_pixel.
  rewrite <- (BatchFacts.fold_assign_where
                (fun (lk : nat * RGB) l => (l =? Z.of_nat (fst lk))%Z)
                (fun (lk : nat * RGB) (_ : RGB) => snd lk)).
  apply fold_left_ext. intros acc [label key]. reflexivity.
Qed.

Lemma label_to_one_hot_batch_pointwise (label_batch : Batch.t Z) :
  label_to_one_hot_batch_with keys label_batch
  = Batch.map (label_to_one_hot_pixel keys) label_batch.
Proof.
  unfold label_to_one_hot_batch_with, Batch.full, label_to_one_hot_pixel.
  rewrite <- (BatchFacts.fold_assign_where
                (fun label l => (l =? Z.of_nat label)%Z)
                (fun label v => set_channel label 1%Z v)).
  reflexivity.
Qed.

End CodecFacts.

(** *** The scan for a key *)

Lemma first_match_from_None (keys : list RGB) (p : RGB) (i : nat) :
  ~ In p keys -> first_match_from i keys p = None.
Proof.
  revert i. induction keys as [|k keys IH]; intros i Hnin; simpl.
  - reflexivity.
  - destruct (rgb_eqb p k) eqn:E.
    + apply rgb_eqb_eq in E. subst. exfalso. apply Hnin. now left.
    + apply IH. intro H. apply Hnin. now right.
Qed.

Lemma first_match_from_Some (keys : list RGB) (p : RGB) (s i : nat) :
  first_match_from s keys p = Some i <->
  s <= i /\ nth_error keys (i - s) = Some p
  /\ forall j, j < i - s -> nth_error keys j <> Some p.
Proof.
  revert s. induction keys as [|k keys IH]; intro s; simpl.
  - split; [discriminate|]. intros (_ & H & _).
    destruct (i - s); discriminate.
  - destruct (rgb_eqb p k) eqn:E.
    + apply rgb_eqb_eq in E. subst k. split.
      * intro H. inversion H; subst. rewrite Nat.sub_diag. simpl.
        repeat split; auto. intros j Hj. lia.
      * intros (Hle & Hn & Hfirst).
        destruct (i - s) as [|d] eqn:Ed; [f_equal; lia|].
        exfalso. apply (Hfirst 0); [lia | reflexivity].
    + apply rgb_eqb_neq in E. rewrite IH. split.
      * intros (Hle & Hn & Hfirst).
        replace (i - s) with (S (i - S s)) by lia. simpl.
        repeat split; [lia | exact Hn |].
        intros [|j] Hj; simpl; [congruence | apply Hfirst; lia].
      * intros (Hle & Hn & Hfirst).
        destruct (i - s) as [|d] eqn:Ed; simpl in Hn; [congruence|].
        replace (i - S s) with d by lia.
        repeat split; [lia | exact Hn |].
        intros j Hj. apply (Hfirst (S j)). lia.
Qed.

(** With no key repeated, the last matching key, which the loop leaves,
    is the first one. *)
Lemma last_match_is_first (keys : list RGB) (p : RGB) (s : nat) (init : Z) :
  NoDup keys ->
  fold_left (fun v (lk : nat * RGB) =>
               if rgb_eqb p (snd lk) then Z.of_nat (fst lk) else v)
            (combine (seq s (List.length keys)) keys) init
  = match first_match_from s keys p with
    | Some i => Z.of_nat i
    | None => init
    end.
Proof.
  intro Hnd. revert s init.
  induction Hnd as [|k keys Hnin Hnd IH]; intros s init; simpl.
  - reflexivity.
  - rewrite IH. destruct (rgb_eqb p k) eqn:E.
    + apply rgb_eqb_eq in E. subst k.
      now rewrite first_match_from_None.
    + reflexivity.
Qed.

Lemma rgb_to_label_pixel_first (keys : list RGB) (p : RGB) :
  NoDup keys -> rgb_to_label_pixel keys p = first_key_index keys p.
Proof.
  intro Hnd. unfold rgb_to_label_pixel, first_key_index, enumerate.
  now apply last_match_is_first.
Qed.

Lemma label_keys_NoDup : NoDup label_keys.
Proof.
  unfold label_keys.
  repeat (constructor; [simpl; intuition congruence|]).
  constructor.
Qed.

(** *** The table lookup of [label_to_rgb_batch] *)

Ltac zbool :=
  repeat match goal with
         | |- context [(?a <=? ?b)%Z] => destruct (Z.leb_spec a b)
         | |- context [(?a <? ?b)%Z] => destruct (Z.ltb_spec a b)
         | |- context [(?a =? ?b)%Z] => destruct (Z.eqb_spec a b)
         end;
  cbn [andb].

Lemma lookup_loop (keys : list RGB) (l : Z) (s : nat) (init : RGB) :
  fold_left (fun v (lk : nat * RGB) =>
               if (l =? Z.of_nat (fst lk))%Z then snd lk else v)
            (combine (seq s (List.length keys)) keys) init
  = if ((Z.of_nat s <=? l) && (l <? Z.of_nat (s + List.length keys)))%Z
    then nth (Z.to_nat l - s) keys init
    else init.
Proof.
  revert s init. induction keys as [|k keys IH]; intros s init;
    cbn [List.length seq combine fold_left fst snd].
  - destruct (_ && _); [destruct (Z.to_nat l - s)|]; reflexivity.
  - rewrite IH. zbool; try lia; try reflexivity.
    + replace (Z.to_nat l - s) with (S (Z.to_nat l - S s)) by lia.
      reflexivity.
    + replace (Z.to_nat l - s) with 0 by lia. reflexivity.
Qed.

Lemma label_to_rgb_pixel_nth (keys : list RGB) (l : Z) :
  (0 <= l < Z.of_nat (List.length keys))%Z ->
  nth_error keys (Z.to_nat l) = Some (label_to_rgb_pixel keys l).
Proof.
  intros [H0 H1]. unfold label_to_rgb_pixel, enumerate.
  rewrite lookup_loop. simpl.
  destruct (Z.leb_spec 0 l); [|lia].
  destruct (Z.ltb_spec l (Z.of_nat (List.length keys))); [|lia].
  simpl. rewrite Nat.sub_0_r. apply nth_error_nth'. lia.
Qed.

Lemma first_match_nth (keys : list RGB) (i : nat) (p : RGB) :
  NoDup keys -> nth_error keys i = Some p ->
  first_match_from 0 keys p = Some i.
Proof.
  intros Hnd Hi. apply first_match_from_Some. rewrite Nat.sub_0_r.
  repeat split; [lia | exact Hi |].
  intros j Hj Hjp.
  assert (j = i); [|lia].
  apply (proj1 (NoDup_nth_error keys) Hnd); [|congruence].
  apply nth_error_Some. congruence.
Qed.

Lemma rgb_label_pixel_round_trip (keys : list RGB) (l : Z) :
  NoDup keys -> (0 <= l < Z.of_nat (List.length keys))%Z ->
  rgb_to_label_pixel keys (label_to_rgb_pixel keys l) = l.
Proof.
  intros Hnd Hl. rewrite rgb_to_label_pixel_first by exact Hnd.
  unfold first_key_index.
  pose proof (@label_to_rgb_pixel_nth keys l Hl) as Hn.
  rewrite (@first_match_nth keys _ _ Hnd Hn).
  lia.
Qed.

(** *** The one-hot loop *)

Lemma set_channel_map_seq (f : nat -> Z) (k : nat) (x : Z) (s n : nat) :
  set_channel k x (List.map f (seq s n))
  = List.map (fun i => if i =? s + k then x else f i) (seq s n).
Proof.
  revert s k. induction n as [|n IH]; intros s k; destruct k as [|k]; simpl;
    try reflexivity.
  - rewrite Nat.add_0_r, Nat.eqb_refl. f_equal.
    apply map_ext_in. intros i Hi. apply in_seq in Hi.
    destruct (Nat.eqb_spec i s); [lia | reflexivity].
  - destruct (Nat.eqb_spec s (s + S k)); [lia|]. f_equal.
    rewrite IH. apply List.map_ext. intro i.
    replace (S s + k) with (s + S k) by lia. reflexivity.
Qed.

Lemma one_hot_loop (l : Z) (n k : nat) :
  k <= n ->
  fold_left (fun v label =>
               if (l =? Z.of_nat label)%Z then set_channel label 1%Z v else v)
            (seq 0 k) (repeat 0%Z n)
  = List.map (fun i => if (i <? k) && (l =? Z.of_nat i)%Z then 1%Z else 0%Z)
             (seq 0 n).
Proof.
  induction k as [|k IH]; intro Hk.
  - simpl. rewrite <- (length_seq n 0) at 1. now rewrite <- map_const.
  - rewrite seq_S, fold_left_app, IH by lia. simpl.
    destruct (Z.eqb_spec l (Z.of_nat k)) as [E|E].
    + rewrite set_channel_map_seq. apply List.map_ext. intro i. simpl.
      destruct (Nat.eqb_spec i k) as [->|Hik].
      * destruct (Nat.ltb_spec k (S k)); [|lia]. simpl.
        destruct (Z.eqb_spec l (Z.of_nat k)); [reflexivity | contradiction].
      * destruct (Nat.ltb_spec i k), (Nat.ltb_spec i (S k)); try lia;
          reflexivity.
    + apply List.map_ext. intro i.
      destruct (Nat.ltb_spec i k), (Nat.ltb_spec i (S k)); try lia;
        try reflexivity.
      simpl. destruct (Z.eqb_spec l (Z.of_nat i)); [|reflexivity].
      assert (i = k) by lia. subst i. contradiction.
Qed.

Lemma label_to_one_hot_pixel_one_hot (keys : list RGB) (l : Z) :
  label_to_one_hot_pixel keys l = one_hot (List.length keys) l.
Proof.
  unfold label_to_one_hot_pixel, one_hot.
  rewrite one_hot_loop by lia.
  apply map_ext_in. intros i Hi. apply in_seq in Hi.
  destruct (Nat.ltb_spec i (List.length keys)); [reflexivity | lia].
Qed.

Lemma nth_error_one_hot (nb : nat) (l : Z) (j : nat) :
  nth_error (one_hot nb l) j
  = if j <? nb then Some (if (l =? Z.of_nat j)%Z then 1%Z else 0%Z) else None.
Proof.
  unfold one_hot. rewrite nth_error_map, nth_error_seq.
  destruct (j <? nb); reflexivity.
Qed.

Lemma one_hot_out_of_range (nb : nat) (l : Z) :
  ~ (0 <= l < Z.of_nat nb)%Z -> one_hot nb l = repeat 0%Z nb.
Proof.
  intro H. unfold one_hot.
  rewrite <- (length_seq nb 0) at 2. rewrite <- map_const.
  apply map_ext_in. intros i Hi. apply in_seq in Hi.
  destruct (Z.eqb_spec l (Z.of_nat i)); [lia | reflexivity].
Qed.

(** *** [argmax] *)

Lemma argmax_from_spec (v pre : list Z) (bi : nat) (b : Z) :
  nth_error pre bi = Some b ->
  (forall j y, nth_error pre j = Some y -> (y <= b)%Z) ->
  (forall j y, j < bi -> nth_error pre j = Some y -> (y < b)%Z) ->
  is_first_max (pre ++ v) (argmax_from bi b (List.length pre) v).
Proof.
  revert pre bi b. induction v as [|x v IH]; intros pre bi b Hb Hle Hlt.
  - simpl. rewrite app_nil_r. exists b. auto.
  - simpl.
    assert (Hlen : List.length (pre ++ [x]) = S (List.length pre))
      by (rewrite length_app; simpl; lia).
    replace (pre ++ x :: v) with ((pre ++ [x]) ++ v)
      by (rewrite <- app_assoc; reflexivity).
    rewrite <- Hlen.
    assert (Hsplit : forall j y, nth_error (pre ++ [x]) j = Some y ->
                                 nth_error pre j = Some y
                                 \/ (j = List.length pre /\ y = x)).
    { intros j y Hj. destruct (Nat.lt_ge_cases j (List.length pre)) as [Hlt'|Hge].
      - left. now rewrite nth_error_app1 in Hj.
      - right. rewrite nth_error_app2 in Hj by exact Hge.
        destruct (j - List.length pre) as [|d] eqn:Ed; simpl in Hj.
        + split; [lia | congruence].
        + destruct d; discriminate. }
    destruct (Z.ltb_spec b x) as [Hbx|Hbx]; apply IH.
    + rewrite nth_error_app2 by lia. now rewrite Nat.sub_diag.
    + intros j y Hj. destruct (Hsplit j y Hj) as [Hp|[_ ->]]; [|lia].
      specialize (Hle j y Hp). lia.
    + intros j y Hjlt Hj. destruct (Hsplit j y Hj) as [Hp|[-> _]]; [|lia].
      specialize (Hle j y Hp). lia.
    + rewrite nth_error_app1; [exact Hb|].
      apply nth_error_Some. congruence.
    + intros j y Hj. destruct (Hsplit j y Hj) as [Hp|[_ ->]]; [|lia].
      exact (Hle j y Hp).
    + intros j y Hjlt Hj. destruct (Hsplit j y Hj) as [Hp|[-> _]].
      * exact (Hlt j y Hjlt Hp).
      * exfalso. apply (Nat.lt_irrefl bi).
        assert (bi < List.length pre) by (apply nth_error_Some; congruence).
        lia.
Qed.

Lemma argmax_spec (v : list Z) (i : nat) :
  argmax v = Some i -> is_first_max v i.
Proof.
  destruct v as [|x v]; simpl; [discriminate|].
  intro H. inversion H; subst. clear H.
  apply (@argmax_from_spec v [x] 0 x).
  - reflexivity.
  - intros [|[|j]] y Hj; simpl in Hj; try discriminate.
    inversion Hj. lia.
  - intros j y Hj. lia.
Qed.

Lemma is_first_max_unique (v : list Z) (i j : nat) :
  is_first_max v i -> is_first_max v j -> i = j.
Proof.
  intros (m & Hm & Hle & Hlt) (m' & Hm' & Hle' & Hlt').
  destruct (Nat.lt_trichotomy i j) as [H|[H|H]]; [|exact H|].
  - specialize (Hlt' i m H Hm). specialize (Hle j m' Hm'). lia.
  - specialize (Hlt j m' H Hm'). specialize (Hle' i m Hm). lia.
Qed.

Lemma one_hot_first_max (nb : nat) (l : Z) :
  (0 <= l < Z.of_nat nb)%Z -> is_first_max (one_hot nb l) (Z.to_nat l).
Proof.
  intro Hl. exists 1%Z. repeat split.
  - rewrite nth_error_one_hot.
    destruct (Nat.ltb_spec (Z.to_nat l) nb); [|lia].
    destruct (Z.eqb_spec l (Z.of_nat (Z.to_nat l))); [reflexivity | lia].
  - intros j y. rewrite nth_error_one_hot.
    destruct (j <? nb); [|discriminate].
    destruct (l =? Z.of_nat j)%Z; intro H; inversion H; lia.
  - intros j y Hj. rewrite nth_error_one_hot.
    destruct (j <? nb); [|discriminate].
    destruct (Z.eqb_spec l (Z.of_nat j)); intro H; inversion H; lia.
Qed.

Lemma argmax_one_hot (nb : nat) (l : Z) :
  (0 <= l < Z.of_nat nb)%Z ->
  option_map Z.of_nat (argmax (one_hot nb l)) = Some l.
Proof.
  intro Hl.
  destruct (argmax (one_hot nb l)) as [i|] eqn:E.
  - apply argmax_spec in E.
    rewrite (@is_first_max_unique _ _ _ E (@one_hot_first_max nb l Hl)).
    simpl. f_equal. lia.
  - exfalso. unfold one_hot in E.
    destruct nb as [|nb]; [lia|]. simpl in E. discriminate.
Qed.

(** ** Label codec, on batches *)

(** C1.  [rgb_to_label_batch] gives every pixel the index of the first
    key of [label_keys] that equals the pixel channel by channel, and
    index 0 to a pixel that equals no key. *)
Theorem rgb_to_label_batch_first_key (rgb_batch : Batch.t RGB) :
  rgb_to_label_batch rgb_batch
  = Batch.map (first_key_index label_keys) rgb_batch
  /\ (forall (p : RGB) (i : nat),
        nth_error label_keys i = Some p ->
        (forall j, j < i -> nth_error label_keys j <> Some p) ->
        first_key_index label_keys p = Z.of_nat i)
  /\ (forall p : RGB,
        ~ In p label_keys -> first_key_index label_keys p = 0%Z).
Proof.
  split; [|split].
  - unfold rgb_to_label_batch. rewrite rgb_to_label_batch_pointwise.
    apply BatchFacts.map_ext3. intro p.
    apply rgb_to_label_pixel_first, label_keys_NoDup.
  - intros p i Hi Hfirst. unfold first_key_index.
    assert (H : first_match_from 0 label_keys p = Some i).
    { apply first_match_from_Some. rewrite Nat.sub_0_r.
      repeat split; [lia | exact Hi | exact Hfirst]. }
    now rewrite H.
  - intros p Hnin. unfold first_key_index.
    now rewrite first_match_from_None.
Qed.

(** C3.  Encoding a batch of valid label indices to RGB and decoding it
    gives the batch back. *)
Theorem rgb_label_round_trip (label_batch : Batch.t Z) :
  Batch.all valid_label label_batch ->
  rgb_to_label_batch (label_to_rgb_batch label_batch) = label_batch.
Proof.
  intro Hvalid. unfold rgb_to_label_batch, label_to_rgb_batch.
  rewrite label_to_rgb_batch_pointwise, rgb_to_label_batch_pointwise.
  rewrite BatchFacts.map_map3.
  apply BatchFacts.map_id_on with (P := valid_label); [|exact Hvalid].
  intros l Hl. apply rgb_label_pixel_round_trip; [apply label_keys_NoDup | exact Hl].
Qed.

Lemma rgb_label_round_trip_witness :
  Batch.all valid_label [[[5; 0]; [3; 2]]]%Z
  /\ rgb_to_label_batch (label_to_rgb_batch [[[5; 0]; [3; 2]]]%Z)
     = [[[5; 0]; [3; 2]]]%Z.
Proof.
  assert (H : Batch.all valid_label [[[5; 0]; [3; 2]]]%Z).
  { unfold Batch.all, valid_label, nb_labels. simpl.
    repeat constructor; lia. }
  split; [exact H | exact (@rgb_label_round_trip _ H)].
Defined.

(** C4.  Expanding a batch of valid label indices to one-hot vectors and
    taking the arg-max of each gives the batch back; the arg-max is the
    channel of the maximum, the lowest one on ties. *)
Theorem one_hot_label_round_trip (label_batch : Batch.t Z) :
  Batch.all valid_label label_batch ->
  one_hot_to_label_batch (label_to_one_hot_batch label_batch) = Some label_batch
  /\ (forall (v : list Z) (i : nat), argmax v = Some i -> is_first_max v i)
  /\ (forall v : list Z, v <> [] -> exists i, argmax v = Some i).
Proof.
  intro Hvalid. split; [|split].
  - unfold one_hot_to_label_batch, label_to_one_hot_batch.
    rewrite label_to_one_hot_batch_pointwise.
    apply BatchFacts.traverse_map_some with (P := valid_label); [|exact Hvalid].
    intros l Hl. rewrite label_to_one_hot_pixel_one_hot.
    now apply argmax_one_hot.
  - exact argmax_spec.
  - intros [|x v] Hv; [contradiction|]. simpl. eauto.
Qed.

Lemma one_hot_label_round_trip_witness :
  Batch.all valid_label [[[5; 0]; [3; 2]]]%Z
  /\ one_hot_to_label_batch (label_to_one_hot_batch [[[5; 0]; [3; 2]]]%Z)
     = Some [[[5; 0]; [3; 2]]]%Z.
Proof.
  assert (H : Batch.all valid_label [[[5; 0]; [3; 2]]]%Z).
  { unfold Batch.all, valid_label, nb_labels. simpl.
    repeat constructor; lia. }
  split; [exact H | exact (proj1 (@one_hot_label_round_trip _ H))].
Defined.

(** C7.  [label_to_one_hot_batch] never raises: it gives every pixel a
    vector of [nb_labels] channels, with a single 1 at the pixel's index
    when the index is in range and all zeros when it is not. *)
Theorem label_to_one_hot_batch_spec (label_batch : Batch.t Z) :
  label_to_one_hot_batch label_batch = Batch.map (one_hot nb_labels) label_batch
  /\ (forall l : Z, ~ valid_label l -> one_hot nb_labels l = repeat 0%Z nb_labels)
  /\ (forall l : Z, valid_label l ->
        List.length (one_hot nb_labels l) = nb_labels
        /\ forall i, i < nb_labels ->
             nth_error (one_hot nb_labels l) i
             = Some (if Nat.eqb i (Z.to_nat l) then 1%Z else 0%Z)).
Proof.
  split; [|split].
  - unfold label_to_one_hot_batch. rewrite label_to_one_hot_batch_pointwise.
    apply BatchFacts.map_ext3. intro l.
    apply label_to_one_hot_pixel_one_hot.
  - intros l Hl. now apply one_hot_out_of_range.
  - intros l Hl. split.
    + unfold one_hot. now rewrite length_map, length_seq.
    + intros i Hi. rewrite nth_error_one_hot.
      destruct (Nat.ltb_spec i nb_labels); [|lia].
      unfold valid_label in Hl.
      destruct (Z.eqb_spec l (Z.of_nat i)), (Nat.eqb_spec i (Z.to_nat l));
        try reflexivity; lia.
Qed.

(** ** Tiler *)

Lemma flat_map_map {A B C} (f : B -> list C) (g : A -> B) (l : list A) :
  flat_map f (List.map g l) = flat_map (fun x => f (g x)) l.
Proof.
  induction l as [|x l IH]; simpl; [reflexivity | now rewrite IH].
Qed.

Lemma map_flat_map {A B C} (h : B -> C) (f : A -> list B) (l : list A) :
  List.map h (flat_map f l) = flat_map (fun x => List.map h (f x)) l.
Proof.
  induction l as [|x l IH]; simpl; [reflexivity|].
  now rewrite List.map_app, IH.
Qed.

Lemma flat_map_singleton {A B} (f : A -> B) (l : list A) :
  flat_map (fun x => [f x]) l = List.map f l.
Proof.
  induction l as [|x l IH]; simpl; [reflexivity | now rewrite IH].
Qed.

Lemma flat_map_nil {A B} (f : A -> list B) (l : list A) :
  (forall x, In x l -> f x = []) -> flat_map f l = [].
Proof.
  induction l as [|x l IH]; intro H; simpl; [reflexivity|].
  rewrite (H x) by now left. apply IH. intros y Hy. apply H. now right.
Qed.

Lemma flat_map_ext_on {A B} (f g : A -> list B) (l : list A) :
  (forall x, In x l -> f x = g x) -> flat_map f l = flat_map g l.
Proof.
  induction l as [|x l IH]; intro H; simpl; [reflexivity|].
  rewrite (H x) by now left. f_equal. apply IH.
  intros y Hy. apply H. now right.
Qed.

(** A loop over [0 .. n-1] that keeps the iterations below [m]. *)
Lemma flat_map_guard_prefix {B} (P : nat -> bool) (g : nat -> list B) (n m : nat) :
  m <= n ->
  (forall j, j < n -> (P j = true <-> j < m)) ->
  flat_map (fun j => if P j then g j else []) (seq 0 n) = flat_map g (seq 0 m).
Proof.
  intros Hmn HP.
  replace n with (m + (n - m)) by lia.
  rewrite seq_app, flat_map_app. simpl.
  rewrite (@flat_map_nil _ _ _ (seq m (n - m))).
  - rewrite app_nil_r. apply flat_map_ext_on. intros j Hj. apply in_seq in Hj.
    destruct (P j) eqn:E; [reflexivity|].
    assert (P j = true) by (apply HP; lia). congruence.
  - intros j Hj. apply in_seq in Hj.
    destruct (P j) eqn:E; [|reflexivity].
    apply HP in E; lia.
Qed.

Lemma count_offsets_spec (extent size stride j : nat) :
  1 <= stride ->
  j * stride + size <= extent <-> j < count_offsets extent size stride.
Proof.
  intro Ht. unfold count_offsets.
  destruct (Nat.ltb_spec extent size) as [H|H]; [lia|].
  pose proof (Nat.div_mod (extent - size) stride ltac:(lia)) as Hdm.
  pose proof (Nat.mod_upper_bound (extent - size) stride ltac:(lia)) as Hub.
  split; intro Hj; nia.
Qed.

Lemma count_offsets_le (extent size stride : nat) :
  1 <= size -> 1 <= stride ->
  count_offsets extent size stride <= (extent + stride - 1) / stride.
Proof.
  intros Hs Ht.
  destruct (count_offsets extent size stride) as [|m] eqn:E; [lia|].
  assert (Hm : m * stride + size <= extent)
    by (apply count_offsets_spec; [exact Ht | lia]).
  apply Nat.div_le_lower_bound; [lia | nia].
Qed.

Lemma tile_offsets_spec_offsets (rows cols size stride : nat) :
  1 <= size -> 1 <= stride ->
  tile_offsets rows cols size stride = spec_offsets rows cols size stride.
Proof.
  intros Hs Ht. unfold tile_offsets, spec_offsets.
  rewrite <- (@flat_map_guard_prefix _
                (fun i => i * stride + size <=? rows)
                (fun i => List.map (fun j => (i * stride, j * stride))
                            (seq 0 (count_offsets cols size stride)))
                ((rows + stride - 1) / stride)
                (count_offsets rows size stride)).
  - apply flat_map_ext. intro i.
    destruct (i * stride + size <=? rows); simpl.
    + rewrite <- flat_map_singleton.
      apply (@flat_map_guard_prefix _ (fun j => j * stride + size <=? cols)
               (fun j => [(i * stride, j * stride)])).
      * now apply count_offsets_le.
      * intros j _. rewrite Nat.leb_le. now apply count_offsets_spec.
    + now apply flat_map_nil.
  - now apply count_offsets_le.
  - intros i _. rewrite Nat.leb_le. now apply count_offsets_spec.
Qed.

Lemma range_step_pos (stop stride : nat) :
  1 <= stride ->
  range_step stop stride
  = Ok (List.map (fun i => i * stride) (seq 0 ((stop + stride - 1) / stride))).
Proof.
  intro H. destruct stride as [|k]; [lia | reflexivity].
Qed.

Lemma tile_image_offsets {A} (im : Image A) (size stride : nat) :
  1 <= stride ->
  tile_image im size stride
  = Ok (List.map (fun rc => crop im (fst rc) (snd rc) size)
                 (tile_offsets (n_rows im) (n_cols im) size stride)).
Proof.
  intro Ht. unfold tile_image, tile_offsets.
  rewrite !range_step_pos by exact Ht. f_equal.
  rewrite flat_map_map, map_flat_map.
  apply flat_map_ext. intro i.
  rewrite flat_map_map, map_flat_map.
  apply flat_map_ext. intro j.
  destruct (_ && _); reflexivity.
Qed.

Lemma in_spec_offsets (rows cols size stride r c : nat) :
  1 <= stride ->
  In (r, c) (spec_offsets rows cols size stride) <->
  (exists i j, r = i * stride /\ c = j * stride)
  /\ r + size <= rows /\ c + size <= cols.
Proof.
  intro Ht. unfold spec_offsets. rewrite in_flat_map. split.
  - intros (i & Hi & Hin). apply in_seq in Hi.
    apply in_map_iff in Hin. destruct Hin as (j & Hj & Hjin).
    apply in_seq in Hjin. inversion Hj; subst.
    split; [now exists i, j|].
    split; apply count_offsets_spec; (exact Ht || lia).
  - intros ((i & j & -> & ->) & Hr & Hc).
    exists i. split.
    + apply in_seq. apply count_offsets_spec in Hr; [lia | exact Ht].
    + apply in_map_iff. exists j. split; [reflexivity|].
      apply in_seq. apply count_offsets_spec in Hc; [lia | exact Ht].
Qed.

Lemma StronglySorted_app {A} (R : A -> A -> Prop) (l1 l2 : list A) :
  StronglySorted R l1 -> StronglySorted R l2 ->
  (forall x y, In x l1 -> In y l2 -> R x y) ->
  StronglySorted R (l1 ++ l2).
Proof.
  intros H1 H2 H12. induction H1 as [|x l1 Hs IH Hx]; simpl; [exact H2|].
  constructor.
  - apply IH. intros a b Ha Hb. apply H12; [now right | exact Hb].
  - apply Forall_app. split; [exact Hx|].
    apply Forall_forall. intros y Hy. apply H12; [now left | exact Hy].
Qed.

Lemma row_sorted (r stride a n : nat) :
  1 <= stride ->
  StronglySorted row_major_lt
    (List.map (fun j => (r, j * stride)) (seq a n)).
Proof.
  intro Ht. revert a. induction n as [|n IH]; intro a; simpl; constructor.
  - apply IH.
  - apply Forall_forall. intros [r' c'] Hin.
    apply in_map_iff in Hin. destruct Hin as (j & Hj & Hjin).
    apply in_seq in Hjin. inversion Hj; subst.
    right. simpl. split; [reflexivity | nia].
Qed.

Lemma rows_sorted (stride m a n : nat) :
  1 <= stride ->
  StronglySorted row_major_lt
    (flat_map (fun i => List.map (fun j => (i * stride, j * stride)) (seq 0 m))
              (seq a n)).
Proof.
  intro Ht. revert a. induction n as [|n IH]; intro a; simpl.
  - constructor.
  - apply StronglySorted_app; [now apply row_sorted | apply IH |].
    intros [r c] [r' c'] Hx Hy.
    apply in_map_iff in Hx. destruct Hx as (j & Hj & _). inversion Hj; subst.
    apply in_flat_map in Hy. destruct Hy as (i & Hi & Hin).
    apply in_seq in Hi.
    apply in_map_iff in Hin. destruct Hin as (j' & Hj' & _).
    inversion Hj'; subst.
    left. simpl. nia.
Qed.

Lemma spec_offsets_sorted (rows cols size stride : nat) :
  1 <= stride ->
  StronglySorted row_major_lt (spec_offsets rows cols size stride).
Proof.
  intro Ht. unfold spec_offsets. now apply rows_sorted.
Qed.

Lemma nth_error_slice {A} (a n i : nat) (l : list A) :
  i < n -> nth_error (slice a n l) i = nth_error l (a + i).
Proof.
  intro Hi. unfold slice. rewrite nth_error_firstn.
  destruct (Nat.ltb_spec i n); [|lia]. apply nth_error_skipn.
Qed.

Lemma length_slice {A} (a n : nat) (l : list A) :
  a + n <= List.length l -> List.length (slice a n l) = n.
Proof.
  intro H. unfold slice. rewrite length_firstn, length_skipn. lia.
Qed.

Lemma in_slice {A} (a n : nat) (l : list A) (x : A) :
  In x (slice a n l) -> In x l.
Proof.
  unfold slice. intro H.
  rewrite <- (firstn_skipn a l). apply in_or_app. right.
  rewrite <- (firstn_skipn n (skipn a l)). apply in_or_app. now left.
Qed.

Lemma pixel_at_crop {A} (im : Image A) (r c size a b : nat) :
  a < size -> b < size ->
  pixel_at (crop im r c size) a b = pixel_at im (r + a) (c + b).
Proof.
  intros Ha Hb. unfold pixel_at, crop.
  rewrite nth_error_map, nth_error_slice by exact Ha.
  destruct (nth_error im (r + a)) as [row|]; simpl; [|reflexivity].
  now apply nth_error_slice.
Qed.

Lemma crop_shape {A} (im : Image A) (r c size : nat) :
  rect im -> 1 <= size ->
  r + size <= n_rows im -> c + size <= n_cols im ->
  n_rows (crop im r c size) = size
  /\ Forall (fun row => List.length row = size) (crop im r c size).
Proof.
  intros Hrect Hs Hr Hc. unfold crop, n_rows. split.
  - rewrite length_map. now apply length_slice.
  - apply Forall_forall. intros row Hin.
    apply in_map_iff in Hin. destruct Hin as (row0 & <- & Hin0).
    apply length_slice.
    assert (Hin1 : In row0 im) by exact (in_slice _ _ _ _ Hin0).
    unfold rect in Hrect. rewrite Forall_forall in Hrect.
    rewrite (Hrect row0 Hin1). exact Hc.
Qed.

(** C2.  For a size and a stride of at least 1, [tile_image] returns the
    sub-images at the offsets [(r, c)] that are multiples of the stride
    with [r + size <= rows] and [c + size <= cols], in row-major order,
    each the window [im[r:r+size, c:c+size]] of [size] rows and columns;
    with size 200 and stride 100 that is one tile for a 200x200 image,
    four tiles at (0,0), (0,100), (100,0), (100,100) for a 300x300 image
    and one tile for a 250x250 image. *)
Theorem tile_image_spec {A} (im : Image A) (size stride : nat) :
  1 <= size -> 1 <= stride ->
  tile_image im size stride
  = Ok (List.map (fun rc => crop im (fst rc) (snd rc) size)
                 (spec_offsets (n_rows im) (n_cols im) size stride))
  /\ (forall r c,
        In (r, c) (spec_offsets (n_rows im) (n_cols im) size stride) <->
        (exists i j, r = i * stride /\ c = j * stride)
        /\ r + size <= n_rows im /\ c + size <= n_cols im)
  /\ StronglySorted row_major_lt
       (spec_offsets (n_rows im) (n_cols im) size stride)
  /\ (forall r c a b, a < size -> b < size ->
        pixel_at (crop im r c size) a b = pixel_at im (r + a) (c + b))
  /\ (rect im ->
      forall r c,
        In (r, c) (spec_offsets (n_rows im) (n_cols im) size stride) ->
        n_rows (crop im r c size) = size
        /\ Forall (fun row => List.length row = size) (crop im r c size))
  /\ (size = 200 -> stride = 100 -> n_rows im = 200 -> n_cols im = 200 ->
      tile_image im size stride = Ok [crop im 0 0 200])
  /\ (size = 200 -> stride = 100 -> n_rows im = 300 -> n_cols im = 300 ->
      tile_image im size stride
      = Ok [crop im 0 0 200; crop im 0 100 200;
            crop im 100 0 200; crop im 100 100 200])
  /\ (size = 200 -> stride = 100 -> n_rows im = 250 -> n_cols im = 250 ->
      tile_image im size stride = Ok [crop im 0 0 200]).
Proof.
  intros Hs Ht.
  assert (Heq : tile_image im size stride
                = Ok (List.map (fun rc => crop im (fst rc) (snd rc) size)
                        (spec_offsets (n_rows im) (n_cols im) size stride))).
  { rewrite tile_image_offsets by exact Ht.
    now rewrite tile_offsets_spec_offsets. }
  split; [exact Heq|].
  split; [intros r c; now apply in_spec_offsets|].
  split; [now apply spec_offsets_sorted|].
  split; [intros r c a b; apply pixel_at_crop|].
  split.
  { intros Hrect r c Hin. apply in_spec_offsets in Hin; [|exact Ht].
    destruct Hin as (_ & Hr & Hc). now apply crop_shape. }
  repeat split; intros -> -> Hrows Hcols; rewrite Heq, Hrows, Hcols.
  - replace (spec_offsets 200 200 200 100) with [(0, 0)]
      by (vm_compute; reflexivity).
    reflexivity.
  - replace (spec_offsets 300 300 200 100)
      with [(0, 0); (0, 100); (100, 0); (100, 100)]
      by (vm_compute; reflexivity).
    reflexivity.
  - replace (spec_offsets 250 250 200 100) with [(0, 0)]
      by (vm_compute; reflexivity).
    reflexivity.
Qed.

Lemma tile_image_spec_witness :
  1 <= 2 /\ 1 <= 1
  /\ tile_image [[1; 2; 3]; [4; 5; 6]; [7; 8; 9]] 2 1
     = Ok [ [[1; 2]; [4; 5]]; [[2; 3]; [5; 6]];
            [[4; 5]; [7; 8]]; [[5; 6]; [8; 9]] ].
Proof.
  assert (H2 : 1 <= 2) by lia.
  assert (H1 : 1 <= 1) by lia.
  split; [exact H2|]. split; [exact H1|].
  exact (proj1 (@tile_image_spec nat [[1; 2; 3]; [4; 5; 6]; [7; 8; 9]]
                                 2 1 H2 H1)).
Defined.

Unset Implicit Arguments.

(** ** The monad *)

Lemma bind_ok {A B} (c : M A) (k : A -> M B) (w w' : World) (a : A) :
  c w = (Ok a, w') -> bind c k w = k a w'.
Proof. intro H. unfold bind. now rewrite H. Qed.

Lemma bind_raise {A B} (c : M A) (k : A -> M B) (w w' : World) (e : exn) :
  c w = (Raise e, w') -> bind c k w = (Raise e, w').
Proof. intro H. unfold bind. now rewrite H. Qed.

Lemma for_each_app {A S} (body : S -> A -> M S) (l1 l2 : list A)
  (s s1 : S) (w w1 : World) :
  for_each l1 body s w = (Ok s1, w1) ->
  for_each (l1 ++ l2) body s w = for_each l2 body s1 w1.
Proof.
  revert s w. induction l1 as [|x l1 IH]; intros s w H.
  - simpl in H. unfold ret in H. now inversion H.
  - cbn [app for_each] in *. unfold bind in *.
    destruct (body s x w) as [[s'|e] w']; [now apply IH | discriminate].
Qed.

(** ** The directory wrapper *)

Lemma _makedirs_files (path : string) (w : World) :
  exists ds, _makedirs path w
             = (Ok tt, mkWorld (mkdir_refusal w) ds (listing w) (files w)).
Proof.
  unfold _makedirs, try_except_pass, makedirs.
  destruct (existsb_string path (dirs w)).
  - exists (dirs w). now destruct w.
  - destruct (mkdir_refusal w path).
    + exists (dirs w). now destruct w.
    + now exists (path :: dirs w).
Qed.

(** The directories after the wrapper returned: those there were, and
    [path] where the operating system granted it. *)
Lemma _makedirs_iff (path : string) (w : World) :
  exists ds,
    _makedirs path w = (Ok tt, mkWorld (mkdir_refusal w) ds (listing w) (files w))
    /\ forall p, existsb_string p ds = true
                 <-> existsb_string p (dirs w) = true
                     \/ (p = path /\ mkdir_refusal w path = None).
Proof.
  unfold _makedirs, try_except_pass, makedirs.
  destruct (existsb_string path (dirs w)) eqn:Ex.
  - exists (dirs w). split; [now destruct w|]. intro p. split; [now left|].
    intros [H|[-> _]]; assumption.
  - destruct (mkdir_refusal w path) as [e|] eqn:Er.
    + exists (dirs w). split; [now destruct w|]. intro p. split; [now left|].
      intros [H|[_ H]]; [assumption | discriminate].
    + exists (path :: dirs w). split; [reflexivity|]. intro p.
      unfold existsb_string. cbn [existsb]. rewrite orb_true_iff.
      split.
      * intros [H|H]; [right | now left].
        apply String.eqb_eq in H. now split.
      * intros [H|[-> _]]; [now right | left; apply String.eqb_refl].
Qed.

(** The two calls that open [_process_data]. *)
Lemma makedirs_then (a b : string) (w : World) (B : Type) (k : M B) :
  exists ds,
    (_makedirs a ;; _makedirs b ;; k) w
    = k (mkWorld (mkdir_refusal w) ds (listing w) (files w))
    /\ forall p, existsb_string p ds = true
                 <-> existsb_string p (dirs w) = true
                     \/ (p = a /\ mkdir_refusal w a = None)
                     \/ (p = b /\ mkdir_refusal w b = None).
Proof.
  destruct (_makedirs_iff a w) as (ds1 & H1 & K1).
  rewrite (@bind_ok _ _ _ _ _ _ _ H1).
  match type of H1 with _ = (_, ?x) => set (w1 := x) in * end.
  destruct (_makedirs_iff b w1) as (ds2 & H2 & K2).
  rewrite (@bind_ok _ _ _ _ _ _ _ H2).
  cbn [mkdir_refusal listing files dirs w1] in H2, K2.
  exists ds2. split; [reflexivity|]. intro p.
  rewrite K2, K1. tauto.
Qed.

Lemma can_make_made (a b : string) (w : World) (ds : list string) (d : string) :
  (forall p, existsb_string p ds = true
             <-> existsb_string p (dirs w) = true
                 \/ (p = a /\ mkdir_refusal w a = None)
                 \/ (p = b /\ mkdir_refusal w b = None)) ->
  d = a \/ d = b -> can_make w d -> existsb_string d ds = true.
Proof.
  intros K Hd [H|H]; apply K; [now left|].
  destruct Hd as [-> | ->]; [right; left | right; right]; now split.
Qed.

(** ** Strings *)

Lemma list_ascii_of_string_app (a b : string) :
  list_ascii_of_string (a ++ b)
  = list_ascii_of_string a ++ list_ascii_of_string b.
Proof.
  induction a as [|c a IH]; simpl; [reflexivity | now rewrite IH].
Qed.

Lemma prefixb_app (p l l' : list ascii) :
  prefixb p l = true -> prefixb p (l ++ l') = true.
Proof.
  revert l. induction p as [|c p IH]; intros [|d l] H; simpl in *;
    try reflexivity; try discriminate.
  apply andb_true_iff in H. destruct H as [Hc Hp].
  now rewrite Hc, IH.
Qed.

Lemma prefixb_self_app (p l : list ascii) : prefixb p (p ++ l) = true.
Proof.
  induction p as [|c p IH]; simpl; [reflexivity|].
  now rewrite Ascii.eqb_refl, IH.
Qed.

Lemma endswith_app (x b suffix : string) :
  endswith b suffix = true -> endswith (x ++ b) suffix = true.
Proof.
  unfold endswith. intro H.
  rewrite list_ascii_of_string_app, rev_app_distr. now apply prefixb_app.
Qed.

Lemma endswith_join (a b suffix : string) :
  endswith b suffix = true -> endswith (join a b) suffix = true.
Proof.
  intro H. unfold join.
  destruct (startswith_slash b); [exact H|].
  destruct (_ || _); repeat apply endswith_app; exact H.
Qed.

Lemma endswith_format_png (n : nat) : endswith (format_png n) ".png" = true.
Proof.
  unfold format_png, endswith.
  rewrite list_ascii_of_string_app, rev_app_distr. apply prefixb_self_app.
Qed.

Lemma tif_not_png (p : string) :
  endswith p ".tif" = true -> endswith p ".png" = true -> False.
Proof.
  unfold endswith.
  destruct (rev (list_ascii_of_string p)) as [|c l];
    cbn [prefixb rev app list_ascii_of_string]; [discriminate|].
  intros Ht Hp.
  apply andb_true_iff in Ht. destruct Ht as [Ht _].
  apply andb_true_iff in Hp. destruct Hp as [Hp _].
  apply Ascii.eqb_eq in Ht. apply Ascii.eqb_eq in Hp. congruence.
Qed.

(** ** File names *)

Lemma string_app_inv_tail (s1 s2 t : string) :
  (s1 ++ t)%string = (s2 ++ t)%string -> s1 = s2.
Proof.
  intro H. apply (f_equal list_ascii_of_string) in H.
  rewrite !list_ascii_of_string_app in H. apply app_inv_tail in H.
  rewrite <- (string_of_list_ascii_of_string s1),
          <- (string_of_list_ascii_of_string s2).
  now rewrite H.
Qed.

Lemma format_png_inj (n m : nat) : format_png n = format_png m -> n = m.
Proof.
  unfold format_png. intro H. apply string_app_inv_tail in H.
  apply (f_equal NilEmpty.uint_of_string) in H.
  rewrite !NilEmpty.usu in H. inversion H as [H'].
  apply (f_equal Nat.of_uint) in H'.
  now rewrite !DecimalNat.Unsigned.of_to in H'.
Qed.

(** ** Paths of the tiles *)

Lemma string_app_inv_head (x s1 s2 : string) :
  (x ++ s1)%string = (x ++ s2)%string -> s1 = s2.
Proof.
  induction x as [|c x IH]; simpl; intro H; [exact H|].
  inversion H. now apply IH.
Qed.

Lemma string_app_assoc (a b c : string) :
  ((a ++ b) ++ c)%string = (a ++ b ++ c)%string.
Proof.
  induction a as [|d a IH]; simpl; [reflexivity | now rewrite IH].
Qed.

Lemma string_length_app (a b : string) :
  String.length (a ++ b) = String.length a + String.length b.
Proof.
  induction a as [|c a IH]; simpl; [reflexivity | now rewrite IH].
Qed.

Lemma endswith_slash_app (a b : string) :
  b <> EmptyString -> endswith_slash (a ++ b) = endswith_slash b.
Proof.
  intro Hb. induction a as [|c a IH]; [reflexivity|].
  cbn [append]. cbn [endswith_slash].
  destruct (a ++ b)%string as [|d s] eqn:E.
  - exfalso. destruct a; simpl in E; [contradiction | discriminate].
  - exact IH.
Qed.

(** [join] with a relative name that ends in a letter. *)
Lemma join_relative (a b : string) :
  startswith_slash b = false ->
  exists sep, (sep = EmptyString \/ sep = "/"%string)
              /\ join a b = (a ++ sep ++ b)%string.
Proof.
  intro Hb. unfold join. rewrite Hb.
  destruct (_ || _).
  - exists EmptyString. split; [now left | reflexivity].
  - exists "/"%string. split; [now right | reflexivity].
Qed.

Lemma join_after_name (a b c : string) :
  b <> EmptyString -> endswith_slash b = false ->
  startswith_slash c = false ->
  join (a ++ b) c = (a ++ b ++ "/" ++ c)%string.
Proof.
  intros Hb Hs Hc. unfold join. rewrite Hc.
  rewrite string_length_app, endswith_slash_app, Hs by exact Hb.
  assert (Hlen : (String.length a + String.length b =? 0) = false).
  { destruct b as [|d b]; [contradiction|]. apply Nat.eqb_neq. simpl. lia. }
  rewrite Hlen. cbn [orb]. apply string_app_assoc.
Qed.

Lemma startswith_slash_format_png (n : nat) :
  startswith_slash (format_png n) = false.
Proof.
  unfold format_png. destruct (Nat.to_uint n); reflexivity.
Qed.

Lemma join_input_output (X : string) :
  exists sep,
    (sep = EmptyString \/ sep = "/"%string)
    /\ join X INPUT = (X ++ sep ++ INPUT)%string
    /\ join X OUTPUT = (X ++ sep ++ OUTPUT)%string.
Proof.
  unfold join.
  change (startswith_slash INPUT) with false.
  change (startswith_slash OUTPUT) with false.
  cbv iota.
  destruct (_ || _); [exists EmptyString | exists "/"%string];
    repeat split; auto.
Qed.

Lemma proc_paths (part : string) :
  exists X sep,
    (sep = EmptyString \/ sep = "/"%string)
    /\ forall n,
         join (proc_input_path part) (format_png n)
         = (X ++ (sep ++ "input/bogus_class") ++ "/" ++ format_png n)%string
         /\ join (proc_output_path part) (format_png n)
            = (X ++ (sep ++ "output/bogus_class") ++ "/" ++ format_png n)%string.
Proof.
  unfold proc_input_path, proc_output_path, join_all. cbn [fold_left].
  set (X := join proc_data_path part).
  destruct (join_input_output X) as (sep & Hsep & Hin & Hout).
  exists X, sep. split; [exact Hsep|]. intro n.
  rewrite Hin, Hout.
  pose proof (startswith_slash_format_png n) as Hn.
  destruct Hsep as [-> | ->]; split.
  - rewrite (@join_after_name X ("" ++ INPUT) BOGUS_CLASS)
      by (try reflexivity; discriminate).
    rewrite (@join_after_name X (("" ++ INPUT) ++ "/" ++ BOGUS_CLASS)
               (format_png n))
      by (try reflexivity; try discriminate; exact Hn).
    reflexivity.
  - rewrite (@join_after_name X ("" ++ OUTPUT) BOGUS_CLASS)
      by (try reflexivity; discriminate).
    rewrite (@join_after_name X (("" ++ OUTPUT) ++ "/" ++ BOGUS_CLASS)
               (format_png n))
      by (try reflexivity; try discriminate; exact Hn).
    reflexivity.
  - rewrite (@join_after_name X ("/" ++ INPUT) BOGUS_CLASS)
      by (try reflexivity; discriminate).
    rewrite (@join_after_name X (("/" ++ INPUT) ++ "/" ++ BOGUS_CLASS)
               (format_png n))
      by (try reflexivity; try discriminate; exact Hn).
    reflexivity.
  - rewrite (@join_after_name X ("/" ++ OUTPUT) BOGUS_CLASS)
      by (try reflexivity; discriminate).
    rewrite (@join_after_name X (("/" ++ OUTPUT) ++ "/" ++ BOGUS_CLASS)
               (format_png n))
      by (try reflexivity; try discriminate; exact Hn).
    reflexivity.
Qed.

Lemma tile_paths_distinct (part : string) (n m : nat) :
  (join (proc_input_path part) (format_png n)
   = join (proc_input_path part) (format_png m) -> n = m)
  /\ (join (proc_output_path part) (format_png n)
      = join (proc_output_path part) (format_png m) -> n = m)
  /\ join (proc_input_path part) (format_png n)
     <> join (proc_output_path part) (format_png m).
Proof.
  destruct (proc_paths part) as (X & sep & Hsep & HP).
  destruct (HP n) as [Hin Hon]. destruct (HP m) as [Him Hom].
  rewrite Hin, Hon, Him, Hom. clear Hin Hon Him Hom HP.
  split; [|split]; intro H; apply string_app_inv_head in H.
  - do 2 apply string_app_inv_head in H. now apply format_png_inj.
  - do 2 apply string_app_inv_head in H. now apply format_png_inj.
  - destruct Hsep as [-> | ->]; cbn [append] in H; discriminate H.
Qed.

(** ** The directory of a tile file *)

Lemma proc_dirs (part : string) :
  exists Y Y',
    proc_input_path part = (Y ++ "bogus_class")%string
    /\ proc_output_path part = (Y' ++ "bogus_class")%string.
Proof.
  unfold proc_input_path, proc_output_path, join_all. cbn [fold_left].
  destruct (@join_relative (join (join proc_data_path part) INPUT) BOGUS_CLASS
              eq_refl) as (s1 & _ & E1).
  destruct (@join_relative (join (join proc_data_path part) OUTPUT) BOGUS_CLASS
              eq_refl) as (s2 & _ & E2).
  rewrite E1, E2.
  exists (join (join proc_data_path part) INPUT ++ s1)%string,
         (join (join proc_data_path part) OUTPUT ++ s2)%string.
  now rewrite !string_app_assoc.
Qed.

Lemma drop_while_app_all {A} (f : A -> bool) (l rest : list A) :
  forallb f l = true -> drop_while f (l ++ rest) = drop_while f rest.
Proof.
  induction l as [|x l IH]; intro H; [reflexivity|].
  cbn [forallb] in H. apply andb_true_iff in H. destruct H as [Hx Hl].
  cbn [app drop_while]. rewrite Hx. now apply IH.
Qed.

Lemma forallb_rev {A} (f : A -> bool) (l : list A) :
  forallb f (rev l) = forallb f l.
Proof.
  induction l as [|x l IH]; [reflexivity|].
  cbn [rev forallb]. rewrite forallb_app, IH. cbn [forallb].
  rewrite andb_true_r. apply andb_comm.
Qed.

(** The directory of [d/name] is [d], for a name without a slash and a
    directory that ends in a letter. *)
Lemma dirname_child (d' name : string) (c : ascii) :
  is_slash c = false ->
  forallb (fun x => negb (is_slash x)) (list_ascii_of_string name) = true ->
  dirname ((d' ++ String c "") ++ "/" ++ name) = (d' ++ String c "")%string.
Proof.
  intros Hc Hname. unfold dirname.
  set (R := rev (list_ascii_of_string d')).
  assert (E0 : rev (list_ascii_of_string ((d' ++ String c "") ++ "/" ++ name))
               = rev (list_ascii_of_string name) ++ "/"%char :: c :: R).
  { rewrite !list_ascii_of_string_app. cbn [list_ascii_of_string app].
    rewrite !rev_app_distr. cbn [rev app]. now rewrite <- !app_assoc. }
  assert (E1 : drop_while (fun x => negb (is_slash x))
                 (rev (list_ascii_of_string name) ++ "/"%char :: c :: R)
               = "/"%char :: c :: R).
  { rewrite drop_while_app_all by now rewrite forallb_rev. reflexivity. }
  assert (E2 : forallb is_slash ("/"%char :: c :: R) = false).
  { cbn [forallb]. rewrite Hc. reflexivity. }
  assert (E3 : drop_while is_slash ("/"%char :: c :: R) = c :: R).
  { cbn [drop_while]. change (is_slash "/") with true. cbv iota.
    now rewrite Hc. }
  rewrite E0, E1, E2, E3. cbn [rev]. unfold R. rewrite rev_involutive.
  rewrite <- (string_of_list_ascii_of_string (d' ++ String c "")).
  now rewrite list_ascii_of_string_app.
Qed.

Lemma string_of_uint_no_slash (u : Decimal.uint) :
  forallb (fun x => negb (is_slash x))
          (list_ascii_of_string (NilEmpty.string_of_uint u)) = true.
Proof. induction u; cbn; auto. Qed.

Lemma format_png_no_slash (n : nat) :
  forallb (fun x => negb (is_slash x)) (list_ascii_of_string (format_png n))
  = true.
Proof.
  unfold format_png. rewrite list_ascii_of_string_app, forallb_app.
  rewrite string_of_uint_no_slash. reflexivity.
Qed.

Lemma dirname_in_bogus_class (Y : string) (n : nat) :
  join (Y ++ "bogus_class") (format_png n)
  = ((Y ++ "bogus_class") ++ "/" ++ format_png n)%string
  /\ dirname (join (Y ++ "bogus_class") (format_png n))
     = (Y ++ "bogus_class")%string.
Proof.
  assert (E : join (Y ++ "bogus_class") (format_png n)
              = ((Y ++ "bogus_class") ++ "/" ++ format_png n)%string).
  { rewrite (@join_after_name Y "bogus_class" (format_png n));
      [now rewrite string_app_assoc | discriminate | reflexivity
      | apply startswith_slash_format_png]. }
  split; [exact E|]. rewrite E.
  change (Y ++ "bogus_class")%string
    with (Y ++ ("bogus_clas" ++ String "s" ""))%string.
  rewrite <- (string_app_assoc Y "bogus_clas" (String "s" "")).
  apply dirname_child; [reflexivity | apply format_png_no_slash].
Qed.

Lemma tile_path_dirname (part : string) (n : nat) :
  dirname (join (proc_input_path part) (format_png n)) = proc_input_path part
  /\ dirname (join (proc_output_path part) (format_png n))
     = proc_output_path part.
Proof.
  destruct (proc_dirs part) as (Y & Y' & -> & ->).
  split; apply dirname_in_bogus_class.
Qed.



Lemma endswith_proc_path (part : string) :
  endswith (proc_input_path part) BOGUS_CLASS = true
  /\ endswith (proc_output_path part) BOGUS_CLASS = true.
Proof.
  unfold proc_input_path, proc_output_path, join_all. cbn [fold_left].
  split; apply endswith_join; reflexivity.
Qed.

(** ** The file system after writes *)

Lemma write_all_app (a b : list (string * Image RGB)) (w : World) :
  write_all (a ++ b) w = write_all b (write_all a w).
Proof. unfold write_all. apply fold_left_app. Qed.

Lemma files_write_all (ws : list (string * Image RGB)) (w : World) :
  files (write_all ws w) = rev ws ++ files w.
Proof.
  revert w. induction ws as [|[q im] ws IH]; intro w; [reflexivity|].
  cbn [write_all fold_left fst snd].
  change (fold_left _ ws ?x) with (write_all ws x).
  rewrite IH. cbn [files write_file rev]. now rewrite <- app_assoc.
Qed.

Lemma dirs_write_all (ws : list (string * Image RGB)) (w : World) :
  dirs (write_all ws w) = dirs w.
Proof.
  revert w. induction ws as [|[q im] ws IH]; intro w; [reflexivity|].
  cbn [write_all fold_left fst snd].
  change (fold_left _ ws ?x) with (write_all ws x).
  now rewrite IH.
Qed.

Lemma mkdir_refusal_write_all (ws : list (string * Image RGB)) (w : World) :
  mkdir_refusal (write_all ws w) = mkdir_refusal w.
Proof.
  revert w. induction ws as [|[q im] ws IH]; intro w; [reflexivity|].
  cbn [write_all fold_left fst snd].
  change (fold_left _ ws ?x) with (write_all ws x).
  now rewrite IH.
Qed.

Lemma listing_write_all (ws : list (string * Image RGB)) (w : World)
  (path : string) :
  (forall q im, In (q, im) ws -> dirname q <> path) ->
  listing (write_all ws w) path = listing w path.
Proof.
  revert w. induction ws as [|[q im] ws IH]; intros w H; [reflexivity|].
  cbn [write_all fold_left fst snd].
  change (fold_left _ ws ?x) with (write_all ws x).
  rewrite IH by (intros q' im' Hin; apply (H q' im'); now right).
  cbn [listing write_file].
  destruct (String.eqb_spec path (dirname q)) as [E|E]; [|reflexivity].
  exfalso. apply (H q im); [now left | now symmetry].
Qed.

Lemma can_make_write_all (ws : list (string * Image RGB)) (w : World)
  (path : string) :
  can_make w path -> can_make (write_all ws w) path.
Proof.
  unfold can_make. now rewrite dirs_write_all, mkdir_refusal_write_all.
Qed.

(** ** Reads are not disturbed by the tiles written *)

Lemma lookup_file_app_other (p : string) (new fs : list (string * Image RGB)) :
  (forall q im, In (q, im) new -> q <> p) ->
  lookup_file p (new ++ fs) = lookup_file p fs.
Proof.
  induction new as [|[q im] new IH]; intro H; simpl; [reflexivity|].
  destruct (String.eqb_spec p q) as [->|Hpq].
  - exfalso. apply (H q im); [now left | reflexivity].
  - apply IH. intros q' im' Hin. apply (H q' im'). now right.
Qed.

Lemma lookup_file_tif (p : string) (new fs : list (string * Image RGB)) :
  endswith p ".tif" = true ->
  (forall q im, In (q, im) new -> endswith q ".png" = true) ->
  lookup_file p (new ++ fs) = lookup_file p fs.
Proof.
  intros Ht Hnew. apply lookup_file_app_other.
  intros q im Hin ->. exact (tif_not_png _ Ht (Hnew _ _ Hin)).
Qed.

Lemma lookup_file_app (p : string) (l fs : list (string * Image RGB)) :
  lookup_file p (l ++ fs)
  = match lookup_file p l with
    | Some im => Some im
    | None => lookup_file p fs
    end.
Proof.
  induction l as [|[q im] l IH]; simpl; [reflexivity|].
  destruct (String.eqb p q); [reflexivity | exact IH].
Qed.

Lemma file_pairs_after_writes (new fs : list (string * Image RGB)) (f : string) :
  endswith f ".tif" = true ->
  (forall q im, In (q, im) new -> endswith q ".png" = true) ->
  file_pairs (new ++ fs) f = file_pairs fs f.
Proof.
  intros Hf Hnew. unfold file_pairs.
  rewrite !lookup_file_tif; try assumption; try reflexivity;
    now apply endswith_join.
Qed.

Lemma loads_after_writes (new fs : list (string * Image RGB)) (f : string) :
  endswith f ".tif" = true ->
  (forall q im, In (q, im) new -> endswith q ".png" = true) ->
  loads fs f -> loads (new ++ fs) f.
Proof.
  intros Hf Hnew (input_im & output_im & Ho & Hi).
  exists input_im, output_im.
  rewrite !lookup_file_tif; try assumption; try (now apply endswith_join).
  now split.
Qed.

Lemma flat_map_file_pairs_after_writes (new fs : list (string * Image RGB))
  (file_names : list string) :
  Forall (fun f => endswith f ".tif" = true) file_names ->
  (forall q im, In (q, im) new -> endswith q ".png" = true) ->
  flat_map (file_pairs (new ++ fs)) file_names
  = flat_map (file_pairs fs) file_names.
Proof.
  intros Htif Hnew. apply flat_map_ext_on. intros f Hf.
  apply file_pairs_after_writes; [|exact Hnew].
  rewrite Forall_forall in Htif. now apply Htif.
Qed.

Lemma loads_all_after_writes (new fs : list (string * Image RGB))
  (file_names : list string) :
  Forall (fun f => endswith f ".tif" = true) file_names ->
  (forall q im, In (q, im) new -> endswith q ".png" = true) ->
  Forall (loads fs) file_names -> Forall (loads (new ++ fs)) file_names.
Proof.
  intros Htif Hnew Hl. rewrite Forall_forall in *. intros f Hf.
  apply loads_after_writes; [now apply Htif | exact Hnew | now apply Hl].
Qed.

(** ** The files a run writes *)

Lemma writes_from_png (part : string) (ps : list (Image RGB * Image RGB))
  (k : nat) (q : string) (im : Image RGB) :
  In (q, im) (writes_from part k ps) -> endswith q ".png" = true.
Proof.
  revert k. induction ps as [|p ps IH]; intros k Hin; simpl in Hin.
  - contradiction.
  - destruct Hin as [H|[H|H]]; try (inversion H; subst;
      apply endswith_join, endswith_format_png).
    exact (IH _ H).
Qed.

Lemma writes_from_app (part : string) (a b : list (Image RGB * Image RGB))
  (k : nat) :
  writes_from part k (a ++ b)
  = writes_from part k a ++ writes_from part (k + List.length a) b.
Proof.
  revert k. induction a as [|p a IH]; intro k; simpl.
  - now rewrite Nat.add_0_r.
  - rewrite IH. now rewrite Nat.add_succ_r.
Qed.

Lemma writes_from_length (part : string) (ps : list (Image RGB * Image RGB))
  (k : nat) :
  List.length (writes_from part k ps) = 2 * List.length ps.
Proof.
  revert k. induction ps as [|p ps IH]; intro k; simpl; [reflexivity|].
  rewrite IH. lia.
Qed.

Lemma writes_from_nth (part : string) (ps : list (Image RGB * Image RGB))
  (k n : nat) (input_tile output_tile : Image RGB) :
  nth_error ps n = Some (input_tile, output_tile) ->
  nth_error (writes_from part k ps) (2 * n)
  = Some (join (proc_input_path part) (format_png (k + n)), input_tile)
  /\ nth_error (writes_from part k ps) (2 * n + 1)
     = Some (join (proc_output_path part) (format_png (k + n)), output_tile).
Proof.
  revert k n. induction ps as [|p ps IH]; intros k [|n] H; simpl in H;
    try discriminate.
  - inversion H; subst. simpl. rewrite Nat.add_0_r. split; reflexivity.
  - destruct (IH (S k) n H) as [H1 H2].
    replace (2 * S n) with (S (S (2 * n))) by lia.
    replace (S (S (2 * n)) + 1) with (S (S (2 * n + 1))) by lia.
    replace (k + S n) with (S k + n) by lia.
    simpl writes_from. simpl nth_error. split; assumption.
Qed.

Lemma rev_writes_png (part : string) (ps : list (Image RGB * Image RGB))
  (k : nat) (q : string) (im : Image RGB) :
  In (q, im) (rev (writes_from part k ps)) -> endswith q ".png" = true.
Proof.
  intro H. apply in_rev in H. exact (@writes_from_png part ps k q im H).
Qed.

(** ** One write *)

Lemma save_image_run (file_path : string) (im : Image RGB) (w : World) :
  existsb_string (dirname file_path) (dirs w) = true ->
  save_image file_path im w = (Ok tt, write_file file_path im w).
Proof. intro H. unfold save_image. now rewrite H, orb_true_r. Qed.


(** ** The inner loop, with the two directories in place *)

Lemma save_pair_run (part : string) (k : nat) (p : Image RGB * Image RGB)
  (w : World) :
  existsb_string (proc_input_path part) (dirs w) = true ->
  existsb_string (proc_output_path part) (dirs w) = true ->
  save_pair part k p w = (Ok (k + 1), write_all (pair_writes part k p) w).
Proof.
  intros Hin Hout. destruct p as [input_tile output_tile]. unfold save_pair.
  destruct (tile_path_dirname part k) as [Di Do].
  assert (S1 : save_image (join (proc_input_path part) (format_png k))
                          input_tile w
               = (Ok tt, write_file (join (proc_input_path part) (format_png k))
                                    input_tile w))
    by (apply save_image_run; now rewrite Di).
  rewrite (@bind_ok _ _ _ _ _ _ _ S1).
  match type of S1 with _ = (_, ?x) => set (w1 := x) in * end.
  assert (S2 : save_image (join (proc_output_path part) (format_png k))
                          output_tile w1
               = (Ok tt, write_file (join (proc_output_path part) (format_png k))
                                    output_tile w1))
    by (apply save_image_run; now rewrite Do).
  rewrite (@bind_ok _ _ _ _ _ _ _ S2). reflexivity.
Qed.

Lemma save_pairs_run (part : string) (ps : list (Image RGB * Image RGB))
  (k : nat) (w : World) :
  existsb_string (proc_input_path part) (dirs w) = true ->
  existsb_string (proc_output_path part) (dirs w) = true ->
  for_each ps (save_pair part) k w
  = (Ok (k + List.length ps), write_all (writes_from part k ps) w).
Proof.
  revert k w. induction ps as [|p ps IH]; intros k w Hin Hout.
  - simpl. unfold ret. now rewrite Nat.add_0_r.
  - cbn [for_each].
    rewrite (@bind_ok _ _ _ _ _ _ _ (@save_pair_run part k p w Hin Hout)).
    rewrite IH by now rewrite dirs_write_all.
    cbn [writes_from List.length]. rewrite write_all_app.
    rewrite Nat.add_1_r, <- Nat.add_succ_comm. reflexivity.
Qed.

(** ** One file pair *)

Lemma tile_image_configured {A} (im : Image A) :
  tile_image im tile_size tile_stride = Ok (tiles_of im).
Proof.
  unfold tiles_of. apply tile_image_offsets. unfold tile_stride. lia.
Qed.

(** The body of the outer loop up to the writes. *)
Lemma process_file_loaded (part : string) (k : nat) (f : string) (w : World)
  (input_im output_im : Image RGB) :
  lookup_file (join raw_output_path f) (files w) = Some output_im ->
  lookup_file (join raw_input_path f) (files w) = Some input_im ->
  process_file part k f w
  = for_each (combine (tiles_of input_im) (tiles_of output_im))
             (save_pair part) k w.
Proof.
  intros Ho Hi. unfold process_file.
  assert (Hlo : load_image (join raw_output_path f) w = (Ok output_im, w))
    by (unfold load_image; now rewrite Ho).
  assert (Hli : load_image (join raw_input_path f) w = (Ok input_im, w))
    by (unfold load_image; now rewrite Hi).
  rewrite (@bind_ok _ _ _ _ _ _ _ Hlo), (@bind_ok _ _ _ _ _ _ _ Hli).
  assert (Hti : lift (tile_image input_im tile_size tile_stride) w
                = (Ok (tiles_of input_im), w))
    by (unfold lift; now rewrite tile_image_configured).
  assert (Hto : lift (tile_image output_im tile_size tile_stride) w
                = (Ok (tiles_of output_im), w))
    by (unfold lift; now rewrite tile_image_configured).
  now rewrite (@bind_ok _ _ _ _ _ _ _ Hti), (@bind_ok _ _ _ _ _ _ _ Hto).
Qed.

Lemma process_file_run (part : string) (k : nat) (f : string) (w : World)
  (input_im output_im : Image RGB) :
  lookup_file (join raw_output_path f) (files w) = Some output_im ->
  lookup_file (join raw_input_path f) (files w) = Some input_im ->
  existsb_string (proc_input_path part) (dirs w) = true ->
  existsb_string (proc_output_path part) (dirs w) = true ->
  process_file part k f w
  = (Ok (k + List.length (combine (tiles_of input_im) (tiles_of output_im))),
     write_all (writes_from part k
                  (combine (tiles_of input_im) (tiles_of output_im))) w).
Proof.
  intros Ho Hi Hin Hout.
  rewrite (@process_file_loaded part k f w input_im output_im Ho Hi).
  now apply save_pairs_run.
Qed.

Lemma process_file_missing (part : string) (k : nat) (f : string) (w : World) :
  lookup_file (join raw_output_path f) (files w) = None
  \/ lookup_file (join raw_input_path f) (files w) = None ->
  process_file part k f w = (Raise FileNotFoundError, w).
Proof.
  intro H. unfold process_file.
  destruct (lookup_file (join raw_output_path f) (files w)) as [output_im|] eqn:Ho.
  - destruct H as [H|H]; [discriminate|].
    assert (Hlo : load_image (join raw_output_path f) w = (Ok output_im, w))
      by (unfold load_image; now rewrite Ho).
    rewrite (@bind_ok _ _ _ _ _ _ _ Hlo).
    apply bind_raise. unfold load_image. now rewrite H.
  - apply bind_raise. unfold load_image. now rewrite Ho.
Qed.

(** ** All the files of a partition *)

Lemma process_files_run (part : string) (file_names : list string) (k : nat)
  (w : World) :
  Forall (fun f => endswith f ".tif" = true) file_names ->
  Forall (loads (files w)) file_names ->
  existsb_string (proc_input_path part) (dirs w) = true ->
  existsb_string (proc_output_path part) (dirs w) = true ->
  for_each file_names (process_file part) k w
  = (Ok (k + List.length (flat_map (file_pairs (files w)) file_names)),
     write_all (writes_from part k (flat_map (file_pairs (files w)) file_names))
               w).
Proof.
  intros Htif. revert k w.
  induction file_names as [|f file_names IH]; intros k w Hload Hin Hout.
  - simpl. unfold ret. now rewrite Nat.add_0_r.
  - inversion Htif as [|? ? Hf Htif']; subst.
    inversion Hload as [|? ? (input_im & output_im & Ho & Hi) Hload']; subst.
    cbn [for_each].
    rewrite (@bind_ok _ _ _ _ _ _ _
               (@process_file_run part k f w input_im output_im Ho Hi Hin Hout)).
    assert (Hpairs : file_pairs (files w) f
                     = combine (tiles_of input_im) (tiles_of output_im))
      by (unfold file_pairs; now rewrite Ho, Hi).
    cbn [flat_map]. rewrite Hpairs.
    set (ps := combine (tiles_of input_im) (tiles_of output_im)) in *.
    set (w1 := write_all (writes_from part k ps) w).
    assert (Hpng : forall q im, In (q, im) (rev (writes_from part k ps)) ->
                                endswith q ".png" = true)
      by (intros q im; apply rev_writes_png).
    assert (Hfiles : files w1 = rev (writes_from part k ps) ++ files w)
      by apply files_write_all.
    rewrite (IH Htif' (k + List.length ps) w1).
    + rewrite Hfiles.
      rewrite (@flat_map_file_pairs_after_writes _ (files w) file_names
                 Htif' Hpng).
      unfold w1. rewrite <- write_all_app, <- writes_from_app, length_app.
      now rewrite Nat.add_assoc.
    + rewrite Hfiles. now apply loads_all_after_writes.
    + unfold w1. now rewrite dirs_write_all.
    + unfold w1. now rewrite dirs_write_all.
Qed.

(** A partition whose two directories exist or can be created. *)
Lemma _process_data_run (file_names : list string) (part : string) (w : World) :
  Forall (fun f => endswith f ".tif" = true) file_names ->
  Forall (loads (files w)) file_names ->
  can_make w (proc_input_path part) ->
  can_make w (proc_output_path part) ->
  exists ds,
    _process_data file_names part w
    = (Ok tt,
       write_all (writes_from part 0
                    (flat_map (file_pairs (files w)) file_names))
                 (mkWorld (mkdir_refusal w) ds (listing w) (files w)))
    /\ forall p, existsb_string p ds = true
                 <-> existsb_string p (dirs w) = true
                     \/ (p = proc_input_path part
                         /\ mkdir_refusal w (proc_input_path part) = None)
                     \/ (p = proc_output_path part
                         /\ mkdir_refusal w (proc_output_path part) = None).
Proof.
  intros Htif Hload Cin Cout. unfold _process_data.
  destruct (@makedirs_then (proc_input_path part) (proc_output_path part) w _
              (_ <- for_each file_names (process_file part) 0 ;; ret tt))
    as (ds & Hmk & K).
  rewrite Hmk. exists ds. split; [|exact K].
  set (w2 := mkWorld (mkdir_refusal w) ds (listing w) (files w)).
  assert (Hrun := @process_files_run part file_names 0 w2 Htif Hload
                    (@can_make_made _ _ w ds _ K (or_introl eq_refl) Cin)
                    (@can_make_made _ _ w ds _ K (or_intror eq_refl) Cout)).
  rewrite (@bind_ok _ _ _ _ _ _ _ Hrun). reflexivity.
Qed.

(** The partition of no file: the two directories are asked for and
    nothing else happens. *)
Lemma _process_data_nil (part : string) (w : World) :
  exists ds,
    _process_data [] part w
    = (Ok tt, mkWorld (mkdir_refusal w) ds (listing w) (files w)).
Proof.
  unfold _process_data.
  destruct (@makedirs_then (proc_input_path part) (proc_output_path part) w _
              (_ <- for_each [] (process_file part) 0 ;; ret tt))
    as (ds & Hmk & _).
  rewrite Hmk. now exists ds.
Qed.

(** ** Where a written pair comes from *)

Lemma nth_error_combine {A B} (l1 : list A) (l2 : list B) (j : nat) (a : A) (b : B) :
  nth_error (combine l1 l2) j = Some (a, b) ->
  nth_error l1 j = Some a /\ nth_error l2 j = Some b.
Proof.
  revert l2 j. induction l1 as [|x l1 IH]; intros [|y l2] [|j] H; simpl in H;
    try discriminate.
  - inversion H. split; reflexivity.
  - simpl. now apply IH.
Qed.

Lemma tiles_of_nth {A} (im : Image A) (j : nat) (t : Image A) :
  nth_error (tiles_of im) j = Some t ->
  exists r c,
    nth_error (tile_offsets (n_rows im) (n_cols im) tile_size tile_stride) j
    = Some (r, c)
    /\ t = crop im r c tile_size.
Proof.
  unfold tiles_of. rewrite nth_error_map.
  destruct (nth_error _ j) as [[r c]|]; simpl; [|discriminate].
  intro H. inversion H. now exists r, c.
Qed.

Lemma same_shape_same_offsets (input_im output_im : Image RGB) (j : nat)
  (input_tile output_tile : Image RGB) :
  same_shape input_im output_im ->
  nth_error (tiles_of input_im) j = Some input_tile ->
  nth_error (tiles_of output_im) j = Some output_tile ->
  exists r c,
    In (r, c) (tile_offsets (n_rows input_im) (n_cols input_im)
                            tile_size tile_stride)
    /\ input_tile = crop input_im r c tile_size
    /\ output_tile = crop output_im r c tile_size.
Proof.
  intros [Hr Hc] Hi Ho.
  apply tiles_of_nth in Hi. destruct Hi as (r & c & Hrc & ->).
  apply tiles_of_nth in Ho. destruct Ho as (r' & c' & Hrc' & ->).
  rewrite <- Hr, <- Hc in Hrc'.
  assert (E : (r', c') = (r, c)) by congruence. inversion E; subst.
  exists r, c. split; [|split; reflexivity].
  exact (nth_error_In _ _ Hrc).
Qed.

Lemma file_pairs_provenance (fs : list (string * Image RGB))
  (file_names : list string) (n : nat) (input_tile output_tile : Image RGB) :
  nth_error (flat_map (file_pairs fs) file_names) n
  = Some (input_tile, output_tile) ->
  exists f j input_im output_im,
    In f file_names
    /\ lookup_file (join raw_output_path f) fs = Some output_im
    /\ lookup_file (join raw_input_path f) fs = Some input_im
    /\ nth_error (tiles_of input_im) j = Some input_tile
    /\ nth_error (tiles_of output_im) j = Some output_tile.
Proof.
  intro H. apply nth_error_In in H. apply in_flat_map in H.
  destruct H as (f & Hf & Hin). unfold file_pairs in Hin.
  destruct (lookup_file (join raw_output_path f) fs) as [output_im|] eqn:Ho;
    [|contradiction].
  destruct (lookup_file (join raw_input_path f) fs) as [input_im|] eqn:Hi;
    [|contradiction].
  apply In_nth_error in Hin. destruct Hin as (j & Hj).
  apply nth_error_combine in Hj.
  exists f, j, input_im, output_im. tauto.
Qed.

(** ** The files on disk after a run *)

Lemma writes_from_paths (part : string) (ps : list (Image RGB * Image RGB))
  (k : nat) (q : string) :
  In q (List.map fst (writes_from part k ps)) ->
  exists n, k <= n
            /\ (q = join (proc_input_path part) (format_png n)
                \/ q = join (proc_output_path part) (format_png n)).
Proof.
  revert k. induction ps as [|p ps IH]; intros k Hin; simpl in Hin.
  - contradiction.
  - destruct Hin as [H|[H|H]].
    + exists k. split; [lia | now left].
    + exists k. split; [lia | now right].
    + destruct (IH _ H) as (n & Hn & Hq). exists n. split; [lia | exact Hq].
Qed.

Lemma writes_from_NoDup (part : string) (ps : list (Image RGB * Image RGB))
  (k : nat) :
  NoDup (List.map fst (writes_from part k ps)).
Proof.
  revert k. induction ps as [|p ps IH]; intro k; simpl; constructor.
  - intros [H|H].
    + symmetry in H. exact (proj2 (proj2 (tile_paths_distinct part k k)) H).
    + destruct (writes_from_paths _ _ _ _ H) as (n & Hn & [Hq|Hq]).
      * apply (proj1 (tile_paths_distinct part k n)) in Hq. lia.
      * exact (proj2 (proj2 (tile_paths_distinct part k n)) Hq).
  - constructor; [|apply IH].
    intro H. destruct (writes_from_paths _ _ _ _ H) as (n & Hn & [Hq|Hq]).
    + symmetry in Hq. exact (proj2 (proj2 (tile_paths_distinct part n k)) Hq).
    + apply (proj1 (proj2 (tile_paths_distinct part k n))) in Hq. lia.
Qed.

Lemma lookup_file_NoDup (l fs : list (string * Image RGB)) (p : string)
  (im : Image RGB) :
  NoDup (List.map fst l) -> In (p, im) l ->
  lookup_file p (l ++ fs) = Some im.
Proof.
  induction l as [|[q im'] l IH]; intros Hnd Hin; simpl in *; [contradiction|].
  inversion Hnd as [|? ? Hq Hnd']; subst.
  destruct (String.eqb_spec p q) as [->|Hpq].
  - destruct Hin as [H|H]; [now inversion H|].
    exfalso. apply Hq. apply in_map_iff. now exists (q, im).
  - destruct Hin as [H|H]; [inversion H; congruence|].
    now apply IH.
Qed.

Lemma written_tiles_on_disk (part : string) (ps : list (Image RGB * Image RGB))
  (fs : list (string * Image RGB)) (n : nat)
  (input_tile output_tile : Image RGB) :
  nth_error ps n = Some (input_tile, output_tile) ->
  lookup_file (join (proc_input_path part) (format_png n))
              (rev (writes_from part 0 ps) ++ fs) = Some input_tile
  /\ lookup_file (join (proc_output_path part) (format_png n))
                 (rev (writes_from part 0 ps) ++ fs) = Some output_tile.
Proof.
  intro Hn.
  destruct (@writes_from_nth part ps 0 n _ _ Hn) as [H1 H2].
  assert (Hnd : NoDup (List.map fst (rev (writes_from part 0 ps)))).
  { rewrite map_rev. apply NoDup_rev. apply writes_from_NoDup. }
  split; apply lookup_file_NoDup; try exact Hnd; apply in_rev;
    rewrite rev_involutive.
  - exact (nth_error_In _ _ H1).
  - exact (nth_error_In _ _ H2).
Qed.

(** C6, as the code has it.  Where the two directories of the
    partition exist or can be created, the tile pairs of all its
    files, in the order of the files and of the tiles, are written one
    after the other: pair number [n], counted from 0 across the files,
    has its input tile written to [input/.../n.png] and then its output
    tile to [output/.../n.png], which is what the two files hold when
    the run ends; distinct numbers give distinct names; and the two
    tiles of a pair come from the same file and from the same place in
    the tile sequences of its two images, which is the same offset when
    the two images have the same shape. *)
Theorem partition_names_pairs (file_names : list string)
  (partition_name : string) (w : World) :
  Forall (fun f => endswith f ".tif" = true) file_names ->
  Forall (loads (files w)) file_names ->
  can_make w (proc_input_path partition_name) ->
  can_make w (proc_output_path partition_name) ->
  exists w' writes,
    _process_data file_names partition_name w = (Ok tt, w')
    /\ files w' = rev writes ++ files w
    /\ List.length writes
       = 2 * List.length (flat_map (file_pairs (files w)) file_names)
    /\ (forall n m, format_png n = format_png m -> n = m)
    /\ (forall n input_tile output_tile,
          nth_error (flat_map (file_pairs (files w)) file_names) n
          = Some (input_tile, output_tile) ->
          nth_error writes (2 * n)
          = Some (join (proc_input_path partition_name) (format_png n),
                  input_tile)
          /\ nth_error writes (2 * n + 1)
             = Some (join (proc_output_path partition_name) (format_png n),
                     output_tile)
          /\ lookup_file (join (proc_input_path partition_name) (format_png n))
                         (files w') = Some input_tile
          /\ lookup_file (join (proc_output_path partition_name) (format_png n))
                         (files w') = Some output_tile
          /\ exists f j input_im output_im input_tiles output_tiles,
               In f file_names
               /\ lookup_file (join raw_input_path f) (files w) = Some input_im
               /\ lookup_file (join raw_output_path f) (files w) = Some output_im
               /\ tile_image input_im tile_size tile_stride = Ok input_tiles
               /\ tile_image output_im tile_size tile_stride = Ok output_tiles
               /\ nth_error input_tiles j = Some input_tile
               /\ nth_error output_tiles j = Some output_tile
               /\ (same_shape input_im output_im ->
                   exists r c,
                     In (r, c) (tile_offsets (n_rows input_im) (n_cols input_im)
                                             tile_size tile_stride)
                     /\ input_tile = crop input_im r c tile_size
                     /\ output_tile = crop output_im r c tile_size)).
Proof.
  intros Htif Hload Cin Cout.
  destruct (@_process_data_run file_names partition_name w Htif Hload Cin Cout)
    as (ds & Hrun & _).
  eexists. exists (writes_from partition_name 0
                     (flat_map (file_pairs (files w)) file_names)).
  split; [exact Hrun|]. rewrite files_write_all. cbn [files].
  split; [reflexivity|].
  split; [apply writes_from_length|].
  split; [exact format_png_inj|].
  intros n input_tile output_tile Hn.
  destruct (@writes_from_nth partition_name _ 0 n _ _ Hn) as [H1 H2].
  split; [exact H1|]. split; [exact H2|].
  destruct (@written_tiles_on_disk partition_name _ (files w) n _ _ Hn)
    as [D1 D2].
  split; [exact D1|]. split; [exact D2|].
  destruct (file_pairs_provenance _ _ _ _ _ Hn)
    as (f & j & input_im & output_im & Hf & Ho & Hi & Hti & Hto).
  exists f, j, input_im, output_im, (tiles_of input_im), (tiles_of output_im).
  repeat (split; [first [assumption | apply tile_image_configured]|]).
  intro Hshape.
  destruct (@same_shape_same_offsets _ _ _ _ _ Hshape Hti Hto)
    as (r & c & Hrc & Hit & Hot).
  now exists r, c.
Qed.

Lemma matched_world_loads : Forall (loads (files matched_world)) ["a.tif"%string].
Proof.
  constructor; [|constructor].
  exists (plain 200 200 (10, 20, 30)%Z), (plain 200 200 (255, 0, 0)%Z).
  split; reflexivity.
Qed.

Lemma partition_names_pairs_witness :
  Forall (fun f => endswith f ".tif" = true) ["a.tif"%string]
  /\ Forall (loads (files matched_world)) ["a.tif"%string]
  /\ can_make matched_world (proc_input_path TRAIN)
  /\ can_make matched_world (proc_output_path TRAIN)
  /\ exists w' writes,
       _process_data ["a.tif"%string] TRAIN matched_world = (Ok tt, w')
       /\ files w' = rev writes ++ files matched_world
       /\ List.length writes
          = 2 * List.length (flat_map (file_pairs (files matched_world))
                                      ["a.tif"%string]).
Proof.
  assert (Htif : Forall (fun f => endswith f ".tif" = true) ["a.tif"%string])
    by (constructor; [reflexivity | constructor]).
  assert (Cin : can_make matched_world (proc_input_path TRAIN))
    by (right; reflexivity).
  assert (Cout : can_make matched_world (proc_output_path TRAIN))
    by (right; reflexivity).
  split; [exact Htif|]. split; [exact matched_world_loads|].
  split; [exact Cin|]. split; [exact Cout|].
  destruct (@partition_names_pairs ["a.tif"%string] TRAIN matched_world
              Htif matched_world_loads Cin Cout)
    as (w' & writes & Hrun & Hfiles & Hlen & _).
  exists w', writes. repeat split; assumption.
Defined.

Lemma nth_error_seq0 (n a : nat) :
  nth_error (seq 0 n) a = if a <? n then Some a else None.
Proof.
  destruct (Nat.ltb_spec a n) as [H|H].
  - rewrite (nth_error_nth' _ 0) by now rewrite length_seq.
    now rewrite seq_nth.
  - apply nth_error_None. now rewrite length_seq.
Qed.

Lemma pixel_at_coded (rows cols a b : nat) :
  pixel_at (coded rows cols) a b
  = if (a <? rows) && (b <? cols)
    then Some (Z.of_nat a, Z.of_nat b, 0%Z) else None.
Proof.
  unfold pixel_at, coded. rewrite nth_error_map, nth_error_seq0.
  destruct (a <? rows); [|reflexivity]. cbn [option_map andb].
  rewrite nth_error_map, nth_error_seq0.
  destruct (b <? cols); reflexivity.
Qed.

(** The offset of a full tile of a coded image can be read off its
    first pixel. *)
Lemma crop_coded_offset (rows cols r c r' c' : nat) :
  r' < rows -> c' < cols ->
  crop (coded rows cols) r' c' tile_size = crop (coded rows cols) r c tile_size ->
  r = r' /\ c = c'.
Proof.
  intros Hr Hc E.
  apply (f_equal (fun t => pixel_at t 0 0)) in E.
  rewrite !(@pixel_at_crop _ _ _ _ tile_size 0 0) in E
    by (unfold tile_size; lia).
  rewrite !Nat.add_0_r, !pixel_at_coded in E.
  destruct (Nat.ltb_spec r' rows); [|lia].
  destruct (Nat.ltb_spec c' cols); [|lia].
  cbn [andb] in E.
  destruct ((r <? rows) && (c <? cols)); [|discriminate].
  inversion E. lia.
Qed.

(** C6, as the specification states it, fails: the files [n.png] of the
    two roles need not come from the same tile position.  For an input
    image of 200 x 300 and a label image of 300 x 200 the second tile
    of the input lies at offset (0, 100) and the second tile of the
    label at (100, 0), and the run writes both as [1.png]. *)
Lemma skewed_pair_joins_different_offsets :
  ~ (forall (file_names : list string) (partition_name : string) (w w' : World),
       Forall (fun f => endswith f ".tif" = true) file_names ->
       Forall (loads (files w)) file_names ->
       _process_data file_names partition_name w = (Ok tt, w') ->
       forall (n : nat) (input_tile output_tile : Image RGB),
         lookup_file (join (proc_input_path partition_name) (format_png n))
                     (files w') = Some input_tile ->
         lookup_file (join (proc_output_path partition_name) (format_png n))
                     (files w') = Some output_tile ->
         exists f input_im output_im r c,
           In f file_names
           /\ lookup_file (join raw_input_path f) (files w) = Some input_im
           /\ lookup_file (join raw_output_path f) (files w) = Some output_im
           /\ input_tile = crop input_im r c tile_size
           /\ output_tile = crop output_im r c tile_size).
Proof.
  intro H.
  assert (Htif : Forall (fun f => endswith f ".tif" = true) ["a.tif"%string])
    by (constructor; [reflexivity | constructor]).
  assert (Hload : Forall (loads (files skewed_world)) ["a.tif"%string]).
  { constructor; [|constructor].
    exists (coded 200 300), (coded 300 200). split; reflexivity. }
  destruct (@_process_data_run ["a.tif"%string] TRAIN skewed_world Htif Hload
              (or_intror eq_refl) (or_intror eq_refl)) as (ds & Hrun & _).
  set (ps := flat_map (file_pairs (files skewed_world)) ["a.tif"%string]) in *.
  assert (Hps : nth_error ps 1
                = Some (crop (coded 200 300) 0 100 tile_size,
                        crop (coded 300 200) 100 0 tile_size))
    by (vm_compute; reflexivity).
  destruct (@written_tiles_on_disk TRAIN ps (files skewed_world) 1 _ _ Hps)
    as [D1 D2].
  match type of Hrun with _ = (_, ?x) => set (w' := x) in * end.
  assert (Hfiles : files w' = rev (writes_from TRAIN 0 ps) ++ files skewed_world)
    by (unfold w'; now rewrite files_write_all).
  destruct (H ["a.tif"%string] TRAIN skewed_world w' Htif Hload Hrun 1
              (crop (coded 200 300) 0 100 tile_size)
              (crop (coded 300 200) 100 0 tile_size))
    as (f & input_im & output_im & r & c & Hf & Hi & Ho & Ei & Eo).
  - now rewrite Hfiles.
  - now rewrite Hfiles.
  - destruct Hf as [<-|[]].
    change (lookup_file (join raw_input_path "a.tif") (files skewed_world))
      with (Some (coded 200 300)) in Hi.
    change (lookup_file (join raw_output_path "a.tif") (files skewed_world))
      with (Some (coded 300 200)) in Ho.
    injection Hi as <-. injection Ho as <-.
    apply crop_coded_offset in Ei; [|lia|lia].
    apply crop_coded_offset in Eo; [|lia|lia].
    lia.
Qed.

(** C9, as the code has it.  The shapes of the two images of a pair are
    never compared.  For a pair of images that load as arrays with a
    channel axis, whatever their numbers of rows and columns, each
    image is tiled on its own, the tiles are paired up to the shorter
    of the two lists, and, with the two tile directories in place, the
    pair is processed to the end, writing that many tile pairs. *)
Theorem process_file_completes_on_any_shapes (partition_name : string)
  (proc_file_index : nat) (file_name : string) (w : World)
  (input_im output_im : Image RGB) :
  lookup_file (join raw_output_path file_name) (files w) = Some output_im ->
  lookup_file (join raw_input_path file_name) (files w) = Some input_im ->
  existsb_string (proc_input_path partition_name) (dirs w) = true ->
  existsb_string (proc_output_path partition_name) (dirs w) = true ->
  exists input_tiles output_tiles w',
    tile_image input_im tile_size tile_stride = Ok input_tiles
    /\ tile_image output_im tile_size tile_stride = Ok output_tiles
    /\ process_file partition_name proc_file_index file_name w
       = (Ok (proc_file_index
              + Nat.min (List.length input_tiles) (List.length output_tiles)),
          w')
    /\ files w'
       = rev (writes_from partition_name proc_file_index
                (combine input_tiles output_tiles))
         ++ files w.
Proof.
  intros Ho Hi Din Dout.
  exists (tiles_of input_im), (tiles_of output_im). eexists.
  split; [apply tile_image_configured|].
  split; [apply tile_image_configured|].
  rewrite (@process_file_run partition_name proc_file_index file_name w
             input_im output_im Ho Hi Din Dout).
  rewrite length_combine. split; [reflexivity | apply files_write_all].
Qed.

Lemma process_file_completes_on_any_shapes_witness :
  lookup_file (join raw_output_path "a.tif") (files mismatched_world)
  = Some (plain 200 300 (255, 0, 0)%Z)
  /\ lookup_file (join raw_input_path "a.tif") (files mismatched_world)
     = Some (plain 200 200 (10, 20, 30)%Z)
  /\ existsb_string (proc_input_path TRAIN) (dirs mismatched_world) = true
  /\ existsb_string (proc_output_path TRAIN) (dirs mismatched_world) = true
  /\ exists n w', process_file TRAIN 0 "a.tif" mismatched_world = (Ok n, w').
Proof.
  assert (Ho : lookup_file (join raw_output_path "a.tif") (files mismatched_world)
               = Some (plain 200 300 (255, 0, 0)%Z)) by reflexivity.
  assert (Hi : lookup_file (join raw_input_path "a.tif") (files mismatched_world)
               = Some (plain 200 200 (10, 20, 30)%Z)) by reflexivity.
  assert (Din : existsb_string (proc_input_path TRAIN) (dirs mismatched_world)
                = true) by reflexivity.
  assert (Dout : existsb_string (proc_output_path TRAIN) (dirs mismatched_world)
                 = true) by reflexivity.
  split; [exact Ho|]. split; [exact Hi|]. split; [exact Din|].
  split; [exact Dout|].
  destruct (@process_file_completes_on_any_shapes TRAIN 0 "a.tif"
              mismatched_world _ _ Ho Hi Din Dout)
    as (input_tiles & output_tiles & w' & _ & _ & Hrun & _).
  eexists. exists w'. exact Hrun.
Defined.

(** C9, as the specification states it, fails: the pair of a 200 x 200
    image and a 200 x 300 label image is tiled and processed without an
    exception. *)
Lemma mismatched_pair_is_processed :
  ~ (forall (partition_name : string) (proc_file_index : nat)
            (file_name : string) (w : World) (input_im output_im : Image RGB),
       lookup_file (join raw_output_path file_name) (files w) = Some output_im ->
       lookup_file (join raw_input_path file_name) (files w) = Some input_im ->
       ~ same_shape input_im output_im ->
       exists e w',
         process_file partition_name proc_file_index file_name w = (Raise e, w')).
Proof.
  intro H.
  assert (Ho : lookup_file (join raw_output_path "a.tif") (files mismatched_world)
               = Some (plain 200 300 (255, 0, 0)%Z)) by reflexivity.
  assert (Hi : lookup_file (join raw_input_path "a.tif") (files mismatched_world)
               = Some (plain 200 200 (10, 20, 30)%Z)) by reflexivity.
  destruct (H TRAIN 0 "a.tif"%string mismatched_world _ _ Ho Hi) as (e & w' & He).
  - intros [_ Hc]. vm_compute in Hc. discriminate Hc.
  - rewrite (@process_file_run TRAIN 0 "a.tif" mismatched_world _ _ Ho Hi
               eq_refl eq_refl) in He.
    discriminate He.
Qed.

(** ** Partition split *)

Lemma py_int_floor (x : Q) : Qle 0 x -> py_int x = Qfloor x.
Proof.
  destruct x as [p q]. unfold Qle, py_int, Qfloor. simpl.
  intro H. apply Z.quot_div_nonneg; lia.
Qed.

Lemma clip_index_nonneg (n : nat) (k : Z) :
  (0 <= k)%Z -> clip_index n k = Nat.min (Z.to_nat k) n.
Proof.
  intro H. unfold clip_index. destruct (Z.ltb_spec k 0); [lia | reflexivity].
Qed.

Lemma py_int_scaled (n : nat) :
  py_int (Qmult (inject_Z (Z.of_nat n)) train_ratio) = Z.of_nat (3 * n / 4).
Proof.
  unfold py_int, Qmult, inject_Z, train_ratio.
  cbn [Qnum Qden]. change (Z.pos (1 * 4)) with 4%Z.
  rewrite Z.quot_div_nonneg by lia.
  rewrite Nat2Z.inj_div. f_equal. lia.
Qed.

(** *** The product in binary64 *)

Lemma digits2_pos_size (p : positive) : digits2_pos p = Pos.size p.
Proof. induction p; simpl; congruence. Qed.

Lemma digits_bounds (p : positive) :
  (2 ^ (Zpos (digits2_pos p) - 1) <= Zpos p < 2 ^ Zpos (digits2_pos p))%Z.
Proof.
  rewrite digits2_pos_size.
  pose proof (Pos.size_gt p) as Hgt. pose proof (Pos.size_le p) as Hle.
  apply Pos2Z.pos_lt_pos in Hgt. apply Pos2Z.pos_le_pos in Hle.
  rewrite Pos2Z.inj_pow in Hgt, Hle.
  split; [|exact Hgt].
  assert (E : (2 ^ Zpos (Pos.size p) = 2 * 2 ^ (Zpos (Pos.size p) - 1))%Z).
  { rewrite <- Z.pow_succ_r by lia. f_equal. lia. }
  rewrite E in Hle. change (Zpos p~0) with (2 * Zpos p)%Z in Hle. lia.
Qed.

Lemma digits_unique (p : positive) (a : Z) :
  (2 ^ (a - 1) <= Zpos p < 2 ^ a)%Z -> Zpos (digits2_pos p) = a.
Proof.
  intros [Hlo Hhi]. destruct (digits_bounds p) as [Dlo Dhi].
  set (d := Zpos (digits2_pos p)) in *.
  assert (Hd : (0 < d)%Z) by (unfold d; lia).
  assert (Ha : (0 < a)%Z).
  { destruct (Z.lt_ge_cases 0 a) as [H|H]; [exact H|].
    assert (2 ^ a <= 1)%Z.
    { destruct (Z.eq_dec a 0) as [->|]; [simpl; lia|].
      rewrite Z.pow_neg_r by lia. lia. }
    lia. }
  destruct (Z.lt_trichotomy d a) as [L|[E|G]]; [|exact E|].
  - assert (2 ^ d <= 2 ^ (a - 1))%Z by (apply Z.pow_le_mono_r; lia). lia.
  - assert (2 ^ a <= 2 ^ (d - 1))%Z by (apply Z.pow_le_mono_r; lia). lia.
Qed.

Lemma iter_pos_nat {A} (f : A -> A) (p : positive) (x : A) :
  iter_pos f p x = Nat.iter (Pos.to_nat p) f x.
Proof.
  revert x. induction p as [p IH|p IH|]; intro x; cbn [iter_pos].
  - rewrite !IH. rewrite Pos2Nat.inj_xI.
    replace (S (2 * Pos.to_nat p)) with (Pos.to_nat p + (Pos.to_nat p + 1)) by lia.
    rewrite !Nat.iter_add. reflexivity.
  - rewrite !IH. rewrite Pos2Nat.inj_xO.
    replace (2 * Pos.to_nat p) with (Pos.to_nat p + Pos.to_nat p) by lia.
    now rewrite Nat.iter_add.
  - reflexivity.
Qed.

Lemma shr_exact (k : nat) (q : positive) (m : Z) :
  m = (Zpos q * 2 ^ Z.of_nat k)%Z ->
  Nat.iter k shr_1 (Build_shr_record m false false)
  = Build_shr_record (Zpos q) false false.
Proof.
  revert m. induction k as [|k IH]; intros m Hm.
  - simpl in *. f_equal. lia.
  - rewrite Nat.iter_succ_r.
    assert (E : m = (2 * (Zpos q * 2 ^ Z.of_nat k))%Z).
    { rewrite Hm, Nat2Z.inj_succ, Z.pow_succ_r by lia. lia. }
    assert (Hpos : (0 < Zpos q * 2 ^ Z.of_nat k)%Z)
      by (apply Z.mul_pos_pos; [lia | apply Z.pow_pos_nonneg; lia]).
    destruct (Zpos q * 2 ^ Z.of_nat k)%Z as [|r|r] eqn:Er; try lia.
    rewrite E. change (2 * Zpos r)%Z with (Zpos r~0).
    cbn [shr_1 orb]. apply IH. reflexivity.
Qed.

(** Rounding a mantissa that is a 53-bit number times a power of two
    is exact. *)
Lemma binary_round_aux_exact (m q : positive) (e : Z) (k : nat) :
  Zpos m = (Zpos q * 2 ^ Z.of_nat k)%Z ->
  (2 ^ 52 <= Zpos q < 2 ^ 53)%Z ->
  (-1074 <= e + Z.of_nat k <= 971)%Z ->
  binary_round_aux 53 1024 false (Zpos m) e loc_Exact
  = S754_finite false q (e + Z.of_nat k).
Proof.
  intros Hm Hq He.
  assert (Dq : Zpos (digits2_pos q) = 53%Z) by (apply digits_unique; exact Hq).
  assert (Dm : Zpos (digits2_pos m) = (53 + Z.of_nat k)%Z).
  { apply digits_unique. rewrite Hm.
    replace (53 + Z.of_nat k - 1)%Z with (52 + Z.of_nat k)%Z by lia.
    rewrite !Z.pow_add_r by lia.
    assert (0 < 2 ^ Z.of_nat k)%Z by (apply Z.pow_pos_nonneg; lia).
    nia. }
  unfold binary_round_aux, shr_fexp.
  cbn [Zdigits2 shr_record_of_loc]. rewrite Dm.
  unfold fexp, emin.
  replace (Z.max (53 + Z.of_nat k + e - 53) (3 - 1024 - 53) - e)%Z
    with (Z.of_nat k) by lia.
  assert (Hshr : shr (Build_shr_record (Zpos m) false false) e (Z.of_nat k)
                 = (Build_shr_record (Zpos q) false false, (e + Z.of_nat k)%Z)).
  { destruct k as [|k].
    - simpl. f_equal; [|lia]. f_equal. simpl in Hm. lia.
    - assert (Ep : exists p, Z.of_nat (S k) = Zpos p /\ Pos.to_nat p = S k).
      { exists (Pos.of_succ_nat k). split; [rewrite Zpos_P_of_succ_nat; lia|].
        apply SuccNat2Pos.id_succ. }
      destruct Ep as (p & Ep & Ep').
      unfold shr. rewrite Ep. rewrite iter_pos_nat, Ep'.
      now rewrite (shr_exact (S k) q (Zpos m) Hm). }
  rewrite Hshr. cbn [shr_m loc_of_shr_record round_nearest_even Zdigits2].
  rewrite Dq.
  replace (Z.max (53 + (e + Z.of_nat k) - 53) (3 - 1024 - 53) - (e + Z.of_nat k))%Z
    with 0%Z by lia.
  cbn [shr shr_m].
  destruct (Z.leb_spec (e + Z.of_nat k) (1024 - 53)); [reflexivity | lia].
Qed.

Lemma iter_xO (j n : positive) :
  Zpos (Pos.iter xO n j) = (Zpos n * 2 ^ Zpos j)%Z.
Proof.
  rewrite Pos2Nat.inj_iter, <- (positive_nat_Z j).
  induction (Pos.to_nat j) as [|i IH];
    [cbn [nat_rect Z.of_nat]; now rewrite Z.pow_0_r, Z.mul_1_r|].
  cbn [nat_rect]. rewrite Nat2Z.inj_succ, Z.pow_succ_r by lia.
  rewrite Pos2Z.inj_xO, IH. ring.
Qed.

Lemma scale_to_53 (x d : Z) :
  (1 <= d <= 53)%Z -> (2 ^ (d - 1) <= x < 2 ^ d)%Z ->
  (2 ^ 52 <= x * 2 ^ (53 - d) < 2 ^ 53)%Z.
Proof.
  intros Hd [Hlo Hhi].
  assert (Ht : (0 < 2 ^ (53 - d))%Z) by (apply Z.pow_pos_nonneg; lia).
  assert (E52 : (2 ^ 52 = 2 ^ (d - 1) * 2 ^ (53 - d))%Z)
    by (rewrite <- Z.pow_add_r by lia; f_equal; lia).
  assert (E53 : (2 ^ 53 = 2 ^ d * 2 ^ (53 - d))%Z)
    by (rewrite <- Z.pow_add_r by lia; f_equal; lia).
  rewrite E52, E53. split.
  - apply Z.mul_le_mono_nonneg_r; lia.
  - apply Z.mul_lt_mono_pos_r; lia.
Qed.

(** A positive integer below [2^53] converts to binary64 without
    rounding: its mantissa is the integer shifted to 53 bits. *)
Lemma float_of_int_exact (n : positive) :
  (Zpos n < 2 ^ 53)%Z ->
  exists q,
    float_of_int (Zpos n)
    = Ok (S754_finite false q (Zpos (digits2_pos n) - 53))
    /\ Zpos q = (Zpos n * 2 ^ (53 - Zpos (digits2_pos n)))%Z
    /\ (2 ^ 52 <= Zpos q < 2 ^ 53)%Z.
Proof.
  intro Hn. destruct (digits_bounds n) as [Dlo Dhi].
  set (d := Zpos (digits2_pos n)) in *.
  assert (Hd : (1 <= d <= 53)%Z).
  { split; [unfold d; lia|].
    destruct (Z.le_gt_cases d 53) as [H|H]; [exact H|].
    assert (2 ^ 53 <= 2 ^ (d - 1))%Z by (apply Z.pow_le_mono_r; lia). lia. }
  assert (Hq : exists q, Zpos q = (Zpos n * 2 ^ (53 - d))%Z
                         /\ shl_align n 0 (d - 53) = (q, (d - 53)%Z)).
  { unfold shl_align. rewrite Z.sub_0_r.
    destruct (d - 53)%Z as [|j|j] eqn:Ej; try lia.
    - exists n. split; [|reflexivity].
      replace (53 - d)%Z with 0%Z by lia. simpl. lia.
    - exists (Pos.iter xO n j). split; [|reflexivity].
      rewrite iter_xO. f_equal. f_equal. lia. }
  destruct Hq as (q & Eq & Hal).
  assert (Bq : (2 ^ 52 <= Zpos q < 2 ^ 53)%Z).
  { rewrite Eq. apply scale_to_53; [exact Hd | now split]. }
  exists q. split; [|split; [exact Eq | exact Bq]].
  unfold float_of_int, binary_normalize, binary_round.
  fold d. unfold fexp, emin.
  replace (Z.max (d + 0 - 53) (3 - 1024 - 53)) with (d - 53)%Z by lia.
  rewrite Hal.
  assert (E0 : Zpos q = (Zpos q * 2 ^ Z.of_nat 0)%Z)
    by (cbn [Z.of_nat]; now rewrite Z.pow_0_r, Z.mul_1_r).
  rewrite (binary_round_aux_exact q q (d - 53) 0 E0 Bq)
    by (cbn [Z.of_nat]; lia).
  cbn [Z.of_nat]. now rewrite Z.add_0_r.
Qed.

(** Line 123 for the configured ratio: the product with 0.75 is exact,
    so the count is [3 * n / 4] rounded down. *)
Lemma nb_train_files_configured (n : nat) :
  (3 * Z.of_nat n < 2 ^ 53)%Z ->
  nb_train_files_binary64 train_ratio_binary64 n = Ok (Z.of_nat (3 * n / 4)).
Proof.
  intro Hn. destruct n as [|n]; [reflexivity|].
  unfold nb_train_files_binary64.
  set (p := Pos.of_succ_nat n).
  assert (Ep : Z.of_nat (S n) = Zpos p) by (unfold p; now rewrite Zpos_P_of_succ_nat, Nat2Z.inj_succ).
  rewrite Ep in *.
  destruct (float_of_int_exact p ltac:(lia)) as (q & Hf & Eq & Bq).
  rewrite Hf. unfold train_ratio_binary64. cbn [SFmul xorb].
  destruct (digits_bounds p) as [Dlo Dhi].
  destruct (digits_bounds (3 * p)) as [Tlo Thi].
  set (d := Zpos (digits2_pos p)) in *.
  set (D := Zpos (digits2_pos (3 * p))) in *.
  rewrite Pos2Z.inj_mul in Tlo, Thi.
  assert (Hd : (1 <= d)%Z) by (unfold d; lia).
  assert (HD : (d <= D <= 53)%Z).
  { split.
    - destruct (Z.le_gt_cases d D) as [H|H]; [exact H|].
      assert (2 ^ D <= 2 ^ (d - 1))%Z by (apply Z.pow_le_mono_r; unfold D; lia).
      lia.
    - destruct (Z.le_gt_cases D 53) as [H|H]; [exact H|].
      assert (2 ^ 53 <= 2 ^ (D - 1))%Z by (apply Z.pow_le_mono_r; lia). lia. }
  assert (P3 : (0 < 3 * Zpos p * 2 ^ (53 - D))%Z)
    by (apply Z.mul_pos_pos; [lia | apply Z.pow_pos_nonneg; lia]).
  destruct (3 * Zpos p * 2 ^ (53 - D))%Z as [|q3|q3] eqn:E3; try lia.
  assert (B3 : (2 ^ 52 <= Zpos q3 < 2 ^ 53)%Z).
  { rewrite <- E3. apply scale_to_53; [lia | now split]. }
  rewrite (binary_round_aux_exact (q * 6755399441055744) q3 (d - 53 + -53)
             (Z.to_nat (51 + D - d))).
  - cbn [int_of_float cond_Zopp]. f_equal.
    rewrite Z2Nat.id by lia.
    replace (d - 53 + -53 + (51 + D - d))%Z with (- (55 - D))%Z by lia.
    rewrite Z.shiftl_div_pow2 by lia. rewrite Z.opp_involutive.
    rewrite <- E3.
    replace (55 - D)%Z with (2 + (53 - D))%Z by lia.
    rewrite Z.pow_add_r by lia.
    rewrite Z.div_mul_cancel_r
      by (try (apply Z.pow_nonzero; lia); lia).
    rewrite Nat2Z.inj_div, Nat2Z.inj_mul, Ep. reflexivity.
  - rewrite Pos2Z.inj_mul, Eq, <- E3, Z2Nat.id by lia.
    change (Zpos 6755399441055744) with (3 * 2 ^ 51)%Z.
    replace (53 - d)%Z with ((53 - D) + (D - d))%Z by lia.
    replace (51 + D - d)%Z with (51 + (D - d))%Z by lia.
    rewrite !Z.pow_add_r by lia. ring.
  - exact B3.
  - rewrite Z2Nat.id by lia. lia.
Qed.

Lemma slice_of_cut {A} (k : nat) (l : list A) :
  k <= List.length l ->
  slice_to (Z.of_nat k) l = firstn k l /\ slice_from (Z.of_nat k) l = skipn k l.
Proof.
  intro H. unfold slice_to, slice_from.
  rewrite clip_index_nonneg by lia.
  rewrite Nat2Z.id, Nat.min_l by exact H. now split.
Qed.

(** C5, as the code has it.  The first [k] file names, in their order,
    go to training and the rest, in their order, to validation, where
    [k] is [int(nb_files * train_ratio)] with the product taken in
    binary64.  For the configured ratio 0.75 the product is exact and
    [k] is [floor(0.75 * n)], that is [3 * n / 4] rounded down: three
    of four files go to training and one to validation. *)
Theorem split_file_names_spec (file_names : list string) :
  (3 * Z.of_nat (List.length file_names) < 2 ^ 53)%Z ->
  let n := List.length file_names in
  split_file_names_binary64 train_ratio_binary64 file_names
  = Ok (firstn (3 * n / 4) file_names, skipn (3 * n / 4) file_names)
  /\ Qeq (Q_of_float train_ratio_binary64) train_ratio
  /\ Z.of_nat (3 * n / 4) = Qfloor (Qmult (inject_Z (Z.of_nat n)) train_ratio)
  /\ split_file_names train_ratio file_names
     = (firstn (3 * n / 4) file_names, skipn (3 * n / 4) file_names)
  /\ firstn (3 * n / 4) file_names ++ skipn (3 * n / 4) file_names = file_names
  /\ List.length (firstn (3 * n / 4) file_names) = 3 * n / 4
  /\ List.length (skipn (3 * n / 4) file_names) = n - 3 * n / 4
  /\ (n = 4 -> 3 * n / 4 = 3 /\ n - 3 * n / 4 = 1)
  /\ (forall (ratio : spec_float) (k : Z),
        nb_train_files_binary64 ratio n = Ok k ->
        split_file_names_binary64 ratio file_names
        = Ok (slice_to k file_names, slice_from k file_names)
        /\ slice_to k file_names ++ slice_from k file_names = file_names
        /\ ((0 <= k <= Z.of_nat n)%Z ->
            slice_to k file_names = firstn (Z.to_nat k) file_names
            /\ slice_from k file_names = skipn (Z.to_nat k) file_names)).
Proof.
  intros Hn n.
  assert (Hq : 3 * n / 4 <= n) by (apply Nat.Div0.div_le_upper_bound; lia).
  destruct (slice_of_cut (3 * n / 4) file_names Hq) as [St Sf].
  split; [|split; [|split; [|split; [|split; [|split; [|split; [|split]]]]]]].
  - unfold split_file_names_binary64. fold n.
    rewrite (nb_train_files_configured n Hn). now rewrite St, Sf.
  - reflexivity.
  - rewrite <- py_int_floor; [symmetry; apply py_int_scaled|].
    unfold train_ratio, Qle, Qmult, inject_Z. cbn [Qnum Qden]. lia.
  - unfold split_file_names. fold n. rewrite py_int_scaled. now rewrite St, Sf.
  - apply firstn_skipn.
  - rewrite length_firstn. fold n. lia.
  - rewrite length_skipn. reflexivity.
  - intros ->. split; reflexivity.
  - intros ratio k Hk. unfold split_file_names_binary64. fold n. rewrite Hk.
    split; [reflexivity|]. split.
    + unfold slice_to, slice_from. apply firstn_skipn.
    + intro Hb. rewrite <- (Z2Nat.id k) at 1 3 by lia.
      apply slice_of_cut. fold n. lia.
Qed.

Lemma split_file_names_spec_witness :
  (3 * Z.of_nat (List.length ["a.tif"; "b.tif"; "c.tif"; "d.tif"]%string)
   < 2 ^ 53)%Z
  /\ split_file_names_binary64 train_ratio_binary64
       ["a.tif"; "b.tif"; "c.tif"; "d.tif"]%string
     = Ok (["a.tif"; "b.tif"; "c.tif"]%string, ["d.tif"]%string).
Proof.
  assert (H : (3 * Z.of_nat (List.length ["a.tif"; "b.tif"; "c.tif"; "d.tif"]%string)
               < 2 ^ 53)%Z) by (vm_compute; reflexivity).
  split; [exact H|].
  exact (proj1 (split_file_names_spec
                  ["a.tif"; "b.tif"; "c.tif"; "d.tif"]%string H)).
Defined.

(** C5, as the specification states it, fails: the count of the train
    partition is not [floor(r * n)] for every ratio.  For the binary64
    value of 0.7 and ten files the product rounds up to 7.0 and seven
    files go to training, while the floor of the exact product of that
    value with 10 is 6.  For the binary64 value nearest to 0.58 and
    fifty files the code gives 28, while [floor(0.58 * 50)] is 29. *)
Lemma split_cut_is_not_floor_of_product :
  ~ (forall (ratio : spec_float) (file_names : list string),
       valid_binary 53 1024 ratio = true ->
       split_file_names_binary64 ratio file_names
       = Ok (firstn (Z.to_nat (Qfloor (Qmult (inject_Z (Z.of_nat (List.length file_names)))
                                             (Q_of_float ratio))))
                    file_names,
             skipn (Z.to_nat (Qfloor (Qmult (inject_Z (Z.of_nat (List.length file_names)))
                                            (Q_of_float ratio))))
                   file_names))
  /\ nb_train_files_binary64 ratio_0_7 10 = Ok 7%Z
  /\ Qfloor (Qmult (inject_Z 10) (Q_of_float ratio_0_7)) = 6%Z
  /\ Qle (Qabs (Qminus (Q_of_float ratio_0_58) (58 # 100))) (1 # 2 ^ 54)
  /\ nb_train_files_binary64 ratio_0_58 50 = Ok 28%Z
  /\ Qfloor (Qmult (inject_Z 50) (58 # 100)) = 29%Z.
Proof.
  split; [|repeat split; vm_compute; congruence].
  intro H.
  specialize (H ratio_0_7 (repeat "a.tif"%string 10) eq_refl).
  vm_compute in H. discriminate H.
Qed.

(** ** Directory creation *)

(** C8, as the code has it.  [_makedirs] never raises: it returns
    normally whether the directory was created, existed already, or the
    operating system refused to create it for any other reason, and in
    the last two cases it leaves the file system as it was; calling it
    again changes nothing. *)
Theorem makedirs_wrapper_swallows_every_error (path : string) (w : World) :
  fst (_makedirs path w) = Ok tt
  /\ (forall e w', makedirs path w = (Raise e, w') ->
        _makedirs path w = (Ok tt, w))
  /\ _makedirs path (snd (_makedirs path w)) = (Ok tt, snd (_makedirs path w)).
Proof.
  unfold _makedirs, try_except_pass, makedirs.
  destruct (existsb_string path (dirs w)) eqn:Ex.
  - simpl. rewrite Ex. split; [|split]; reflexivity.
  - destruct (mkdir_refusal w path) as [e0|] eqn:Er.
    + simpl. rewrite Ex, Er. split; [|split]; reflexivity.
    + simpl. rewrite String.eqb_refl. simpl.
      split; [|split]; try reflexivity.
      intros e w' H. discriminate.
Qed.

(** C8, as the specification states it, fails: on a file system that
    refuses the creation with a permission error, [makedirs] raises and
    [_makedirs] returns normally. *)
Lemma makedirs_wrapper_hides_permission_error :
  ~ (forall (path : string) (w w' : World) (e : exn),
       makedirs path w = (Raise e, w') -> e <> FileExistsError ->
       fst (_makedirs path w) = Raise e).
Proof.
  intro H.
  specialize (H model_path read_only_world read_only_world PermissionError).
  assert (Hm : makedirs model_path read_only_world
               = (Raise PermissionError, read_only_world)) by reflexivity.
  specialize (H Hm ltac:(discriminate)).
  discriminate H.
Qed.

(** ** Batch pipeline adapter *)

Lemma make_input_output_generator_output (next_batch : Generator -> nat -> Batch.t RGB)
  (base_path : string) (batch_size n : nat) :
  snd (make_input_output_generator next_batch base_path batch_size n)
  = rgb_to_one_hot_batch
      (next_batch (make_data_generator next_batch (join base_path INPUT)
                                       batch_size true true false) n).
Proof. reflexivity. Qed.

(** C10 fails on the code.  The generator of the output element is made
    over [base_path/input]: on a library that yields a Clutter pixel
    from [base_path/output] and a pixel that is no key from
    [base_path/input], the output element is the one-hot vector of
    class 0, not that of Clutter, and the directory read is not
    [base_path/output]. *)
Theorem make_input_output_generator_reads_input :
  let base_path := join proc_data_path TRAIN in
  let label_gen :=
    make_data_generator demo_next_batch (join base_path OUTPUT) 1 true true false in
  snd (make_input_output_generator demo_next_batch base_path 1 0)
  = [[[one_hot nb_labels 0]]]
  /\ rgb_to_one_hot_batch (demo_next_batch label_gen 0)
     = [[[one_hot nb_labels 5]]]
  /\ snd (make_input_output_generator demo_next_batch base_path 1 0)
     <> rgb_to_one_hot_batch (demo_next_batch label_gen 0)
  /\ (forall next_batch batch_size n,
        snd (make_input_output_generator next_batch base_path batch_size n)
        = rgb_to_one_hot_batch
            (next_batch (make_data_generator next_batch
                           "/opt/data/processed_data/vaihingen/train/input"
                           batch_size true true false) n)).
Proof.
  repeat split; try (vm_compute; reflexivity).
  vm_compute. discriminate.
Qed.

(* ================================================================== *)
(** * Further properties *)

(** ** More on the codec *)

Module BatchMore.
Import Batch.

Lemma all_map {A B} (P : B -> Prop) (f : A -> B) (b : t A) :
  (forall x, P (f x)) -> all P (map f b).
Proof.
  intro H. unfold all, map.
  apply Forall_forall. intros plane Hp.
  apply in_map_iff in Hp. destruct Hp as (plane0 & <- & _).
  apply Forall_forall. intros row Hr.
  apply in_map_iff in Hr. destruct Hr as (row0 & <- & _).
  apply Forall_forall. intros x Hx.
  apply in_map_iff in Hx. destruct Hx as (x0 & <- & _). apply H.
Qed.

Lemma traverse1_map {A B C} (f : B -> option C) (g : A -> B) (h : A -> C)
  (l : list A) :
  (forall x, f (g x) = Some (h x)) ->
  traverse1 f (List.map g l) = Some (List.map h l).
Proof.
  intro H. unfold traverse1.
  induction l as [|x l IH]; simpl; [reflexivity|].
  now rewrite H, IH.
Qed.

Lemma traverse_map {A B C} (f : B -> option C) (g : A -> B) (h : A -> C)
  (b : t A) :
  (forall x, f (g x) = Some (h x)) ->
  traverse f (map g b) = Some (map h b).
Proof.
  intro H. unfold traverse, map.
  apply traverse1_map. intro plane.
  apply traverse1_map. intro row.
  now apply traverse1_map.
Qed.

Lemma traverse1_some_iff {A B} (f : A -> option B) (l : list A) :
  (exists r, traverse1 f l = Some r) <-> Forall (fun x => f x <> None) l.
Proof.
  unfold traverse1. induction l as [|x l IH]; simpl.
  - split; [constructor | now exists []].
  - destruct (f x) as [y|] eqn:E.
    + split.
      * intros (r & Hr). constructor; [congruence|].
        apply IH. destruct (sequence1 (List.map f l)); [eauto | discriminate].
      * intro H. inversion H as [|? ? _ Hl]; subst.
        apply IH in Hl. destruct Hl as (r & ->). eauto.
    + split; [intros (r & Hr); discriminate|].
      intro H. inversion H; subst. congruence.
Qed.

Lemma traverse_some_iff {A B} (f : A -> option B) (b : t A) :
  (exists r, traverse f b = Some r) <-> all (fun x => f x <> None) b.
Proof.
  unfold traverse, all.
  etransitivity; [apply traverse1_some_iff|].
  split; apply Forall_impl; intro plane.
  all: intro H.
  - assert (H' : exists r, traverse1 (traverse1 f) plane = Some r)
      by (destruct (traverse1 (traverse1 f) plane); [eauto | congruence]).
    apply traverse1_some_iff in H'.
    revert H'. apply Forall_impl. intros row Hrow.
    apply traverse1_some_iff.
    destruct (traverse1 f row); [eauto | congruence].
  - assert (H' : exists r, traverse1 (traverse1 f) plane = Some r).
    { apply traverse1_some_iff. revert H. apply Forall_impl. intros row Hrow.
      apply traverse1_some_iff in Hrow. destruct Hrow as (r & ->). discriminate. }
    destruct H' as (r & ->). discriminate.
Qed.

End BatchMore.

Lemma first_match_from_is_key (keys : list RGB) (p : RGB) (s : nat) :
  first_match_from s keys p = None <-> is_key keys p = false.
Proof.
  unfold is_key. revert s. induction keys as [|k keys IH]; intro s; simpl.
  - tauto.
  - destruct (rgb_eqb p k); simpl; [split; discriminate | apply IH].
Qed.

Lemma is_key_In (keys : list RGB) (p : RGB) :
  is_key keys p = true <-> In p keys.
Proof.
  unfold is_key. rewrite existsb_exists. split.
  - intros (k & Hk & E). apply rgb_eqb_eq in E. now subst.
  - intro H. exists p. split; [exact H | apply rgb_eqb_refl].
Qed.

Lemma first_key_index_valid (p : RGB) : valid_label (first_key_index label_keys p).
Proof.
  unfold first_key_index, valid_label.
  destruct (first_match_from 0 label_keys p) as [i|] eqn:E.
  - apply first_match_from_Some in E. destruct E as (_ & Hn & _).
    assert (i - 0 < List.length label_keys) by (apply nth_error_Some; congruence).
    unfold nb_labels. lia.
  - unfold nb_labels. simpl. lia.
Qed.

Lemma clamp_label_valid (l : Z) : valid_label l -> clamp_label l = l.
Proof.
  unfold valid_label, clamp_label. intro H.
  destruct (Z.leb_spec 0 l); [|lia].
  destruct (Z.ltb_spec l (Z.of_nat nb_labels)); [reflexivity | lia].
Qed.

Lemma clamp_label_invalid (l : Z) : ~ valid_label l -> clamp_label l = 0%Z.
Proof.
  unfold valid_label, clamp_label. intro H.
  destruct (Z.leb_spec 0 l); [|reflexivity].
  destruct (Z.ltb_spec l (Z.of_nat nb_labels)); [lia | reflexivity].
Qed.

Lemma valid_label_dec (l : Z) : valid_label l \/ ~ valid_label l.
Proof. unfold valid_label. lia. Qed.

Lemma label_to_rgb_pixel_invalid (l : Z) :
  ~ valid_label l -> label_to_rgb_pixel label_keys l = (0, 0, 0)%Z.
Proof.
  unfold valid_label, nb_labels, label_to_rgb_pixel, enumerate. intro H.
  rewrite lookup_loop.
  destruct (Z.leb_spec (Z.of_nat 0) l); [|reflexivity].
  destruct (Z.ltb_spec l (Z.of_nat (0 + List.length label_keys)));
    [lia | reflexivity].
Qed.

(** X1.  Decoding an RGB batch to labels and encoding it back keeps
    every pixel that is a key of the table and turns every other pixel
    into the key of class 0, white. *)
Theorem label_to_rgb_after_rgb_to_label (rgb_batch : Batch.t RGB) :
  label_to_rgb_batch (rgb_to_label_batch rgb_batch)
  = Batch.map (fun p => if is_key label_keys p then p else (255, 255, 255)%Z)
              rgb_batch
  /\ (forall p, is_key label_keys p = true <-> In p label_keys).
Proof.
  split; [|intro p; apply is_key_In].
  unfold label_to_rgb_batch, rgb_to_label_batch.
  rewrite rgb_to_label_batch_pointwise, label_to_rgb_batch_pointwise.
  rewrite BatchFacts.map_map3. apply BatchFacts.map_ext3. intro p.
  rewrite rgb_to_label_pixel_first by apply label_keys_NoDup.
  unfold first_key_index.
  destruct (first_match_from 0 label_keys p) as [i|] eqn:E.
  - assert (Hk : is_key label_keys p = true).
    { destruct (is_key label_keys p) eqn:Ek; [reflexivity|].
      apply (first_match_from_is_key label_keys p 0) in Ek. congruence. }
    rewrite Hk.
    apply first_match_from_Some in E. destruct E as (_ & Hn & _).
    rewrite Nat.sub_0_r in Hn.
    assert (Hi : (0 <= Z.of_nat i < Z.of_nat (List.length label_keys))%Z).
    { assert (i < List.length label_keys) by (apply nth_error_Some; congruence).
      lia. }
    pose proof (@label_to_rgb_pixel_nth label_keys (Z.of_nat i) Hi) as Hp.
    rewrite Nat2Z.id in Hp. congruence.
  - apply first_match_from_is_key in E. rewrite E. reflexivity.
Qed.

Lemma rgb_to_label_pixel_valid (p : RGB) :
  valid_label (rgb_to_label_pixel label_keys p).
Proof.
  rewrite rgb_to_label_pixel_first by apply label_keys_NoDup.
  apply first_key_index_valid.
Qed.

Lemma rgb_to_label_batch_valid (rgb_batch : Batch.t RGB) :
  Batch.all valid_label (rgb_to_label_batch rgb_batch).
Proof.
  unfold rgb_to_label_batch. rewrite rgb_to_label_batch_pointwise.
  apply BatchMore.all_map. exact rgb_to_label_pixel_valid.
Qed.

(** X2.  [rgb_to_label_batch] only produces indices the table covers,
    whatever the pixels are. *)
Theorem rgb_to_label_batch_in_range (rgb_batch : Batch.t RGB) :
  Batch.all valid_label (rgb_to_label_batch rgb_batch).
Proof.
  unfold rgb_to_label_batch. rewrite rgb_to_label_batch_pointwise.
  apply BatchMore.all_map. intro p. apply rgb_to_label_pixel_valid.
Qed.

Lemma rgb_label_pixel_clamp (l : Z) :
  rgb_to_label_pixel label_keys (label_to_rgb_pixel label_keys l)
  = clamp_label l.
Proof.
  destruct (valid_label_dec l) as [Hl|Hl].
  - rewrite clamp_label_valid by exact Hl.
    apply rgb_label_pixel_round_trip; [apply label_keys_NoDup | exact Hl].
  - rewrite clamp_label_invalid, label_to_rgb_pixel_invalid by exact Hl.
    reflexivity.
Qed.

Lemma rgb_label_batch_clamp (label_batch : Batch.t Z) :
  rgb_to_label_batch (label_to_rgb_batch label_batch)
  = Batch.map clamp_label label_batch.
Proof.
  unfold rgb_to_label_batch, label_to_rgb_batch.
  rewrite label_to_rgb_batch_pointwise, rgb_to_label_batch_pointwise.
  rewrite BatchFacts.map_map3. apply BatchFacts.map_ext3.
  exact rgb_label_pixel_clamp.
Qed.

(** X3.  [label_to_rgb_batch] paints an index the table does not cover
    black, the zeros the loop starts from; decoded again, black is no
    key, so the index comes back as 0, while a covered index comes back
    as itself. *)
Theorem rgb_to_label_after_label_to_rgb (label_batch : Batch.t Z) :
  rgb_to_label_batch (label_to_rgb_batch label_batch)
  = Batch.map clamp_label label_batch
  /\ label_to_rgb_batch label_batch
     = Batch.map (fun l => if ((0 <=? l) && (l <? Z.of_nat nb_labels))%Z
                           then nth (Z.to_nat l) label_keys (0, 0, 0)%Z
                           else (0, 0, 0)%Z) label_batch.
Proof.
  unfold rgb_to_label_batch, label_to_rgb_batch.
  rewrite label_to_rgb_batch_pointwise, rgb_to_label_batch_pointwise.
  rewrite BatchFacts.map_map3.
  split; apply BatchFacts.map_ext3; intro l.
  - apply rgb_label_pixel_clamp.
  - unfold label_to_rgb_pixel, enumerate. rewrite lookup_loop.
    rewrite Nat.sub_0_r. reflexivity.
Qed.

Lemma argmax_label_to_one_hot_pixel (l : Z) :
  option_map Z.of_nat (argmax (label_to_one_hot_pixel label_keys l))
  = Some (clamp_label l).
Proof.
  rewrite label_to_one_hot_pixel_one_hot.
  destruct (valid_label_dec l) as [Hl|Hl].
  - rewrite clamp_label_valid by exact Hl. now apply argmax_one_hot.
  - rewrite clamp_label_invalid by exact Hl.
    rewrite one_hot_out_of_range by exact Hl. reflexivity.
Qed.

Lemma one_hot_label_batch_clamp (label_batch : Batch.t Z) :
  one_hot_to_label_batch (label_to_one_hot_batch label_batch)
  = Some (Batch.map clamp_label label_batch).
Proof.
  unfold one_hot_to_label_batch, label_to_one_hot_batch.
  rewrite label_to_one_hot_batch_pointwise.
  apply BatchMore.traverse_map. exact argmax_label_to_one_hot_pixel.
Qed.

(** X4.  For every label batch, covered or not, expanding to one-hot
    vectors and taking the arg-max gives the batch with every index
    the table does not cover replaced by 0: the all-zero vector of such
    an index has its first maximum at channel 0. *)
Theorem one_hot_to_label_after_label_to_one_hot (label_batch : Batch.t Z) :
  one_hot_to_label_batch (label_to_one_hot_batch label_batch)
  = Some (Batch.map clamp_label label_batch)
  /\ (forall l, valid_label l -> clamp_label l = l)
  /\ (forall l, ~ valid_label l -> clamp_label l = 0%Z).
Proof.
  split; [|split; [exact clamp_label_valid | exact clamp_label_invalid]].
  unfold one_hot_to_label_batch, label_to_one_hot_batch.
  rewrite label_to_one_hot_batch_pointwise.
  apply BatchMore.traverse_map. exact argmax_label_to_one_hot_pixel.
Qed.

Lemma one_hot_is_one_hot_at (nb : nat) (l : Z) :
  (0 <= l < Z.of_nat nb)%Z -> one_hot_at nb (Z.to_nat l) (one_hot nb l).
Proof.
  intro Hl. split; [lia|]. intro j. rewrite nth_error_one_hot.
  destruct (j <? nb); [|reflexivity].
  destruct (Z.eqb_spec l (Z.of_nat j)), (Nat.eqb_spec j (Z.to_nat l));
    try reflexivity; lia.
Qed.

Lemma rgb_to_one_hot_batch_pointwise (rgb_batch : Batch.t RGB) :
  rgb_to_one_hot_batch rgb_batch
  = Batch.map (fun p => one_hot nb_labels (first_key_index label_keys p))
              rgb_batch.
Proof.
  unfold rgb_to_one_hot_batch, rgb_to_one_hot_batch_with.
  rewrite label_to_one_hot_batch_pointwise, rgb_to_label_batch_pointwise.
  rewrite BatchFacts.map_map3. apply BatchFacts.map_ext3. intro p.
  rewrite label_to_one_hot_pixel_one_hot.
  now rewrite rgb_to_label_pixel_first by apply label_keys_NoDup.
Qed.

Lemma rgb_to_one_hot_batch_one_hot (rgb_batch : Batch.t RGB) :
  Batch.all (fun v => exists i, one_hot_at nb_labels i v)
            (rgb_to_one_hot_batch rgb_batch).
Proof.
  rewrite rgb_to_one_hot_batch_pointwise. apply BatchMore.all_map. intro p.
  exists (Z.to_nat (first_key_index label_keys p)).
  apply one_hot_is_one_hot_at. apply first_key_index_valid.
Qed.

Lemma one_hot_to_label_of_rgb_to_one_hot (rgb_batch : Batch.t RGB) :
  one_hot_to_label_batch (rgb_to_one_hot_batch rgb_batch)
  = Some (rgb_to_label_batch rgb_batch).
Proof.
  unfold rgb_to_one_hot_batch, rgb_to_one_hot_batch_with.
  fold label_to_one_hot_batch. fold rgb_to_label_batch.
  rewrite one_hot_label_batch_clamp.
  f_equal. apply BatchFacts.map_id_on with (P := valid_label).
  - exact clamp_label_valid.
  - apply rgb_to_label_batch_valid.
Qed.

(** X5.  [rgb_to_one_hot_batch] gives every pixel the one-hot vector
    of the index of its key, so every vector it returns has
    [nb_labels] channels with exactly one 1, also for a pixel that is
    no key; its arg-max is [rgb_to_label_batch]. *)
Theorem rgb_to_one_hot_batch_spec (rgb_batch : Batch.t RGB) :
  rgb_to_one_hot_batch rgb_batch
  = Batch.map (fun p => one_hot nb_labels (first_key_index label_keys p))
              rgb_batch
  /\ Batch.all (fun v => exists i, one_hot_at nb_labels i v)
               (rgb_to_one_hot_batch rgb_batch)
  /\ one_hot_to_label_batch (rgb_to_one_hot_batch rgb_batch)
     = Some (rgb_to_label_batch rgb_batch).
Proof.
  split; [apply rgb_to_one_hot_batch_pointwise|]. split.
  - apply rgb_to_one_hot_batch_one_hot.
  - apply one_hot_to_label_of_rgb_to_one_hot.
Qed.

(** X6.  [one_hot_to_rgb_batch] after [label_to_one_hot_batch] is
    [label_to_rgb_batch] of the batch with uncovered indices replaced
    by 0, and so is the round through RGB and one-hot: an uncovered
    index, black when painted directly, comes out white. *)
Theorem one_hot_to_rgb_after_label_to_one_hot (label_batch : Batch.t Z) :
  one_hot_to_rgb_batch (label_to_one_hot_batch label_batch)
  = Some (label_to_rgb_batch (Batch.map clamp_label label_batch))
  /\ one_hot_to_rgb_batch (rgb_to_one_hot_batch (label_to_rgb_batch label_batch))
     = Some (label_to_rgb_batch (Batch.map clamp_label label_batch)).
Proof.
  unfold one_hot_to_rgb_batch. split.
  - now rewrite one_hot_label_batch_clamp.
  - rewrite one_hot_to_label_of_rgb_to_one_hot.
    now rewrite rgb_label_batch_clamp.
Qed.

Lemma traverse1_all {A B} (P : A -> Prop) (Q : B -> Prop) (f : A -> option B)
  (l : list A) (r : list B) :
  (forall x y, P x -> f x = Some y -> Q y) ->
  Forall P l -> Batch.traverse1 f l = Some r -> Forall Q r.
Proof.
  intros Hf Hl. revert r. unfold Batch.traverse1.
  induction Hl as [|x l Hx _ IH]; intros r Hr; simpl in Hr.
  - inversion Hr. constructor.
  - destruct (f x) as [y|] eqn:E; [|discriminate].
    destruct (Batch.sequence1 (List.map f l)) as [ys|]; [|discriminate].
    inversion Hr; subst. constructor; [exact (Hf x y Hx E) | now apply IH].
Qed.

Lemma traverse_all {A B} (P : A -> Prop) (Q : B -> Prop) (f : A -> option B)
  (b : Batch.t A) (r : Batch.t B) :
  (forall x y, P x -> f x = Some y -> Q y) ->
  Batch.all P b -> Batch.traverse f b = Some r -> Batch.all Q r.
Proof.
  intros Hf Hb Hr. unfold Batch.all, Batch.traverse in *.
  apply (@traverse1_all _ _ (Forall (Forall P)) (Forall (Forall Q))
           (Batch.traverse1 (Batch.traverse1 f)) b r); try assumption.
  intros plane plane' Hp Hp'.
  apply (@traverse1_all _ _ (Forall P) (Forall Q)
           (Batch.traverse1 f) plane plane'); try assumption.
  intros row row' Hrow Hrow'.
  now apply (@traverse1_all _ _ P Q f row row').
Qed.

Lemma argmax_bound (v : list Z) (i : nat) :
  argmax v = Some i -> i < List.length v.
Proof.
  intro H. apply argmax_spec in H. destruct H as (m & Hm & _).
  apply nth_error_Some. congruence.
Qed.

(** X7.  [one_hot_to_label_batch] fails on a batch one of whose pixels
    has no channel at all, and on a batch whose vectors all have the
    same positive number [K] of channels it returns an index below [K]
    for every pixel. *)
Theorem one_hot_to_label_batch_fails_on_empty_axis
  (one_hot_batch : Batch.t (list Z)) :
  ((exists plane row, In plane one_hot_batch /\ In row plane /\ In [] row) ->
   one_hot_to_label_batch one_hot_batch = None)
  /\ (forall K : nat,
        0 < K ->
        Batch.all (fun v => List.length v = K) one_hot_batch ->
        exists labels,
          one_hot_to_label_batch one_hot_batch = Some labels
          /\ Batch.all (fun l => (0 <= l < Z.of_nat K)%Z) labels).
Proof.
  assert (Hiff : (exists labels, one_hot_to_label_batch one_hot_batch = Some labels)
                 <-> Batch.all (fun v => v <> []) one_hot_batch).
  { unfold one_hot_to_label_batch.
    etransitivity; [apply BatchMore.traverse_some_iff|].
    unfold Batch.all.
    split; apply Forall_impl; intro plane; apply Forall_impl; intro row;
      apply Forall_impl; intros [|x v] H; simpl in *; congruence. }
  split.
  - intros (plane & row & Hp & Hr & Hv).
    destruct (one_hot_to_label_batch one_hot_batch) as [labels|] eqn:E;
      [|reflexivity].
    exfalso.
    assert (Hall : Batch.all (fun v : list Z => v <> []) one_hot_batch)
      by (apply Hiff; now exists labels).
    unfold Batch.all in Hall. rewrite Forall_forall in Hall.
    specialize (Hall plane Hp). rewrite Forall_forall in Hall.
    specialize (Hall row Hr). rewrite Forall_forall in Hall.
    now apply (Hall [] Hv).
  - intros K HK Hlen.
    assert (Hne : Batch.all (fun v : list Z => v <> []) one_hot_batch).
    { revert Hlen. unfold Batch.all.
      apply Forall_impl; intro plane; apply Forall_impl; intro row;
        apply Forall_impl; intros [|x v] H; [simpl in H; lia | discriminate]. }
    apply Hiff in Hne. destruct Hne as (labels & Hl).
    exists labels. split; [exact Hl|].
    unfold one_hot_to_label_batch in Hl.
    apply (@traverse_all _ _ (fun v => List.length v = K)
             (fun l => (0 <= l < Z.of_nat K)%Z)
             (fun v => option_map Z.of_nat (argmax v))
             one_hot_batch labels); try assumption.
    intros v y Hv Hy.
    destruct (argmax v) as [i|] eqn:E; [|discriminate].
    inversion Hy; subst. apply argmax_bound in E. lia.
Qed.

Lemma one_hot_to_label_batch_fails_on_empty_axis_witness :
  0 < 6
  /\ Batch.all (fun v => List.length v = 6) [[[[0; 3; 1; 3; 0; 0]%Z]]]
  /\ exists labels,
       one_hot_to_label_batch [[[[0; 3; 1; 3; 0; 0]%Z]]] = Some labels
       /\ Batch.all (fun l => (0 <= l < Z.of_nat 6)%Z) labels.
Proof.
  assert (H0 : 0 < 6) by lia.
  assert (H : Batch.all (fun v => List.length v = 6)
                        [[[[0; 3; 1; 3; 0; 0]%Z]]])
    by (repeat constructor).
  split; [exact H0|]. split; [exact H|].
  exact (proj2 (one_hot_to_label_batch_fails_on_empty_axis
                  [[[[0; 3; 1; 3; 0; 0]%Z]]]) 6 H0 H).
Defined.

(** ** More on the tiler *)

Lemma length_flat_map_const {A B} (f : A -> list B) (l : list A) (n : nat) :
  (forall x, List.length (f x) = n) ->
  List.length (flat_map f l) = List.length l * n.
Proof.
  intro H. induction l as [|x l IH]; simpl; [reflexivity|].
  now rewrite length_app, H, IH.
Qed.

Lemma length_spec_offsets (rows cols size stride : nat) :
  List.length (spec_offsets rows cols size stride)
  = count_offsets rows size stride * count_offsets cols size stride.
Proof.
  unfold spec_offsets.
  rewrite (@length_flat_map_const _ _ _ _ (count_offsets cols size stride)).
  - now rewrite length_seq.
  - intro i. now rewrite length_map, length_seq.
Qed.

Lemma count_offsets_zero (extent size stride : nat) :
  count_offsets extent size stride = 0 <-> extent < size.
Proof.
  unfold count_offsets. destruct (Nat.ltb_spec extent size); lia.
Qed.

(** X9.  For a size and stride of at least 1 the number of tiles is
    the product of the numbers of row and column offsets, and no tile
    is returned exactly when the image is smaller than the tile in one
    direction. *)
Theorem tile_image_count {A} (im : Image A) (size stride : nat) :
  1 <= size -> 1 <= stride ->
  exists tiles,
    tile_image im size stride = Ok tiles
    /\ List.length tiles
       = count_offsets (n_rows im) size stride
         * count_offsets (n_cols im) size stride
    /\ (tiles = [] <-> n_rows im < size \/ n_cols im < size).
Proof.
  intros Hs Ht. eexists. split.
  - rewrite tile_image_offsets, tile_offsets_spec_offsets by assumption.
    reflexivity.
  - split.
    + now rewrite length_map, length_spec_offsets.
    + rewrite <- !(count_offsets_zero _ size stride).
      rewrite <- Nat.eq_mul_0, <- length_spec_offsets, <- length_zero_iff_nil.
      now rewrite length_map.
Qed.

Lemma tile_image_count_witness :
  1 <= 2 /\ 1 <= 1
  /\ exists tiles,
       tile_image [[1; 2; 3]; [4; 5; 6]; [7; 8; 9]] 2 1 = Ok tiles
       /\ List.length tiles = 4.
Proof.
  assert (H2 : 1 <= 2) by lia.
  assert (H1 : 1 <= 1) by lia.
  split; [exact H2|]. split; [exact H1|].
  destruct (@tile_image_count nat [[1; 2; 3]; [4; 5; 6]; [7; 8; 9]] 2 1 H2 H1)
    as (tiles & Ht & Hlen & _).
  exists tiles. split; [exact Ht | exact Hlen].
Defined.

Lemma window_index (size i a extent : nat) :
  1 <= size -> i * size <= a < i * size + size ->
  (i * size + size <= extent <-> a < extent / size * size).
Proof.
  intros Hs Ha.
  pose proof (Nat.Div0.mul_div_le extent size) as Hle.
  split; intro H.
  - assert (Hq : i + 1 <= extent / size)
      by (apply Nat.div_le_lower_bound; lia).
    apply (Nat.mul_le_mono_r _ _ size) in Hq. lia.
  - assert (Hq : i < extent / size).
    { destruct (Nat.lt_ge_cases i (extent / size)) as [Hlt|Hge]; [exact Hlt|].
      apply (Nat.mul_le_mono_r _ _ size) in Hge. lia. }
    assert (Hq' : (i + 1) * size <= extent / size * size)
      by (apply Nat.mul_le_mono_r; lia).
    lia.
Qed.

Lemma window_unique (size i i' a : nat) :
  i * size <= a < i * size + size -> i' * size <= a < i' * size + size ->
  i = i'.
Proof.
  intros H H'.
  destruct (Nat.lt_trichotomy i i') as [L|[E|L]]; [|exact E|].
  - assert ((i + 1) * size <= i' * size) by (apply Nat.mul_le_mono_r; lia). lia.
  - assert ((i' + 1) * size <= i * size) by (apply Nat.mul_le_mono_r; lia). lia.
Qed.

(** X10.  With the stride equal to the size the tiles [tile_image]
    returns are cut at offsets whose windows partition the part of the
    image they cover: a pixel lies in the window of a tile exactly when
    it is above and left of the largest multiples of the size within
    the image, then in the window of one tile only, and that tile holds
    the pixel at its place in the window. *)
Theorem tile_image_partitions_when_stride_is_size {A} (im : Image A)
  (size a b : nat) :
  1 <= size ->
  let offsets := tile_offsets (n_rows im) (n_cols im) size size in
  tile_image im size size
  = Ok (List.map (fun rc => crop im (fst rc) (snd rc) size) offsets)
  /\ ((exists rc, In rc offsets /\ in_window size rc a b)
      <-> a < n_rows im / size * size /\ b < n_cols im / size * size)
  /\ (forall rc rc',
        In rc offsets -> in_window size rc a b ->
        In rc' offsets -> in_window size rc' a b ->
        rc = rc')
  /\ (forall rc,
        In rc offsets -> in_window size rc a b ->
        pixel_at (crop im (fst rc) (snd rc) size) (a - fst rc) (b - snd rc)
        = pixel_at im a b).
Proof.
  intros Hs offsets. unfold offsets.
  split; [now apply tile_image_offsets|].
  rewrite tile_offsets_spec_offsets by assumption.
  set (rows := n_rows im). set (cols := n_cols im).
  split; [split|split].
  - intros ([r c] & Hin & [Hwa Hwb]). simpl in Hwa, Hwb.
    apply in_spec_offsets in Hin; [|exact Hs].
    destruct Hin as ((i & j & -> & ->) & Hri & Hcj).
    split; [apply (window_index size i a rows Hs Hwa)
           | apply (window_index size j b cols Hs Hwb)];
      assumption.
  - intros [Hlta Hltb].
    pose proof (Nat.div_mod a size ltac:(lia)) as Ha.
    pose proof (Nat.mod_upper_bound a size ltac:(lia)) as Hab.
    pose proof (Nat.div_mod b size ltac:(lia)) as Hb.
    pose proof (Nat.mod_upper_bound b size ltac:(lia)) as Hbb.
    assert (Hwa : a / size * size <= a < a / size * size + size) by lia.
    assert (Hwb : b / size * size <= b < b / size * size + size) by lia.
    exists (a / size * size, b / size * size). split.
    + apply in_spec_offsets; [exact Hs|].
      split; [now exists (a / size), (b / size)|].
      split; [apply (window_index size (a / size) a rows Hs Hwa)
             | apply (window_index size (b / size) b cols Hs Hwb)]; assumption.
    + split; assumption.
  - intros [r c] [r' c'] Hin [Hwa Hwb] Hin' [Hwa' Hwb']. simpl in *.
    apply in_spec_offsets in Hin; [|exact Hs].
    apply in_spec_offsets in Hin'; [|exact Hs].
    destruct Hin as ((i & j & -> & ->) & _).
    destruct Hin' as ((i' & j' & -> & ->) & _).
    rewrite (window_unique size i i' a Hwa Hwa').
    now rewrite (window_unique size j j' b Hwb Hwb').
  - intros [r c] _ [Hwa Hwb]. cbn [fst snd] in *.
    rewrite (@pixel_at_crop _ im r c size (a - r) (b - c)) by lia.
    f_equal; lia.
Qed.

Lemma tile_image_partitions_when_stride_is_size_witness :
  1 <= 2
  /\ tile_image [[1; 2; 3; 4; 5]; [6; 7; 8; 9; 10]; [11; 12; 13; 14; 15]] 2 2
     = Ok [ [[1; 2]; [6; 7]]; [[3; 4]; [8; 9]] ].
Proof.
  assert (H : 1 <= 2) by lia.
  split; [exact H|].
  exact (proj1 (@tile_image_partitions_when_stride_is_size nat
                  [[1; 2; 3; 4; 5]; [6; 7; 8; 9; 10]; [11; 12; 13; 14; 15]]
                  2 0 0 H)).
Defined.

(** ** More on the partitioner *)



(** X12.  With the two tile directories in place, a file whose two
    images load and have the same shape is processed without error:
    the two images give the same number of tiles, [zip] drops none of
    them, the running tile number advances by that number, and all the
    tiles are written. *)
Theorem process_file_writes_every_tile_of_same_shape_pair
  (partition_name : string) (proc_file_index : nat) (file_name : string)
  (w : World) (input_im output_im : Image RGB) :
  lookup_file (join raw_output_path file_name) (files w) = Some output_im ->
  lookup_file (join raw_input_path file_name) (files w) = Some input_im ->
  same_shape input_im output_im ->
  existsb_string (proc_input_path partition_name) (dirs w) = true ->
  existsb_string (proc_output_path partition_name) (dirs w) = true ->
  exists input_tiles output_tiles w',
    tile_image input_im tile_size tile_stride = Ok input_tiles
    /\ tile_image output_im tile_size tile_stride = Ok output_tiles
    /\ List.length input_tiles = List.length output_tiles
    /\ process_file partition_name proc_file_index file_name w
       = (Ok (proc_file_index + List.length input_tiles), w')
    /\ List.map fst (combine input_tiles output_tiles) = input_tiles
    /\ List.map snd (combine input_tiles output_tiles) = output_tiles
    /\ files w'
       = rev (writes_from partition_name proc_file_index
                (combine input_tiles output_tiles))
         ++ files w.
Proof.
  intros Ho Hi [Hr Hc] Din Dout.
  assert (Hlen : List.length (tiles_of input_im) = List.length (tiles_of output_im)).
  { unfold tiles_of. rewrite !length_map. now rewrite Hr, Hc. }
  exists (tiles_of input_im), (tiles_of output_im). eexists.
  split; [apply tile_image_configured|].
  split; [apply tile_image_configured|].
  split; [exact Hlen|]. split; [|split; [|split; [|apply files_write_all]]].
  - rewrite (process_file_run partition_name proc_file_index file_name w
               _ _ Ho Hi Din Dout).
    rewrite length_combine, <- Hlen, Nat.min_id. reflexivity.
  - revert Hlen. generalize (tiles_of input_im), (tiles_of output_im).
    intros l1. induction l1 as [|x l1 IH]; intros [|y l2] Hl; simpl in *;
      try discriminate; [reflexivity|].
    injection Hl as Hl. now rewrite (IH l2 Hl).
  - revert Hlen. generalize (tiles_of input_im), (tiles_of output_im).
    intros l1. induction l1 as [|x l1 IH]; intros [|y l2] Hl; simpl in *;
      try discriminate; [reflexivity|].
    injection Hl as Hl. now rewrite (IH l2 Hl).
Qed.

Lemma process_file_writes_every_tile_of_same_shape_pair_witness :
  lookup_file (join raw_output_path "a.tif") (files prepared_world)
  = Some (plain 200 200 (255, 0, 0)%Z)
  /\ lookup_file (join raw_input_path "a.tif") (files prepared_world)
     = Some (plain 200 200 (10, 20, 30)%Z)
  /\ same_shape (plain 200 200 (10, 20, 30)%Z) (plain 200 200 (255, 0, 0)%Z)
  /\ existsb_string (proc_input_path TRAIN) (dirs prepared_world) = true
  /\ existsb_string (proc_output_path TRAIN) (dirs prepared_world) = true
  /\ exists n w', process_file TRAIN 0 "a.tif" prepared_world = (Ok n, w').
Proof.
  assert (Ho : lookup_file (join raw_output_path "a.tif") (files prepared_world)
               = Some (plain 200 200 (255, 0, 0)%Z)) by reflexivity.
  assert (Hi : lookup_file (join raw_input_path "a.tif") (files prepared_world)
               = Some (plain 200 200 (10, 20, 30)%Z)) by reflexivity.
  assert (Hs : same_shape (plain 200 200 (10, 20, 30)%Z)
                          (plain 200 200 (255, 0, 0)%Z))
    by (split; vm_compute; reflexivity).
  assert (Din : existsb_string (proc_input_path TRAIN) (dirs prepared_world)
                = true) by reflexivity.
  assert (Dout : existsb_string (proc_output_path TRAIN) (dirs prepared_world)
                 = true) by reflexivity.
  split; [exact Ho|]. split; [exact Hi|]. split; [exact Hs|].
  split; [exact Din|]. split; [exact Dout|].
  destruct (process_file_writes_every_tile_of_same_shape_pair
              TRAIN 0 "a.tif" prepared_world _ _ Ho Hi Hs Din Dout)
    as (input_tiles & output_tiles & w' & _ & _ & _ & Hrun & _).
  eexists. exists w'. exact Hrun.
Defined.

(** X13.  A file name for which one of the two images is missing
    raises the error of [load_image] before anything is written; a run
    of the partition over that name alone raises it too, having only
    created the directories. *)
Theorem process_file_raises_on_missing_image
  (partition_name : string) (proc_file_index : nat) (file_name : string)
  (w : World) :
  lookup_file (join raw_output_path file_name) (files w) = None
  \/ lookup_file (join raw_input_path file_name) (files w) = None ->
  process_file partition_name proc_file_index file_name w
  = (Raise FileNotFoundError, w)
  /\ exists ds,
       _process_data [file_name] partition_name w
       = (Raise FileNotFoundError,
          mkWorld (mkdir_refusal w) ds (listing w) (files w)).
Proof.
  intro H. split; [now apply process_file_missing|].
  unfold _process_data.
  destruct (_makedirs_files (proc_input_path partition_name) w) as (ds1 & H1).
  rewrite (@bind_ok _ _ _ _ _ _ _ H1).
  match type of H1 with _ = (_, ?x) => set (w1 := x) in * end.
  destruct (_makedirs_files (proc_output_path partition_name) w1) as (ds2 & H2).
  rewrite (@bind_ok _ _ _ _ _ _ _ H2).
  match type of H2 with _ = (_, ?x) => set (w2 := x) in * end.
  exists ds2. apply bind_raise. cbn [for_each]. apply bind_raise.
  now apply process_file_missing.
Qed.

Lemma process_file_raises_on_missing_image_witness :
  (lookup_file (join raw_output_path "b.tif") (files matched_world) = None
   \/ lookup_file (join raw_input_path "b.tif") (files matched_world) = None)
  /\ process_file TRAIN 0 "b.tif" matched_world
     = (Raise FileNotFoundError, matched_world).
Proof.
  assert (H : lookup_file (join raw_output_path "b.tif") (files matched_world) = None
              \/ lookup_file (join raw_input_path "b.tif") (files matched_world) = None)
    by (left; reflexivity).
  split; [exact H|].
  exact (proj1 (process_file_raises_on_missing_image TRAIN 0 "b.tif"
                  matched_world H)).
Defined.

(** X14.  A run of a partition whose directories exist or can be
    created, and that meets a file it cannot load, stops there with the
    error of [load_image]: the tiles of the files before it stay on
    disk, and no file after it is processed. *)
Theorem partition_keeps_tiles_written_before_a_failure
  (good rest : list string) (bad partition_name : string) (w : World) :
  Forall (fun f => endswith f ".tif" = true) good ->
  Forall (loads (files w)) good ->
  endswith bad ".tif" = true ->
  lookup_file (join raw_output_path bad) (files w) = None
  \/ lookup_file (join raw_input_path bad) (files w) = None ->
  can_make w (proc_input_path partition_name) ->
  can_make w (proc_output_path partition_name) ->
  exists w',
    _process_data (good ++ bad :: rest) partition_name w
    = (Raise FileNotFoundError, w')
    /\ files w'
       = rev (writes_from partition_name 0
                (flat_map (file_pairs (files w)) good))
         ++ files w.
Proof.
  intros Htif Hload Hbad Hmiss Cin Cout. unfold _process_data.
  destruct (makedirs_then (proc_input_path partition_name)
              (proc_output_path partition_name) w _
              (_ <- for_each (good ++ bad :: rest)
                             (process_file partition_name) 0 ;; ret tt))
    as (ds & Hmk & K).
  rewrite Hmk.
  set (w2 := mkWorld (mkdir_refusal w) ds (listing w) (files w)).
  assert (Hrun := process_files_run partition_name good 0 w2 Htif Hload
                    (can_make_made _ _ w ds _ K (or_introl eq_refl) Cin)
                    (can_make_made _ _ w ds _ K (or_intror eq_refl) Cout)).
  cbn [files w2] in Hrun.
  set (W := writes_from partition_name 0
              (flat_map (file_pairs (files w)) good)) in *.
  exists (write_all W w2). split; [|now rewrite files_write_all].
  apply bind_raise.
  rewrite (for_each_app _ _ _ _ _ _ _ Hrun).
  cbn [for_each]. apply bind_raise.
  apply process_file_missing. rewrite files_write_all. cbn [files w2].
  rewrite !lookup_file_tif;
    try (now apply endswith_join); try exact Hmiss;
    intros q im Hin; exact (rev_writes_png _ _ _ _ _ Hin).
Qed.

Lemma partition_keeps_tiles_written_before_a_failure_witness :
  Forall (fun f => endswith f ".tif" = true) ["a.tif"%string]
  /\ Forall (loads (files matched_world)) ["a.tif"%string]
  /\ endswith "b.tif" ".tif" = true
  /\ (lookup_file (join raw_output_path "b.tif") (files matched_world) = None
      \/ lookup_file (join raw_input_path "b.tif") (files matched_world) = None)
  /\ can_make matched_world (proc_input_path TRAIN)
  /\ can_make matched_world (proc_output_path TRAIN)
  /\ exists w',
       _process_data ["a.tif"; "b.tif"; "c.tif"]%string TRAIN matched_world
       = (Raise FileNotFoundError, w').
Proof.
  assert (Htif : Forall (fun f => endswith f ".tif" = true) ["a.tif"%string])
    by (constructor; [reflexivity | constructor]).
  assert (Hbad : endswith "b.tif" ".tif" = true) by reflexivity.
  assert (Hmiss : lookup_file (join raw_output_path "b.tif") (files matched_world) = None
                  \/ lookup_file (join raw_input_path "b.tif") (files matched_world) = None)
    by (left; reflexivity).
  assert (Cin : can_make matched_world (proc_input_path TRAIN))
    by (right; reflexivity).
  assert (Cout : can_make matched_world (proc_output_path TRAIN))
    by (right; reflexivity).
  split; [exact Htif|]. split; [exact matched_world_loads|].
  split; [exact Hbad|]. split; [exact Hmiss|].
  split; [exact Cin|]. split; [exact Cout|].
  destruct (partition_keeps_tiles_written_before_a_failure
              ["a.tif"%string] ["c.tif"%string] "b.tif" TRAIN matched_world
              Htif matched_world_loads Hbad Hmiss Cin Cout) as (w' & Hrun & _).
  exists w'. exact Hrun.
Defined.

Lemma tile_dir_is_not_raw (part : string) (ps : list (Image RGB * Image RGB))
  (k : nat) (q : string) (im : Image RGB) :
  In (q, im) (writes_from part k ps) -> dirname q <> raw_output_path.
Proof.
  intro Hin. apply (in_map fst) in Hin. cbn [fst] in Hin.
  destruct (writes_from_paths _ _ _ _ Hin) as (n & _ & Hq).
  destruct (tile_path_dirname part n) as [Di Do].
  destruct (endswith_proc_path part) as [Ei Eo].
  destruct Hq as [-> | ->]; [rewrite Di | rewrite Do]; intro E;
    [rewrite E in Ei | rewrite E in Eo]; discriminate.
Qed.

(** X15.  A run of a partition whose directories exist or can be
    created writes [.png] files only and removes none: every path that
    does not end in [.png] reads as before, so the raw images still
    load, every path that could be read before can still be read, and
    the label directory lists the names it listed before. *)
Theorem partition_only_writes_png (file_names : list string)
  (partition_name : string) (w : World) :
  Forall (fun f => endswith f ".tif" = true) file_names ->
  Forall (loads (files w)) file_names ->
  can_make w (proc_input_path partition_name) ->
  can_make w (proc_output_path partition_name) ->
  exists w',
    _process_data file_names partition_name w = (Ok tt, w')
    /\ (forall p, endswith p ".png" = false ->
                  lookup_file p (files w') = lookup_file p (files w))
    /\ Forall (loads (files w')) file_names
    /\ (forall p im, lookup_file p (files w) = Some im ->
                     exists im', lookup_file p (files w') = Some im')
    /\ listing w' raw_output_path = listing w raw_output_path.
Proof.
  intros Htif Hload Cin Cout.
  destruct (_process_data_run file_names partition_name w Htif Hload Cin Cout)
    as (ds & Hrun & _).
  eexists. split; [exact Hrun|].
  rewrite files_write_all. cbn [files].
  split; [|split; [|split]].
  - intros p Hp. apply lookup_file_app_other.
    intros q im Hin ->. apply rev_writes_png in Hin. congruence.
  - rewrite Forall_forall in *. intros f Hf.
    apply loads_after_writes; [now apply Htif | | now apply Hload].
    intros q im Hin. exact (rev_writes_png _ _ _ _ _ Hin).
  - intros p im Hp. rewrite lookup_file_app, Hp.
    destruct (lookup_file p (rev _)) as [im'|]; [now exists im' | now exists im].
  - rewrite listing_write_all; [reflexivity|].
    intros q im Hin. exact (tile_dir_is_not_raw _ _ _ _ _ Hin).
Qed.

Lemma partition_only_writes_png_witness :
  Forall (fun f => endswith f ".tif" = true) ["a.tif"%string]
  /\ Forall (loads (files matched_world)) ["a.tif"%string]
  /\ can_make matched_world (proc_input_path TRAIN)
  /\ can_make matched_world (proc_output_path TRAIN)
  /\ exists w',
       _process_data ["a.tif"%string] TRAIN matched_world = (Ok tt, w')
       /\ Forall (loads (files w')) ["a.tif"%string].
Proof.
  assert (Htif : Forall (fun f => endswith f ".tif" = true) ["a.tif"%string])
    by (constructor; [reflexivity | constructor]).
  assert (Cin : can_make matched_world (proc_input_path TRAIN))
    by (right; reflexivity).
  assert (Cout : can_make matched_world (proc_output_path TRAIN))
    by (right; reflexivity).
  split; [exact Htif|]. split; [exact matched_world_loads|].
  split; [exact Cin|]. split; [exact Cout|].
  destruct (partition_only_writes_png ["a.tif"%string] TRAIN matched_world
              Htif matched_world_loads Cin Cout) as (w' & Hrun & _ & Hl & _ & _).
  exists w'. split; [exact Hrun | exact Hl].
Defined.

(** X16.  A partition whose directories exist or can be created can be
    processed again over its own output: where the first run succeeds
    the second does too, and every path reads the same image as after
    the first run. *)
Theorem partition_twice (file_names : list string)
  (partition_name : string) (w : World) :
  Forall (fun f => endswith f ".tif" = true) file_names ->
  Forall (loads (files w)) file_names ->
  can_make w (proc_input_path partition_name) ->
  can_make w (proc_output_path partition_name) ->
  exists w1 w2,
    _process_data file_names partition_name w = (Ok tt, w1)
    /\ _process_data file_names partition_name w1 = (Ok tt, w2)
    /\ forall p, lookup_file p (files w2) = lookup_file p (files w1).
Proof.
  intros Htif Hload Cin Cout.
  destruct (_process_data_run file_names partition_name w Htif Hload Cin Cout)
    as (ds1 & Hrun1 & K1).
  set (W := writes_from partition_name 0
              (flat_map (file_pairs (files w)) file_names)) in *.
  assert (HW : forall q im, In (q, im) (rev W) -> endswith q ".png" = true)
    by (intros q im Hin; exact (rev_writes_png _ _ _ _ _ Hin)).
  match type of Hrun1 with _ = (_, ?x) => set (w1 := x) in * end.
  assert (Hfiles1 : files w1 = rev W ++ files w)
    by (unfold w1; now rewrite files_write_all).
  assert (Hload1 : Forall (loads (files w1)) file_names)
    by (rewrite Hfiles1; now apply loads_all_after_writes).
  assert (Cin1 : can_make w1 (proc_input_path partition_name)).
  { apply can_make_write_all. left. cbn [dirs].
    exact (can_make_made _ _ w ds1 _ K1 (or_introl eq_refl) Cin). }
  assert (Cout1 : can_make w1 (proc_output_path partition_name)).
  { apply can_make_write_all. left. cbn [dirs].
    exact (can_make_made _ _ w ds1 _ K1 (or_intror eq_refl) Cout). }
  destruct (_process_data_run file_names partition_name w1 Htif Hload1
              Cin1 Cout1) as (ds2 & Hrun2 & _).
  exists w1. eexists. split; [exact Hrun1|]. split; [exact Hrun2|].
  intro p. rewrite files_write_all. cbn [files]. rewrite Hfiles1.
  rewrite (flat_map_file_pairs_after_writes (rev W) (files w) file_names
             Htif HW).
  fold W. rewrite !lookup_file_app.
  destruct (lookup_file p (rev W)); reflexivity.
Qed.

Lemma partition_twice_witness :
  Forall (fun f => endswith f ".tif" = true) ["a.tif"%string]
  /\ Forall (loads (files matched_world)) ["a.tif"%string]
  /\ can_make matched_world (proc_input_path TRAIN)
  /\ can_make matched_world (proc_output_path TRAIN)
  /\ exists w1 w2,
       _process_data ["a.tif"%string] TRAIN matched_world = (Ok tt, w1)
       /\ _process_data ["a.tif"%string] TRAIN w1 = (Ok tt, w2).
Proof.
  assert (Htif : Forall (fun f => endswith f ".tif" = true) ["a.tif"%string])
    by (constructor; [reflexivity | constructor]).
  assert (Cin : can_make matched_world (proc_input_path TRAIN))
    by (right; reflexivity).
  assert (Cout : can_make matched_world (proc_output_path TRAIN))
    by (right; reflexivity).
  split; [exact Htif|]. split; [exact matched_world_loads|].
  split; [exact Cin|]. split; [exact Cout|].
  destruct (partition_twice ["a.tif"%string] TRAIN matched_world
              Htif matched_world_loads Cin Cout) as (w1 & w2 & H1 & H2 & _).
  exists w1, w2. split; [exact H1 | exact H2].
Defined.



Lemma join_name (a b : string) :
  startswith_slash b = false ->
  (String.length a =? 0) || endswith_slash a = false ->
  join a b = (a ++ "/" ++ b)%string.
Proof. intros Hb Ha. unfold join. now rewrite Hb, Ha. Qed.

Lemma partition_tile_paths (n : nat) :
  join (proc_input_path TRAIN) (format_png n)
  = ("/opt/data/processed_data/vaihingen/train/input/bogus_class"
       ++ "/" ++ format_png n)%string
  /\ join (proc_output_path TRAIN) (format_png n)
     = ("/opt/data/processed_data/vaihingen/train/output/bogus_class"
          ++ "/" ++ format_png n)%string
  /\ join (proc_input_path VALIDATION) (format_png n)
     = ("/opt/data/processed_data/vaihingen/validation/input/bogus_class"
          ++ "/" ++ format_png n)%string
  /\ join (proc_output_path VALIDATION) (format_png n)
     = ("/opt/data/processed_data/vaihingen/validation/output/bogus_class"
          ++ "/" ++ format_png n)%string.
Proof.
  pose proof (startswith_slash_format_png n) as Hn.
  repeat split;
    (rewrite join_name; [f_equal; vm_compute; reflexivity | exact Hn
                        | vm_compute; reflexivity]).
Qed.

(** A tile path of the train partition is none of the validation
    partition. *)
Lemma train_path_not_validation (n : nat) (q : string)
  (ps : list (Image RGB * Image RGB)) (k : nat) :
  In q (List.map fst (writes_from VALIDATION k ps)) ->
  q <> join (proc_input_path TRAIN) (format_png n)
  /\ q <> join (proc_output_path TRAIN) (format_png n).
Proof.
  intro Hin. destruct (writes_from_paths _ _ _ _ Hin) as (m & _ & Hq).
  destruct (partition_tile_paths n) as (Ti & To & _ & _).
  destruct (partition_tile_paths m) as (_ & _ & Vi & Vo).
  rewrite Ti, To.
  destruct Hq as [-> | ->]; [rewrite Vi | rewrite Vo];
    split; intro H; cbn [append] in H; discriminate H.
Qed.

Lemma Forall_firstn {A} (P : A -> Prop) (k : nat) (l : list A) :
  Forall P l -> Forall P (firstn k l).
Proof.
  rewrite !Forall_forall. intros H x Hx. apply H.
  rewrite <- (firstn_skipn k l). apply in_or_app. now left.
Qed.

Lemma Forall_skipn {A} (P : A -> Prop) (k : nat) (l : list A) :
  Forall P l -> Forall P (skipn k l).
Proof.
  rewrite !Forall_forall. intros H x Hx. apply H.
  rewrite <- (firstn_skipn k l). apply in_or_app. now right.
Qed.

Lemma filter_tif (names : list string) :
  Forall (fun f => endswith f ".tif" = true)
         (filter (fun file_name => endswith file_name ".tif") names).
Proof. apply Forall_forall. intros f Hf. now apply filter_In in Hf. Qed.

(** ** The whole run *)

Lemma process_data_listed (w : World) (names : list string) :
  listing w raw_output_path = Some names ->
  process_data w
  = (_process_data
       (fst (split_file_names train_ratio
               (filter (fun file_name => endswith file_name ".tif") names)))
       TRAIN ;;
     _process_data
       (snd (split_file_names train_ratio
               (filter (fun file_name => endswith file_name ".tif") names)))
       VALIDATION) w.
Proof.
  intro Hl. unfold process_data.
  assert (H : listdir raw_output_path w = (Ok names, w))
    by (unfold listdir; now rewrite Hl).
  rewrite (@bind_ok _ _ _ _ _ _ _ H). reflexivity.
Qed.

Lemma process_data_files (w : World) (names : list string) :
  listing w raw_output_path = Some names ->
  Forall (loads (files w))
         (filter (fun file_name => endswith file_name ".tif") names) ->
  can_make w (proc_input_path TRAIN) ->
  can_make w (proc_output_path TRAIN) ->
  can_make w (proc_input_path VALIDATION) ->
  can_make w (proc_output_path VALIDATION) ->
  exists w',
    process_data w = (Ok tt, w')
    /\ files w'
       = rev (writes_from VALIDATION 0
                (flat_map (file_pairs (files w))
                   (snd (split_file_names train_ratio
                           (filter (fun file_name => endswith file_name ".tif")
                                   names)))))
         ++ rev (writes_from TRAIN 0
                   (flat_map (file_pairs (files w))
                      (fst (split_file_names train_ratio
                              (filter (fun file_name => endswith file_name ".tif")
                                      names)))))
         ++ files w.
Proof.
  intros Hl Hload Cti Cto Cvi Cvo.
  rewrite (process_data_listed w names Hl).
  set (file_names := filter (fun file_name => endswith file_name ".tif") names) in *.
  pose proof (filter_tif names) as Htif. fold file_names in Htif.
  assert (Htt : Forall (fun f => endswith f ".tif" = true)
                       (fst (split_file_names train_ratio file_names)))
    by (now apply Forall_firstn).
  assert (Htv : Forall (fun f => endswith f ".tif" = true)
                       (snd (split_file_names train_ratio file_names)))
    by (now apply Forall_skipn).
  assert (Hlt : Forall (loads (files w))
                       (fst (split_file_names train_ratio file_names)))
    by (now apply Forall_firstn).
  assert (Hlv : Forall (loads (files w))
                       (snd (split_file_names train_ratio file_names)))
    by (now apply Forall_skipn).
  destruct (_process_data_run _ TRAIN w Htt Hlt Cti Cto) as (ds1 & Hrun1 & K1).
  set (Wt := writes_from TRAIN 0 _) in *.
  assert (HWt : forall q im, In (q, im) (rev Wt) -> endswith q ".png" = true)
    by (intros q im Hin; exact (rev_writes_png _ _ _ _ _ Hin)).
  rewrite (@bind_ok _ _ _ _ _ _ _ Hrun1).
  match type of Hrun1 with _ = (_, ?x) => set (w1 := x) in * end.
  assert (Hfiles1 : files w1 = rev Wt ++ files w)
    by (unfold w1; now rewrite files_write_all).
  assert (Hlv1 : Forall (loads (files w1))
                        (snd (split_file_names train_ratio file_names)))
    by (rewrite Hfiles1; now apply loads_all_after_writes).
  assert (Hcan : forall d, can_make w d -> can_make w1 d).
  { intros d [H|H]; apply can_make_write_all; [left | now right].
    cbn [dirs]. apply K1. now left. }
  destruct (_process_data_run _ VALIDATION w1 Htv Hlv1 (Hcan _ Cvi) (Hcan _ Cvo))
    as (ds2 & Hrun2 & _).
  eexists. split; [exact Hrun2|].
  rewrite files_write_all. cbn [files]. rewrite Hfiles1.
  now rewrite (flat_map_file_pairs_after_writes (rev Wt) (files w) _ Htv HWt).
Qed.

(** X17.  On a label directory that can be listed and whose [.tif]
    names all have their two images, and where the four tile
    directories exist or can be created, [process_data] succeeds: names
    that do not end in [.tif] are left out, the first
    [int(nb_files * train_ratio)] names go to the train partition and
    the others to the validation partition, the tiles of each partition
    are numbered from 0, and when the run ends every tile pair of both
    partitions is on disk under its number. *)
Theorem process_data_run (w : World) (names : list string) :
  listing w raw_output_path = Some names ->
  Forall (loads (files w))
         (filter (fun file_name => endswith file_name ".tif") names) ->
  can_make w (proc_input_path TRAIN) ->
  can_make w (proc_output_path TRAIN) ->
  can_make w (proc_input_path VALIDATION) ->
  can_make w (proc_output_path VALIDATION) ->
  let file_names := filter (fun file_name => endswith file_name ".tif") names in
  let train_pairs :=
    flat_map (file_pairs (files w))
             (fst (split_file_names train_ratio file_names)) in
  let validation_pairs :=
    flat_map (file_pairs (files w))
             (snd (split_file_names train_ratio file_names)) in
  exists w',
    process_data w = (Ok tt, w')
    /\ files w' = rev (writes_from VALIDATION 0 validation_pairs)
                  ++ rev (writes_from TRAIN 0 train_pairs) ++ files w
    /\ (forall n input_tile output_tile,
          nth_error train_pairs n = Some (input_tile, output_tile) ->
          lookup_file (join (proc_input_path TRAIN) (format_png n)) (files w')
          = Some input_tile
          /\ lookup_file (join (proc_output_path TRAIN) (format_png n)) (files w')
             = Some output_tile)
    /\ (forall n input_tile output_tile,
          nth_error validation_pairs n = Some (input_tile, output_tile) ->
          lookup_file (join (proc_input_path VALIDATION) (format_png n)) (files w')
          = Some input_tile
          /\ lookup_file (join (proc_output_path VALIDATION) (format_png n))
                         (files w')
             = Some output_tile).
Proof.
  intros Hl Hload Cti Cto Cvi Cvo file_names train_pairs validation_pairs.
  destruct (process_data_files w names Hl Hload Cti Cto Cvi Cvo)
    as (w' & Hrun & Hfiles).
  fold file_names in Hfiles. fold train_pairs in Hfiles.
  fold validation_pairs in Hfiles.
  exists w'. split; [exact Hrun|]. rewrite Hfiles.
  split; [reflexivity|]. split.
  - intros n input_tile output_tile Hn.
    destruct (@written_tiles_on_disk TRAIN train_pairs (files w) n _ _ Hn)
      as [D1 D2].
    split; (rewrite lookup_file_app_other; [assumption|]);
      intros q im Hin ->; apply in_rev in Hin;
      apply (in_map fst) in Hin; cbn [fst] in Hin;
      destruct (train_path_not_validation n _ _ _ Hin) as [N1 N2];
      [now apply N1 | now apply N2].
  - intros n input_tile output_tile Hn.
    exact (@written_tiles_on_disk VALIDATION validation_pairs _ n _ _ Hn).
Qed.

Lemma listed_world_loads :
  Forall (loads (files listed_world))
         (filter (fun file_name => endswith file_name ".tif")
                 ["a.tif"; "notes.txt"]%string).
Proof. exact matched_world_loads. Qed.

Lemma process_data_run_witness :
  listing listed_world raw_output_path = Some ["a.tif"; "notes.txt"]%string
  /\ Forall (loads (files listed_world))
            (filter (fun file_name => endswith file_name ".tif")
                    ["a.tif"; "notes.txt"]%string)
  /\ can_make listed_world (proc_input_path TRAIN)
  /\ can_make listed_world (proc_output_path TRAIN)
  /\ can_make listed_world (proc_input_path VALIDATION)
  /\ can_make listed_world (proc_output_path VALIDATION)
  /\ exists w', process_data listed_world = (Ok tt, w').
Proof.
  assert (Hl : listing listed_world raw_output_path
               = Some ["a.tif"; "notes.txt"]%string) by reflexivity.
  assert (C : forall d, can_make listed_world d) by (intro d; right; reflexivity).
  split; [exact Hl|]. split; [exact listed_world_loads|].
  split; [apply C|]. split; [apply C|]. split; [apply C|]. split; [apply C|].
  destruct (process_data_run listed_world _ Hl listed_world_loads
              (C _) (C _) (C _) (C _)) as (w' & Hrun & _).
  exists w'. exact Hrun.
Defined.

(** X18.  [process_data] on a label directory that cannot be listed
    raises the error of [listdir] and changes nothing; on a listing
    without a [.tif] name it succeeds and writes no file. *)
Theorem process_data_without_images (w : World) :
  (listing w raw_output_path = None ->
   process_data w = (Raise FileNotFoundError, w))
  /\ (forall names,
        listing w raw_output_path = Some names ->
        Forall (fun f => endswith f ".tif" = false) names ->
        exists w',
          process_data w = (Ok tt, w')
          /\ files w' = files w /\ listing w' = listing w).
Proof.
  split.
  - intro Hl. unfold process_data. apply bind_raise.
    unfold listdir. now rewrite Hl.
  - intros names Hl Hno.
    assert (Hf : filter (fun file_name => endswith file_name ".tif") names = []).
    { clear Hl. induction names as [|f names IH]; [reflexivity|].
      inversion Hno as [|? ? Hf Hno']; subst. cbn [filter]. rewrite Hf.
      now apply IH. }
    rewrite (process_data_listed w names Hl), Hf.
    change (fst (split_file_names train_ratio [])) with (@nil string).
    change (snd (split_file_names train_ratio [])) with (@nil string).
    destruct (_process_data_nil TRAIN w) as (ds1 & H1).
    rewrite (@bind_ok _ _ _ _ _ _ _ H1).
    match type of H1 with _ = (_, ?x) => set (w1 := x) in * end.
    destruct (_process_data_nil VALIDATION w1) as (ds2 & H2).
    eexists. split; [exact H2|]. split; reflexivity.
Qed.

(** ** More on the adapter *)

(** X19.  For every image library and batch size, both streams of
    [make_input_output_generators] take their input element from a
    flipping, shuffling generator over [<partition>/input] whose
    normalisation is fitted on one batch of 32 shuffled tiles of
    [train/input], for the validation stream too; and the output
    element of every pair is a batch of one-hot vectors of [nb_labels]
    channels whose arg-max is [rgb_to_label_batch] of the batch read. *)
Theorem make_input_output_generators_spec
  (next_batch : Generator -> nat -> Batch.t RGB) (batch_size n : nat) :
  let fit :=
    next_batch
      (mkGenerator false false false false None
                   "/opt/data/processed_data/vaihingen/train/input"
                   (200, 200) 32 true 1) 0 in
  let input_gen (dir : string) :=
    mkGenerator true true true true (Some fit) dir (200, 200) batch_size true 1 in
  let label_gen (dir : string) :=
    mkGenerator true true false false None dir (200, 200) batch_size true 1 in
  let train_dir := "/opt/data/processed_data/vaihingen/train/input"%string in
  let validation_dir :=
    "/opt/data/processed_data/vaihingen/validation/input"%string in
  let train_gen := fst (make_input_output_generators next_batch batch_size) in
  let validation_gen := snd (make_input_output_generators next_batch batch_size) in
  fst (train_gen n) = next_batch (input_gen train_dir) n
  /\ fst (validation_gen n) = next_batch (input_gen validation_dir) n
  /\ Batch.all (fun v => exists i, one_hot_at nb_labels i v) (snd (train_gen n))
  /\ Batch.all (fun v => exists i, one_hot_at nb_labels i v)
               (snd (validation_gen n))
  /\ one_hot_to_label_batch (snd (train_gen n))
     = Some (rgb_to_label_batch (next_batch (label_gen train_dir) n))
  /\ one_hot_to_label_batch (snd (validation_gen n))
     = Some (rgb_to_label_batch (next_batch (label_gen validation_dir) n)).
Proof.
  intros fit input_gen label_gen train_dir validation_dir train_gen validation_gen.
  assert (Et : snd (train_gen n)
               = rgb_to_one_hot_batch (next_batch (label_gen train_dir) n))
    by reflexivity.
  assert (Ev : snd (validation_gen n)
               = rgb_to_one_hot_batch (next_batch (label_gen validation_dir) n))
    by reflexivity.
  split; [reflexivity|]. split; [reflexivity|].
  rewrite Et, Ev.
  split; [apply rgb_to_one_hot_batch_one_hot|].
  split; [apply rgb_to_one_hot_batch_one_hot|].
  split; apply one_hot_to_label_of_rgb_to_one_hot.
Qed.

(** ** The configured split and the directories of the module *)

(** X20.  With the configured ratio 0.75 the train partition holds
    [3 * n / 4] of the [n] names, rounded down: no name is left for
    training when there is only one, and some name is left for
    validation whenever there is one at all. *)
Theorem split_file_names_configured (file_names : list string) :
  let n := List.length file_names in
  let train_file_names := fst (split_file_names train_ratio file_names) in
  let validation_file_names := snd (split_file_names train_ratio file_names) in
  List.length train_file_names = 3 * n / 4
  /\ List.length validation_file_names = n - 3 * n / 4
  /\ (train_file_names = [] <-> n <= 1)
  /\ (validation_file_names = [] <-> n = 0).
Proof.
  intros n train_file_names validation_file_names.
  assert (Hq : 3 * n / 4 <= n).
  { apply Nat.Div0.div_le_upper_bound. lia. }
  assert (Hk : clip_index n (py_int (Qmult (inject_Z (Z.of_nat n)) train_ratio))
               = 3 * n / 4).
  { rewrite py_int_scaled, clip_index_nonneg by lia.
    rewrite Nat2Z.id. lia. }
  assert (Ht : List.length train_file_names = 3 * n / 4).
  { unfold train_file_names, split_file_names, slice_to. cbn [fst].
    fold n. rewrite Hk. rewrite length_firstn. fold n. lia. }
  assert (Hv : List.length validation_file_names = n - 3 * n / 4).
  { unfold validation_file_names, split_file_names, slice_from. cbn [snd].
    fold n. rewrite Hk. rewrite length_skipn. reflexivity. }
  split; [exact Ht|]. split; [exact Hv|].
  rewrite <- !length_zero_iff_nil, Ht, Hv.
  assert (H1 : 3 * n / 4 = 0 <-> n <= 1).
  { split; intro H.
    - destruct (Nat.le_gt_cases n 1) as [L|G]; [exact L|].
      assert (1 <= 3 * n / 4) by (apply Nat.div_le_lower_bound; lia). lia.
    - apply Nat.div_small. lia. }
  assert (H2 : 3 * n / 4 < n \/ n = 0).
  { destruct n as [|m]; [now right|]. left.
    apply Nat.Div0.div_lt_upper_bound. lia. }
  split; [exact H1|]. lia.
Qed.

Lemma _makedirs_dirs (path : string) (w : World) :
  exists ds,
    _makedirs path w = (Ok tt, mkWorld (mkdir_refusal w) ds (listing w) (files w))
    /\ (forall p, existsb_string p (dirs w) = true -> existsb_string p ds = true)
    /\ (mkdir_refusal w path = None -> existsb_string path ds = true)
    /\ (existsb_string path (dirs w) = true -> ds = dirs w)
    /\ (forall e, mkdir_refusal w path = Some e -> ds = dirs w).
Proof.
  unfold _makedirs, try_except_pass, makedirs.
  destruct (existsb_string path (dirs w)) eqn:Ex.
  - exists (dirs w). split; [now destruct w|]. repeat split; auto.
  - destruct (mkdir_refusal w path) as [e|] eqn:Er.
    + exists (dirs w). split; [now destruct w|].
      repeat split; auto; discriminate.
    + exists (path :: dirs w). split; [reflexivity|].
      split; [|split; [|split]].
      * intros p Hp. unfold existsb_string in *. cbn [existsb].
        rewrite Hp. apply orb_true_r.
      * intros _. unfold existsb_string. cbn [existsb].
        now rewrite String.eqb_refl.
      * discriminate.
      * discriminate.
Qed.

(** X21.  Loading the module never fails and touches no image file or
    listing; where the operating system grants the two creations, the
    model and the evaluation directory exist afterwards; and loading it
    again changes nothing. *)
Theorem module_init_spec (w : World) :
  exists w',
    module_init w = (Ok tt, w')
    /\ files w' = files w /\ listing w' = listing w
    /\ (forall p, existsb_string p (dirs w) = true ->
                  existsb_string p (dirs w') = true)
    /\ (mkdir_refusal w model_path = None ->
        mkdir_refusal w eval_path = None ->
        existsb_string model_path (dirs w') = true
        /\ existsb_string eval_path (dirs w') = true
        /\ module_init w' = (Ok tt, w')).
Proof.
  unfold module_init.
  destruct (_makedirs_dirs model_path w) as (ds1 & H1 & K1 & G1 & _).
  match type of H1 with _ = (_, ?x) => set (w1 := x) in * end.
  destruct (_makedirs_dirs eval_path w1) as (ds2 & H2 & K2 & G2 & _).
  cbn [mkdir_refusal listing files dirs w1] in H2, K2, G2.
  match type of H2 with _ = (_, ?x) => set (w2 := x) in * end.
  exists w2. split; [now rewrite (@bind_ok _ _ _ _ _ _ _ H1)|].
  split; [reflexivity|]. split; [reflexivity|]. split.
  - intros p Hp. cbn [dirs w2]. auto.
  - intros Rm Re. cbn [dirs w2].
    assert (Dm : existsb_string model_path ds2 = true) by auto.
    assert (De : existsb_string eval_path ds2 = true) by auto.
    split; [exact Dm|]. split; [exact De|].
    destruct (_makedirs_dirs model_path w2) as (ds3 & H3 & _ & _ & S3 & _).
    cbn [dirs w2] in S3. rewrite (S3 Dm) in H3.
    rewrite (@bind_ok _ _ _ _ _ _ _ H3).
    change (mkWorld (mkdir_refusal w2) ds2 (listing w2) (files w2)) with w2.
    destruct (_makedirs_dirs eval_path w2) as (ds4 & H4 & _ & _ & S4 & _).
    cbn [dirs w2] in S4. rewrite (S4 De) in H4. exact H4.
Qed.

Lemma module_init_spec_witness :
  mkdir_refusal matched_world model_path = None
  /\ mkdir_refusal matched_world eval_path = None
  /\ exists w', module_init matched_world = (Ok tt, w')
                /\ module_init w' = (Ok tt, w').
Proof.
  assert (Rm : mkdir_refusal matched_world model_path = None) by reflexivity.
  assert (Re : mkdir_refusal matched_world eval_path = None) by reflexivity.
  split; [exact Rm|]. split; [exact Re|].
  destruct (module_init_spec matched_world) as (w' & Hrun & _ & _ & _ & H).
  destruct (H Rm Re) as (_ & _ & Hagain).
  exists w'. split; [exact Hrun | exact Hagain].
Defined.
